(** * Sub-issue closer: the reference resolver and the completion propagator

    A shallow embedding of [src/lib/core.js] and of [getToken] of
    [src/lib/auth.js].

    - JavaScript strings are sequences of code units; they are modelled by
      [string], whose characters play the role of code units.  The two
      regular expressions of the resolver only test characters against
      ['/'], ['#'], the decimal digits and literal ASCII text.
    - JavaScript numbers that hold integers (issue numbers, counters) are
      modelled by [Z].  This is exact for magnitudes up to 2^53, the range
      in which every integer is a Number.  Where the program makes a
      Number from text ([parseInt]) or text from a Number (a template
      literal), the rounding to the nearest double, the infinities and the
      printing of large Numbers are modelled as well.
    - [undefined] is modelled by [None].
    - The remote store (the [octokit] argument) is an arbitrary state
      machine: a type of worlds and four operations that answer a request
      in a world, either resolving with data or rejecting with an error.
    - [async]/[await] code is sequential; it is written in a monad that
      threads the world, the list of requests sent so far and the console,
      and that propagates thrown values.  Recursion is bounded by fuel: the
      hierarchy served by the store may be cyclic, in which case the source
      does not terminate. *)

From Stdlib Require Import ZArith List Bool Ascii String Lia.
From Stdlib Require Import DecimalString.
From Stdlib Require DecimalZ.
Import ListNotations.

Open Scope string_scope.
Open Scope Z_scope.

(* ================================================================== *)
(** * Characters and strings *)

Module Js.

Definition code (a : ascii) : Z := Z.of_nat (nat_of_ascii a).

Definition is_digit (a : ascii) : bool := (48 <=? code a) && (code a <=? 57).

(** [s.startsWith(p)], returning what follows the prefix. *)
Fixpoint strip_prefix (p s : string) : option string :=
  match p, s with
  | EmptyString, _ => Some s
  | String a p', String b s' => if Ascii.eqb a b then strip_prefix p' s' else None
  | String _ _, EmptyString => None
  end.

(** [s.split(sep)] for a one-character separator: the array is never
    empty. *)
Fixpoint split (sep : ascii) (s : string) : list string :=
  match s with
  | EmptyString => [EmptyString]
  | String a s' =>
      if Ascii.eqb a sep then EmptyString :: split sep s'
      else match split sep s' with
           | h :: t => String a h :: t
           | [] => [String a EmptyString]
           end
  end.

(** A relative index of [Array.prototype.slice], clamped to [0, len]. *)
Definition clamp_index (len k : Z) : Z :=
  if k <? 0 then Z.max (len + k) 0 else Z.min k len.

(** [arr.slice(start, end)]. *)
Definition slice {A : Type} (start stop : Z) (arr : list A) : list A :=
  let len := Z.of_nat (List.length arr) in
  let from := clamp_index len start in
  let to := clamp_index len stop in
  firstn (Z.to_nat (to - from)) (skipn (Z.to_nat from) arr).

(** [arr[0]]: [undefined] on the empty array. *)
Definition first {A : Type} (arr : list A) : option A := nth_error arr 0.

(** The value returned by [arr.pop()]: [undefined] on the empty array. *)
Definition pop {A : Type} (arr : list A) : option A :=
  nth_error arr (Nat.pred (List.length arr)).

(** [s.repeat(n)]. *)
Fixpoint repeat (s : string) (n : nat) : string :=
  match n with
  | O => EmptyString
  | S n' => s ++ repeat s n'
  end.

(** ** Numbers

    A Number of the program that holds an integer, or one of the values
    that hold none. *)
Inductive Number :=
| Int (z : Z)
| NaN
| Infinity (negative : bool).

(** The Number value for the integer [n]: the nearest double, the even
    significand on a tie, and an infinity from [2^1024 - 2^970] on.  Every
    integer below [2^53] is a Number. *)
Definition to_Number (n : Z) : Number :=
  let a := Z.abs n in
  if a <? 2 ^ 53 then Int n
  else
    let e := Z.log2 a - 52 in
    let q := Z.shiftr a e in
    let r := a - Z.shiftl q e in
    let half := 2 ^ (e - 1) in
    let q' := if (half <? r) || ((r =? half) && Z.odd q) then q + 1 else q in
    let v := Z.shiftl q' e in
    if 2 ^ 1024 <=? v then Infinity (n <? 0) else Int (Z.sgn n * v).

(** All the decimal digits of an integer. *)
Definition digits_of (z : Z) : string := NilZero.string_of_int (Z.to_int z).

Definition rounds_to (v a : Z) : bool :=
  match to_Number v with
  | Int y => y =? a
  | _ => false
  end.

(** The fewest digits [s], [k] of them from [k] on, such that [s] followed
    by [n - k] zeros is read back as the Number [a], which has [n] digits;
    among several [s], the one nearest to [a], and the even one on a
    tie. *)
Fixpoint shortest (fuel : nat) (k n a : Z) : Z * Z :=
  match fuel with
  | O => (a, n)
  | S fuel' =>
      let p := 10 ^ (n - k) in
      let lo := a / p in
      let hi := lo + 1 in
      let ok_lo := rounds_to (lo * p) a in
      let ok_hi := (hi <? 10 ^ k) && rounds_to (hi * p) a in
      if ok_lo && ok_hi then
        let dl := a - lo * p in
        let dh := hi * p - a in
        if dl <? dh then (lo, k)
        else if dh <? dl then (hi, k)
        else if Z.even lo then (lo, k) else (hi, k)
      else if ok_lo then (lo, k)
      else if ok_hi then (hi, k)
      else shortest fuel' (k + 1) n a
  end.

(** [Number::toString] on a Number [a >= 2^53]: the shortest digits that
    read back as [a], completed with zeros up to 21 digits and written
    with an exponent beyond. *)
Definition print_large (a : Z) : string :=
  let n := Z.of_nat (String.length (digits_of a)) in
  let '(s, k) := shortest (Z.to_nat n) 1 n a in
  let ds := digits_of s in
  if n <=? 21 then ds ++ repeat "0" (Z.to_nat (n - k))
  else
    match ds with
    | String d EmptyString => ds ++ "e+" ++ digits_of (n - 1)
    | String d rest => String d ("." ++ rest) ++ "e+" ++ digits_of (n - 1)
    | EmptyString => ds
    end.

(** A number inside a template literal.  An integer below [2^53] prints
    with all its digits, which are the shortest that read back as it; an
    integer beyond stands for the Number nearest to it. *)
Definition of_number (z : Z) : string :=
  if Z.abs z <? 2 ^ 53 then digits_of z
  else
    match to_Number z with
    | Int x => (if x <? 0 then "-" else "") ++ print_large (Z.abs x)
    | Infinity negative => (if negative then "-" else "") ++ "Infinity"
    | NaN => "NaN"
    end.

(** A value that is a string or [undefined] inside a template literal. *)
Definition of_optional (s : option string) : string :=
  match s with
  | Some t => t
  | None => "undefined"
  end.

(** ** [parseInt] with one argument *)

Definition is_space (a : ascii) : bool :=
  (code a =? 32) || ((9 <=? code a) && (code a <=? 13)).

Fixpoint trim_start (s : string) : string :=
  match s with
  | String a s' => if is_space a then trim_start s' else s
  | EmptyString => s
  end.

(** The value of a digit in the given radix, if it is one. *)
Definition digit_in (radix : Z) (a : ascii) : option Z :=
  let n := code a in
  let v := if (48 <=? n) && (n <=? 57) then n - 48
           else if (97 <=? n) && (n <=? 122) then n - 87
           else if (65 <=? n) && (n <=? 90) then n - 55
           else 36 in
  if v <? radix then Some v else None.

(** The longest run of digits at the start of [s], read most significant
    digit first; [None] when the run is empty. *)
Fixpoint read_digits (radix : Z) (acc : option Z) (s : string) : option Z :=
  match s with
  | EmptyString => acc
  | String a s' =>
      match digit_in radix a with
      | Some v =>
          read_digits radix
            (Some (match acc with Some n => n * radix + v | None => v end)) s'
      | None => acc
      end
  end.

Definition parseInt (s : string) : Number :=
  let s1 := trim_start s in
  let '(sign, s2) :=
    match s1 with
    | String a r =>
        if Ascii.eqb a "-" then (-1, r)
        else if Ascii.eqb a "+" then (1, r)
        else (1, s1)
    | EmptyString => (1, s1)
    end in
  let '(radix, s3) :=
    match s2 with
    | String a (String b r) =>
        if Ascii.eqb a "0" && (Ascii.eqb b "x" || Ascii.eqb b "X")
        then (16, r)
        else (10, s2)
    | _ => (10, s2)
    end in
  match read_digits radix None s3 with
  | Some n => to_Number (sign * n)
  | None => NaN
  end.

End Js.

(* ================================================================== *)
(** * The fragment of regular expressions used by the resolver

    Both patterns are a sequence of literal text and of capture groups
    [(C+)] over a character class [C], possibly anchored.  Matching is
    the backtracking search of the language: a group first takes as many
    characters as it can and gives them back one at a time while the rest
    of the pattern fails; without [^], the search is retried from each
    position from the left. *)

Module Regex.

Inductive charclass :=
| NoneOf (c : ascii)      (* [^c] *)
| Digit.                  (* \d *)

Definition in_class (cc : charclass) (a : ascii) : bool :=
  match cc with
  | NoneOf c => negb (Ascii.eqb a c)
  | Digit => Js.is_digit a
  end.

Inductive atom :=
| Lit (text : string)         (* literal characters *)
| Group (cc : charclass).     (* (cc+), greedy *)

Record regex := {
  from_start : bool;          (* the pattern begins with ^ *)
  atoms : list atom;
  to_end : bool               (* the pattern ends with $ *)
}.

(** A group [(cc+)] followed by the rest of the pattern [k]: the longest
    run first, then shorter ones.  Returns the capture of the group and
    those of [k]. *)
Fixpoint take (cc : charclass) (k : string -> option (list string))
  (s : string) : option (string * list string) :=
  match s with
  | EmptyString => None
  | String a s' =>
      if in_class cc a then
        match take cc k s' with
        | Some (g, caps) => Some (String a g, caps)
        | None =>
            match k s' with
            | Some caps => Some (String a EmptyString, caps)
            | None => None
            end
        end
      else None
  end.

(** Matches [p] at the start of [s]; returns the captures in order. *)
Fixpoint match_here (to_end : bool) (p : list atom) (s : string)
  : option (list string) :=
  match p with
  | [] =>
      if to_end
      then match s with EmptyString => Some [] | String _ _ => None end
      else Some []
  | Lit text :: p' =>
      match Js.strip_prefix text s with
      | Some s' => match_here to_end p' s'
      | None => None
      end
  | Group cc :: p' =>
      match take cc (match_here to_end p') s with
      | Some (g, caps) => Some (g :: caps)
      | None => None
      end
  end.

(** The leftmost position at which the pattern matches. *)
Fixpoint search (to_end : bool) (p : list atom) (s : string)
  : option (list string) :=
  match match_here to_end p s with
  | Some caps => Some caps
  | None =>
      match s with
      | EmptyString => None
      | String _ s' => search to_end p s'
      end
  end.

(** [s.match(re)] for a pattern without the [g] flag: [null], or the
    captures; [group m i] is the element [m[i]] for [i >= 1]. *)
Definition str_match (s : string) (re : regex) : option (list string) :=
  if from_start re
  then match_here (to_end re) (atoms re) s
  else search (to_end re) (atoms re) s.

Definition group (m : list string) (i : nat) : string :=
  nth (Nat.pred i) m EmptyString.

End Regex.

(* ================================================================== *)
(** * The reference resolver: [parseIssueInput] *)

Module Resolver.
Import Js Regex.

Record IssueRef := {
  owner : string;
  repo : string;
  issue_number : Number
}.

(** [/^([^\/]+)\/([^#]+)#(\d+)$/] *)
Definition shortPattern : regex :=
  {| from_start := true;
     atoms := [Group (NoneOf "/"); Lit "/"; Group (NoneOf "#"); Lit "#";
               Group Digit];
     to_end := true |}.

(** [/github\.com\/([^\/]+)\/([^\/]+)\/issues\/(\d+)/] *)
Definition urlPattern : regex :=
  {| from_start := false;
     atoms := [Lit "github.com/"; Group (NoneOf "/"); Lit "/";
               Group (NoneOf "/"); Lit "/issues/"; Group Digit];
     to_end := false |}.

Definition parseIssueInput (issueInput : string) : option IssueRef :=
  match str_match issueInput shortPattern with
  | Some shortMatch =>
      Some {| owner := group shortMatch 1;
              repo := group shortMatch 2;
              issue_number := parseInt (group shortMatch 3) |}
  | None =>
      match str_match issueInput urlPattern with
      | Some urlMatch =>
          Some {| owner := group urlMatch 1;
                  repo := group urlMatch 2;
                  issue_number := parseInt (group urlMatch 3) |}
      | None => None
      end
  end.

End Resolver.


(* ================================================================== *)
(** * The remote store and the effects of the propagator *)

Module Store.

(** A thrown value: the rejection of a request, whose [status] is the
    HTTP status when there is one, or an [Error] made by the program. *)
Record JsError := {
  status : option Z;
  message : string
}.

Definition new_Error (msg : string) : JsError :=
  {| status := None; message := msg |}.

Record Summary := {
  total : Z;
  completed : Z;
  percent_completed : Z
}.

Record Issue := {
  title : string;
  state : string;
  sub_issues_summary : option Summary
}.

Record SubIssue := {
  number : Z;
  repository_url : string
}.

(** The requests of [octokit.rest.issues], with the fields the program
    sets. *)
Inductive Request :=
| IssuesGet (owner repo : option string) (issue_number : Z)
| IssuesListSubIssues (owner repo : option string) (issue_number : Z)
    (per_page : Z)
| IssuesUpdate (owner repo : option string) (issue_number : Z)
    (state state_reason : string)
| IssuesCreateComment (owner repo : option string) (issue_number : Z)
    (body : string).

Definition is_mutation (r : Request) : bool :=
  match r with
  | IssuesUpdate _ _ _ _ _ | IssuesCreateComment _ _ _ _ => true
  | _ => false
  end.

Definition is_listing (r : Request) : bool :=
  match r with
  | IssuesListSubIssues _ _ _ _ => true
  | _ => false
  end.

(** A request either rejects with an error or resolves with data. *)
Definition Response (A : Type) : Type := JsError + A.

Record Octokit (World : Type) := {
  issues_get :
    option string -> option string -> Z -> World -> Response Issue * World;
  issues_listSubIssues :
    option string -> option string -> Z -> Z -> World ->
    Response (list SubIssue) * World;
  issues_update :
    option string -> option string -> Z -> string -> string -> World ->
    Response unit * World;
  issues_createComment :
    option string -> option string -> Z -> string -> World ->
    Response unit * World
}.

Arguments issues_get {World}.
Arguments issues_listSubIssues {World}.
Arguments issues_update {World}.
Arguments issues_createComment {World}.

(** What a run has done so far. *)
Record Env (World : Type) := {
  world : World;
  requests : list Request;      (* oldest first *)
  console : list string         (* lines of console.log, oldest first *)
}.

Arguments world {World}.
Arguments requests {World}.
Arguments console {World}.

Inductive Outcome (A : Type) :=
| Returned (a : A)
| Thrown (e : JsError)
| OutOfFuel.

Arguments Returned {A}.
Arguments Thrown {A}.
Arguments OutOfFuel {A}.

Definition M (World A : Type) : Type := Env World -> Outcome A * Env World.

Section Monad.
Context {World : Type}.

Definition ret {A : Type} (a : A) : M World A := fun env => (Returned a, env).

Definition throw {A : Type} (e : JsError) : M World A :=
  fun env => (Thrown e, env).

Definition out_of_fuel {A : Type} : M World A := fun env => (OutOfFuel, env).

Definition bind {A B : Type} (m : M World A) (k : A -> M World B)
  : M World B :=
  fun env =>
    match m env with
    | (Returned a, env') => k a env'
    | (Thrown e, env') => (Thrown e, env')
    | (OutOfFuel, env') => (OutOfFuel, env')
    end.

(** [try { m } catch (error) { handler }] *)
Definition try_catch {A : Type} (m : M World A) (handler : JsError -> M World A)
  : M World A :=
  fun env =>
    match m env with
    | (Thrown e, env') => handler e env'
    | other => other
    end.

(** [console.log(line)] *)
Definition console_log (line : string) : M World unit :=
  fun env =>
    (Returned tt,
     {| world := world env;
        requests := requests env;
        console := console env ++ [line] |}).

(** [if (b) { m }] *)
Definition when (b : bool) (m : M World unit) : M World unit :=
  if b then m else ret tt.

(** Sends a request: it is recorded, and the store answers it and moves to
    its next world. *)
Definition send {A : Type} (r : Request)
  (answer : World -> Response A * World) : M World A :=
  fun env =>
    let '(resp, w') := answer (world env) in
    (match resp with
     | inl e => Thrown e
     | inr data => Returned data
     end,
     {| world := w';
        requests := requests env ++ [r];
        console := console env |}).

(** [for (const x of items) { acc = body(x, acc) }] *)
Fixpoint for_of {A S : Type} (items : list A) (acc : S)
  (body : A -> S -> M World S) : M World S :=
  match items with
  | [] => ret acc
  | x :: rest => bind (body x acc) (fun acc' => for_of rest acc' body)
  end.

End Monad.

Declare Scope js_scope.
Delimit Scope js_scope with js.
Notation "x <- m ;; k" := (bind m (fun x => k))
  (at level 61, m at next level, right associativity) : js_scope.
Notation "m ;;; k" := (bind m (fun _ => k))
  (at level 61, right associativity) : js_scope.

End Store.

(* ================================================================== *)
(** * The completion propagator *)

Module Propagator.
Import Js Store.
Open Scope js_scope.

Record Result := {
  processed : Z;
  closed : Z
}.

(** ** The lines written to the console *)

Definition esc : string := String (ascii_of_nat 27) EmptyString.
Definition dquote : string := String (ascii_of_nat 34) EmptyString.

Definition greenOpen : string := esc ++ "[32mʘ" ++ esc ++ "[0m".
Definition purpleClosed : string := esc ++ "[38;2;171;28;232m⊘" ++ esc ++ "[0m".
Definition softOrange : string := esc ++ "[38;2;255;165;80m·" ++ esc ++ "[0m".
Definition bold : string := esc ++ "[1m".
Definition dim : string := esc ++ "[2m".
Definition reset : string := esc ++ "[0m".

Definition issueRef_of (owner repo : option string) (issue_number : Z) : string :=
  of_optional owner ++ "/" ++ of_optional repo ++ "#" ++ of_number issue_number.

Definition statusSymbol_of (issue : Issue) : string :=
  if String.eqb (state issue) "closed" then purpleClosed else greenOpen.

Definition line_issue (indent issueRef : string) (issue : Issue) : string :=
  indent ++ statusSymbol_of issue ++ " " ++ bold ++ issueRef ++ reset ++ " "
  ++ dim ++ "- " ++ dquote ++ title issue ++ dquote ++ reset.

Definition line_already_closed (indent : string) : string :=
  indent ++ "   " ++ softOrange ++ " " ++ dim ++ "Already closed, skipping"
  ++ reset.

Definition line_no_sub_issues (indent : string) : string :=
  indent ++ "   " ++ softOrange ++ " " ++ dim ++ "No sub-issues" ++ reset.

Definition line_summary (indent : string) (s : Summary) : string :=
  indent ++ "   " ++ dim ++ "Sub-issues: " ++ of_number (completed s) ++ "/"
  ++ of_number (total s) ++ " complete (" ++ of_number (percent_completed s)
  ++ "%)" ++ reset.

Definition line_would_close (indent : string) : string :=
  indent ++ "   " ++ greenOpen ++ " → " ++ purpleClosed ++ " " ++ dim
  ++ "Would close (all sub-issues complete)" ++ reset.

Definition line_would_be_closed (issueRef : string) (issue : Issue) : string :=
  purpleClosed ++ " " ++ bold ++ issueRef ++ reset ++ " " ++ dim ++ "- "
  ++ dquote ++ title issue ++ dquote ++ " (would be closed)" ++ reset.

Definition line_closing (indent : string) : string :=
  indent ++ "   " ++ greenOpen ++ " → " ++ purpleClosed ++ " " ++ dim
  ++ "Closing (all sub-issues complete)" ++ reset.

Definition line_closed (issueRef : string) (issue : Issue) : string :=
  purpleClosed ++ " " ++ bold ++ issueRef ++ reset ++ " " ++ dim ++ "- "
  ++ dquote ++ title issue ++ dquote ++ " (closed)" ++ reset.

(** [updatedSummary?.completed || 0] and [updatedSummary?.total || 0] *)
Definition or_zero (field : Summary -> Z) (s : option Summary) : Z :=
  match s with
  | Some u => if field u =? 0 then 0 else field u
  | None => 0
  end.

Definition line_keeping_open (indent : string) (updatedSummary : option Summary)
  : string :=
  indent ++ "   " ++ greenOpen ++ " " ++ dim ++ "Keeping open ("
  ++ of_number (or_zero completed updatedSummary) ++ "/"
  ++ of_number (or_zero total updatedSummary) ++ " sub-issues complete)"
  ++ reset.

(** [updatedSummary && updatedSummary.percent_completed === 100] *)
Definition is_complete (updatedSummary : option Summary) : bool :=
  match updatedSummary with
  | Some u => percent_completed u =? 100
  | None => false
  end.

(** [error.status === 404] *)
Definition status_is (error : JsError) (code : Z) : bool :=
  match status error with
  | Some s => s =? code
  | None => false
  end.

Definition not_found_message (owner repo : option string) (issue_number : Z)
  : string :=
  "Issue #" ++ of_number issue_number ++ " not found in " ++ of_optional owner
  ++ "/" ++ of_optional repo.

Definition closing_comment (reason : string) : string :=
  "🤖 Automatically closed: " ++ reason.

Section Program.
Context {World : Type}.
Variable octokit : Octokit World.

Definition getIssue (owner repo : option string) (issue_number : Z)
  : M World Issue :=
  try_catch
    (send (IssuesGet owner repo issue_number)
       (issues_get octokit owner repo issue_number))
    (fun error =>
       if status_is error 404
       then throw (new_Error (not_found_message owner repo issue_number))
       else throw error).

Definition getSubIssues (owner repo : option string) (issue_number : Z)
  : M World (list SubIssue) :=
  try_catch
    (send (IssuesListSubIssues owner repo issue_number 100)
       (issues_listSubIssues octokit owner repo issue_number 100))
    (fun error => if status_is error 404 then ret [] else throw error).

Definition closeIssue (owner repo : option string) (issue_number : Z)
  (reason : string) : M World unit :=
  send (IssuesUpdate owner repo issue_number "closed" "completed")
    (issues_update octokit owner repo issue_number "closed" "completed") ;;;
  send (IssuesCreateComment owner repo issue_number (closing_comment reason))
    (issues_createComment octokit owner repo issue_number
       (closing_comment reason)).

(** [subIssue.repository_url.split("/").slice(-2, -1)[0]] *)
Definition subOwner_of (subIssue : SubIssue) : option string :=
  first (slice (-2) (-1) (split "/" (repository_url subIssue))).

(** [subIssue.repository_url.split("/").pop()] *)
Definition subRepo_of (subIssue : SubIssue) : option string :=
  pop (split "/" (repository_url subIssue)).

(** The body of the loop over the sub-issues; [self] is the recursive
    call, and the pair is [(totalProcessed, totalClosed)]. *)
Definition visit_subIssue
  (self : option string -> option string -> Z -> nat -> bool -> bool ->
          M World Result)
  (depth : nat) (dryRun verbose : bool) (subIssue : SubIssue) (totals : Z * Z)
  : M World (Z * Z) :=
  let subOwner := subOwner_of subIssue in
  let subRepo := subRepo_of subIssue in
  result <- self subOwner subRepo (number subIssue) (depth + 1)%nat dryRun
              verbose ;;
  ret (fst totals + processed result, snd totals + closed result).

(** [fuel] bounds the depth of the recursion.  [depth] is the number of
    levels above the issue, a natural number: the caller passes 0 and each
    level adds 1 ([String.prototype.repeat] throws on a negative count). *)
Fixpoint processIssueRecursively (fuel : nat) (owner repo : option string)
  (issue_number : Z) (depth : nat) (dryRun verbose : bool) : M World Result :=
  match fuel with
  | O => out_of_fuel
  | S fuel' =>
      let indent := repeat "  " depth in
      issue <- getIssue owner repo issue_number ;;
      let issueRef := issueRef_of owner repo issue_number in
      when verbose (console_log (line_issue indent issueRef issue)) ;;;
      if String.eqb (state issue) "closed" then
        when verbose (console_log (line_already_closed indent)) ;;;
        ret {| processed := 0; closed := 0 |}
      else
        match sub_issues_summary issue with
        | None =>
            when verbose (console_log (line_no_sub_issues indent)) ;;;
            ret {| processed := 1; closed := 0 |}
        | Some subIssueSummary =>
            if total subIssueSummary =? 0 then
              when verbose (console_log (line_no_sub_issues indent)) ;;;
              ret {| processed := 1; closed := 0 |}
            else
              when verbose
                (console_log (line_summary indent subIssueSummary)) ;;;
              subIssues <- getSubIssues owner repo issue_number ;;
              totals <- for_of subIssues (1, 0)
                          (visit_subIssue (processIssueRecursively fuel')
                             depth dryRun verbose) ;;
              let '(totalProcessed, totalClosed) := totals in
              updatedIssue <- getIssue owner repo issue_number ;;
              let updatedSummary := sub_issues_summary updatedIssue in
              if is_complete updatedSummary then
                if dryRun then
                  (if verbose
                   then console_log (line_would_close indent)
                   else console_log (line_would_be_closed issueRef issue)) ;;;
                  ret {| processed := totalProcessed;
                         closed := totalClosed + 1 |}
                else
                  (if verbose
                   then console_log (line_closing indent)
                   else console_log (line_closed issueRef issue)) ;;;
                  closeIssue owner repo issue_number
                    "All sub-issues are now complete" ;;;
                  ret {| processed := totalProcessed;
                         closed := totalClosed + 1 |}
              else
                when verbose
                  (console_log (line_keeping_open indent updatedSummary)) ;;;
                ret {| processed := totalProcessed; closed := totalClosed |}
        end
  end.

End Program.

End Propagator.

(* ================================================================== *)
(** * Stores used as examples *)

Module Fixtures.
Import Js Store Propagator.

Definition start {World : Type} (w : World) : Env World :=
  {| world := w; requests := []; console := [] |}.

Definition not_found : JsError := {| status := Some 404; message := "Not Found" |}.
Definition server_error : JsError :=
  {| status := Some 500; message := "Server Error" |}.

(** A store without state, given by what it answers to the two reads;
    updates and comments always succeed. *)
Definition fixed_store
  (get : option string -> option string -> Z -> Response Issue)
  (list_sub : option string -> option string -> Z -> Z ->
              Response (list SubIssue))
  : Octokit unit :=
  {| issues_get := fun o r n w => (get o r n, w);
     issues_listSubIssues := fun o r n per_page w => (list_sub o r n per_page, w);
     issues_update := fun _ _ _ _ _ w => (inr tt, w);
     issues_createComment := fun _ _ _ _ w => (inr tt, w) |}.

Definition is_repo (owner repo : string) (o r : option string) : bool :=
  match o, r with
  | Some a, Some b => String.eqb a owner && String.eqb b repo
  | _, _ => false
  end.

Definition open_parent (t c p : Z) : Issue :=
  {| title := "Parent"; state := "open";
     sub_issues_summary :=
       Some {| total := t; completed := c; percent_completed := p |} |}.

Definition closed_leaf : Issue :=
  {| title := "Child"; state := "closed"; sub_issues_summary := None |}.

Definition open_leaf : Issue :=
  {| title := "Leaf"; state := "open"; sub_issues_summary := None |}.

(** Root [owner/repo#1], open, summary 1/1 = 100%, with one child
    [owner/repo#2] that is closed and has no summary. *)
Definition one_closed_child : Octokit unit :=
  fixed_store
    (fun o r n =>
       if is_repo "owner" "repo" o r && (n =? 1) then inr (open_parent 1 1 100)
       else if is_repo "owner" "repo" o r && (n =? 2) then inr closed_leaf
       else inl not_found)
    (fun o r n per_page =>
       if is_repo "owner" "repo" o r && (n =? 1)
       then inr [{| number := 2;
                    repository_url := "https://api.github.com/repos/owner/repo" |}]
       else inl not_found).

(** Root [owner/repo#1], open, summary 2/2 = 100%, with two closed
    children [other-owner/other-repo#41] and [#42] in another repository. *)
Definition two_children_elsewhere : Octokit unit :=
  fixed_store
    (fun o r n =>
       if is_repo "owner" "repo" o r && (n =? 1) then inr (open_parent 2 2 100)
       else if is_repo "other-owner" "other-repo" o r && ((n =? 41) || (n =? 42))
       then inr closed_leaf
       else inl not_found)
    (fun o r n per_page =>
       if is_repo "owner" "repo" o r && (n =? 1)
       then inr [{| number := 41;
                    repository_url :=
                      "https://api.github.com/repos/other-owner/other-repo" |};
                 {| number := 42;
                    repository_url :=
                      "https://api.github.com/repos/other-owner/other-repo" |}]
       else inl not_found).

(** A store in which every issue is closed. *)
Definition everything_closed : Octokit unit :=
  fixed_store (fun o r n => inr closed_leaf) (fun o r n per_page => inr []).

(** Root [owner/repo#1], open, summary 2/3 = 66%, with three children:
    [#2] is closed, [#3] is missing, [#4] is an open leaf. *)
Definition second_child_missing : Octokit unit :=
  fixed_store
    (fun o r n =>
       if is_repo "owner" "repo" o r && (n =? 1) then inr (open_parent 3 2 66)
       else if is_repo "owner" "repo" o r && (n =? 2) then inr closed_leaf
       else if is_repo "owner" "repo" o r && (n =? 4) then inr open_leaf
       else inl not_found)
    (fun o r n per_page =>
       if is_repo "owner" "repo" o r && (n =? 1)
       then inr (map
                   (fun k =>
                      {| number := k;
                         repository_url :=
                           "https://api.github.com/repos/owner/repo" |})
                   [2; 3; 4])
       else inl not_found).

(** Root [owner/repo#1], open, summary 1/1 = 100%, whose listing is
    rejected with status 500. *)
Definition listing_fails : Octokit unit :=
  fixed_store
    (fun o r n =>
       if is_repo "owner" "repo" o r && (n =? 1) then inr (open_parent 1 1 100)
       else inl not_found)
    (fun o r n per_page => inl server_error).



(** Root [owner/repo#1], open, summary 1/1 = 100%, whose sub-issue
    [owner/repo#2] is open with the summary 1/1 = 100% and has itself one
    sub-issue [owner/repo#3], closed. *)
Definition three_levels : Octokit unit :=
  fixed_store
    (fun o r n =>
       if is_repo "owner" "repo" o r && ((n =? 1) || (n =? 2))
       then inr (open_parent 1 1 100)
       else if is_repo "owner" "repo" o r && (n =? 3) then inr closed_leaf
       else inl not_found)
    (fun o r n per_page =>
       if is_repo "owner" "repo" o r && ((n =? 1) || (n =? 2))
       then inr [{| number := n + 1;
                    repository_url := "https://api.github.com/repos/owner/repo" |}]
       else inl not_found).

(** [owner/repo#1], open, summary 0/1 = 0%, listed as its own sub-issue. *)
Definition own_sub_issue : Octokit unit :=
  fixed_store
    (fun o r n => inr (open_parent 1 0 0))
    (fun o r n per_page =>
       inr [{| number := 1;
               repository_url := "https://api.github.com/repos/owner/repo" |}]).

End Fixtures.

(* ================================================================== *)
(** * Vocabulary of the statements *)

Module Spec.
Import Js Regex Store Propagator.

(** ** References *)

Fixpoint all_chars (f : ascii -> bool) (s : string) : bool :=
  match s with
  | EmptyString => true
  | String a s' => f a && all_chars f s'
  end.

(** A non-empty run of characters of the class. *)
Definition run_of (cc : charclass) (s : string) : bool :=
  match s with
  | EmptyString => false
  | String _ _ => all_chars (in_class cc) s
  end.

(** The text does not continue the run: it is empty or starts outside the
    class. *)
Definition stops (cc : charclass) (rest : string) : bool :=
  match rest with
  | EmptyString => true
  | String a _ => negb (in_class cc a)
  end.

(** The number written by a run of decimal digits, in positional
    notation. *)
Fixpoint decimal_value (digits : string) : Z :=
  match digits with
  | EmptyString => 0
  | String a rest =>
      (code a - 48) * 10 ^ Z.of_nat (String.length rest) + decimal_value rest
  end.

(** The compact form [<owner>/<repo>#<number>]: the whole string. *)
Definition compact_form (s : string) : Prop :=
  exists ns name digits,
    s = ns ++ "/" ++ name ++ "#" ++ digits
    /\ run_of (NoneOf "/") ns = true
    /\ run_of (NoneOf "#") name = true
    /\ run_of Digit digits = true.

(** The address form: [github.com/<owner>/<repo>/issues/<number>]
    somewhere in the string. *)
Definition address_form (s : string) : Prop :=
  exists pre ns name digits rest,
    s = pre ++ "github.com/" ++ ns ++ "/" ++ name ++ "/issues/" ++ digits
        ++ rest
    /\ run_of (NoneOf "/") ns = true
    /\ run_of (NoneOf "/") name = true
    /\ run_of Digit digits = true.

(** A string that holds the address form after the text [pre]. *)
Definition address (pre ns name digits rest : string) : string :=
  pre ++ "github.com/" ++ ns ++ "/" ++ name ++ "/issues/" ++ digits ++ rest.

(** The address form occurs in [s] after the text [pre], and at no place
    before. *)
Definition first_address (pre s : string) : Prop :=
  forall pre' ns' name' digits' rest',
    s = address pre' ns' name' digits' rest' ->
    run_of (NoneOf "/") ns' = true ->
    run_of (NoneOf "/") name' = true ->
    run_of Digit digits' = true ->
    (String.length pre <= String.length pre')%nat.

(** The pattern matches at no place of the text [pre], which [tail]
    follows. *)
Fixpoint no_match_in (te : bool) (p : list atom) (pre tail : string) : bool :=
  match pre with
  | EmptyString => true
  | String a pre' =>
      match match_here te p (String a (pre' ++ tail)) with
      | Some _ => false
      | None => no_match_in te p pre' tail
      end
  end.

(** ** Runs of the propagator *)

(** The environment once a request has been sent and answered. *)
Definition sent {World : Type} (env : Env World) (r : Request) (w : World)
  : Env World :=
  {| world := w; requests := requests env ++ [r]; console := console env |}.

(** The environment once lines have been written, when [b] holds. *)
Definition logged {World : Type} (b : bool) (lines : list string)
  (env : Env World) : Env World :=
  if b
  then {| world := world env;
          requests := requests env;
          console := console env ++ lines |}
  else env.

(** The environment in which the sub-issues of an open issue with a
    summary are listed: the issue was fetched, which left the store in
    world [w]; the two lines of a verbose run were written. *)
Definition fetched {World : Type} (env : Env World)
  (owner repo : option string) (issue_number : Z) (depth : nat)
  (verbose : bool) (issue : Issue) (s : Summary) (w : World) : Env World :=
  logged verbose [line_summary (repeat "  " depth) s]
    (logged verbose
       [line_issue (repeat "  " depth)
          (issueRef_of owner repo issue_number) issue]
       (sent env (IssuesGet owner repo issue_number) w)).

(** A run ends with the outcome [out], leaves the store in world [w] and
    has sent the requests [reqs], in this order. *)
Definition finishes {World A : Type} (x : Outcome A * Env World)
  (out : Outcome A) (w : World) (reqs : list Request) : Prop :=
  fst x = out /\ world (snd x) = w /\ requests (snd x) = reqs.

(** The updates and comments among some requests. *)
Definition mutations (reqs : list Request) : list Request :=
  filter is_mutation reqs.

(** An issue that is not closed and has the summary [c]/[t] = [p]%. *)
Definition open_with (issue : Issue) (t c p : Z) : Prop :=
  state issue <> "closed"
  /\ sub_issues_summary issue
     = Some {| total := t; completed := c; percent_completed := p |}.

(** The record of a sub-issue places it in the repository [owner]/[repo]:
    its [repository_url] ends with [/owner/repo]. *)
Definition lives_in (subIssue : SubIssue) (owner repo : string) : Prop :=
  exists base,
    repository_url subIssue = base ++ "/" ++ owner ++ "/" ++ repo
    /\ all_chars (in_class (NoneOf "/")) owner = true
    /\ all_chars (in_class (NoneOf "/")) repo = true.

(** Two environments that differ in the console at most. *)
Definition agree {World : Type} (e1 e2 : Env World) : Prop :=
  world e1 = world e2 /\ requests e1 = requests e2.

(** Two runs with the same outcome, the same final world and the same
    requests. *)
Definition same_effects {World A : Type} (x y : Outcome A * Env World)
  : Prop :=
  fst x = fst y /\ agree (snd x) (snd y).

(** Two computations that cannot be told apart but by the console. *)
Definition quiet_equiv {World A : Type} (m1 m2 : M World A) : Prop :=
  forall e1 e2, agree e1 e2 -> same_effects (m1 e1) (m2 e2).

(** [m2] does what [m1] does whenever [m1] has fuel enough. *)
Definition extends {World A : Type} (m1 m2 : M World A) : Prop :=
  forall env, fst (m1 env) <> OutOfFuel -> m2 env = m1 env.

(** A computation that only writes to the console. *)
Definition silent {World : Type} (m : M World unit) : Prop :=
  forall e, exists e', m e = (Returned tt, e') /\ agree e e'.

End Spec.

(* ================================================================== *)
(** * The command line: [parseArgs], [validateNonInteractiveMode] and
      [getToken] *)

Module Cli.
Import Js Store.
Open Scope js_scope.

(** A value that is a string, [null] or [undefined]. *)
Inductive JsValue :=
| Null
| Undefined
| Str (s : string).

(** The value is truthy: a string that is not empty. *)
Definition truthy (v : JsValue) : bool :=
  match v with
  | Str (String _ _) => true
  | _ => false
  end.

(** A variable of [process.env]: a string, or [undefined]. *)
Definition truthy_env (v : option string) : bool :=
  match v with
  | Some (String _ _) => true
  | _ => false
  end.

Record CliArgs := {
  issue : JsValue;
  token : JsValue;
  dryRun : option bool;       (* [None] is [null] *)
  verbose : bool;
  nonInteractive : bool
}.

Definition with_issue (parsed : CliArgs) (v : JsValue) : CliArgs :=
  {| issue := v; token := token parsed; dryRun := dryRun parsed;
     verbose := verbose parsed; nonInteractive := nonInteractive parsed |}.

Definition with_token (parsed : CliArgs) (v : JsValue) : CliArgs :=
  {| issue := issue parsed; token := v; dryRun := dryRun parsed;
     verbose := verbose parsed; nonInteractive := nonInteractive parsed |}.

Definition with_dryRun (parsed : CliArgs) (b : bool) : CliArgs :=
  {| issue := issue parsed; token := token parsed; dryRun := Some b;
     verbose := verbose parsed; nonInteractive := nonInteractive parsed |}.

Definition with_verbose (parsed : CliArgs) : CliArgs :=
  {| issue := issue parsed; token := token parsed; dryRun := dryRun parsed;
     verbose := true; nonInteractive := nonInteractive parsed |}.

Definition with_nonInteractive (parsed : CliArgs) : CliArgs :=
  {| issue := issue parsed; token := token parsed; dryRun := dryRun parsed;
     verbose := verbose parsed; nonInteractive := true |}.

(** [arg === a || arg === b] *)
Definition is_either (a b arg : string) : bool :=
  String.eqb arg a || String.eqb arg b.

(** The loop of [parseArgs] from the argument at index [i], given as the
    arguments from that index on.  [args[++i]] is the next argument, which
    the loop then skips, or [undefined] when there is none. *)
Fixpoint parseArgs_from (args : list string) (parsed : CliArgs) : CliArgs :=
  match args with
  | [] => parsed
  | arg :: rest =>
      if is_either "--issue" "-i" arg then
        match rest with
        | value :: rest' => parseArgs_from rest' (with_issue parsed (Str value))
        | [] => with_issue parsed Undefined
        end
      else if is_either "--token" "-t" arg then
        match rest with
        | value :: rest' => parseArgs_from rest' (with_token parsed (Str value))
        | [] => with_token parsed Undefined
        end
      else if is_either "--dry-run" "-d" arg then
        parseArgs_from rest (with_dryRun parsed true)
      else if is_either "--live" "-l" arg then
        parseArgs_from rest (with_dryRun parsed false)
      else if is_either "--verbose" "-v" arg then
        parseArgs_from rest (with_verbose parsed)
      else if is_either "-y" "--yes" arg then
        parseArgs_from rest (with_nonInteractive parsed)
      else parseArgs_from rest parsed
  end.

Definition no_args : CliArgs :=
  {| issue := Null; token := Null; dryRun := None; verbose := false;
     nonInteractive := false |}.

Definition parseArgs (args : list string) : CliArgs :=
  parseArgs_from args no_args.

Definition missing_token : string :=
  "token (use -t/--token or set GITHUB_TOKEN environment variable)".

Definition missing_issue : string := "issue (use -i/--issue)".

(** [GITHUB_TOKEN] is [process.env.GITHUB_TOKEN]. *)
Definition validateNonInteractiveMode (GITHUB_TOKEN : option string)
  (cliArgs : CliArgs) : list string :=
  let missing := [] in
  let missing :=
    if negb (truthy (token cliArgs)) && negb (truthy_env GITHUB_TOKEN)
    then (missing ++ [missing_token])%list
    else missing in
  let missing :=
    if negb (truthy (issue cliArgs))
    then (missing ++ [missing_issue])%list
    else missing in
  missing.

(** [getToken] of [src/lib/auth.js].  [password] is the prompt of
    [@inquirer/prompts], called with the message and the mask. *)
Definition getToken {World : Type} (GITHUB_TOKEN : option string)
  (password : string -> string -> M World string) : M World string :=
  let envToken := GITHUB_TOKEN in
  match envToken with
  | Some (String a t) =>
      console_log "✓ Using GITHUB_TOKEN from environment" ;;;
      ret (String a t)
  | _ =>
      console_log "No GITHUB_TOKEN environment variable found." ;;;
      password "Please enter your GitHub Personal Access Token:" "*"
  end.

End Cli.

(* ================================================================== *)
(** * Vocabulary of the further statements *)

Module Laws.
Import Js Regex Store Propagator Spec Cli.

(** The argument is one of the two flags that take a value. *)
Definition takes_value (arg : string) : bool :=
  is_either "--issue" "-i" arg || is_either "--token" "-t" arg.

(** The arguments end with a flag that takes a value and has none. *)
Fixpoint dangling (args : list string) : bool :=
  match args with
  | [] => false
  | arg :: rest =>
      if takes_value arg then
        match rest with
        | [] => true
        | _ :: rest' => dangling rest'
        end
      else dangling rest
  end.

(** One of the names occurs among the arguments, at any place. *)
Definition mentions (names args : list string) : bool :=
  existsb (fun arg => existsb (String.eqb arg) names) args.

Definition issue_flags : list string := ["--issue"; "-i"].
Definition token_flags : list string := ["--token"; "-t"].
Definition mode_flags : list string := ["--dry-run"; "-d"; "--live"; "-l"].
Definition verbose_flags : list string := ["--verbose"; "-v"].
Definition yes_flags : list string := ["-y"; "--yes"].

(** What a call may send: fetches, listings of 100, and in a live run the
    closing update and the closing comment. *)
Definition allowed (dryRun : bool) (r : Request) : Prop :=
  match r with
  | IssuesGet _ _ _ => True
  | IssuesListSubIssues _ _ _ per_page => per_page = 100
  | IssuesUpdate _ _ _ st reason =>
      dryRun = false /\ st = "closed" /\ reason = "completed"
  | IssuesCreateComment _ _ _ body =>
      dryRun = false
      /\ body = closing_comment "All sub-issues are now complete"
  end.

(** The two requests that close the issue [k]. *)
Definition closing (k : option string * option string * Z) : list Request :=
  let '(owner, repo, issue_number) := k in
  [IssuesUpdate owner repo issue_number "closed" "completed";
   IssuesCreateComment owner repo issue_number
     (closing_comment "All sub-issues are now complete")].

(** Whatever it does, the computation only adds requests, and each one it
    adds satisfies [ok]. *)
Definition sends_only {World A : Type} (ok : Request -> Prop)
  (m : M World A) : Prop :=
  forall env,
    exists added,
      requests (snd (m env)) = (requests env ++ added)%list
      /\ Forall ok added.

(** The number of listings among some requests. *)
Definition listings (reqs : list Request) : Z :=
  Z.of_nat (List.length (filter is_listing reqs)).

(** The account of a call that returned [res], from [env] to [env']: the
    updates and comments it added are the closing pairs of some issues
    [ks], as many as [closed] counts in a live run and none in a dry run,
    and the closures counted are at most the listings sent, which are at
    most the issues processed. *)
Definition tally {World : Type} (dryRun : bool) (env : Env World)
  (res : Z * Z) (env' : Env World) : Prop :=
  exists added ks,
    requests env' = (requests env ++ added)%list
    /\ mutations added = flat_map closing ks
    /\ Z.of_nat (List.length ks) = (if dryRun then 0 else snd res)
    /\ 0 <= snd res <= listings added
    /\ listings added <= fst res.

(** The number written by decimal digits, most significant first, after
    the number [acc] read so far. *)
Fixpoint uint_value (acc : Z) (d : Decimal.uint) : Z :=
  match d with
  | Decimal.Nil => acc
  | Decimal.D0 l => uint_value (acc * 10 + 0) l
  | Decimal.D1 l => uint_value (acc * 10 + 1) l
  | Decimal.D2 l => uint_value (acc * 10 + 2) l
  | Decimal.D3 l => uint_value (acc * 10 + 3) l
  | Decimal.D4 l => uint_value (acc * 10 + 4) l
  | Decimal.D5 l => uint_value (acc * 10 + 5) l
  | Decimal.D6 l => uint_value (acc * 10 + 6) l
  | Decimal.D7 l => uint_value (acc * 10 + 7) l
  | Decimal.D8 l => uint_value (acc * 10 + 8) l
  | Decimal.D9 l => uint_value (acc * 10 + 9) l
  end.

(** An update that closes an issue, without the comment after it. *)
Definition lone_update (tail : list Request) : Prop :=
  exists owner repo issue_number,
    tail = [IssuesUpdate owner repo issue_number "closed" "completed"].

(** The updates and comments the computation adds are closing pairs, in
    order; only a computation that throws may leave one last update
    without its comment. *)
Definition in_pairs {World A : Type} (m : M World A) : Prop :=
  forall env,
    exists added ks tail,
      requests (snd (m env)) = (requests env ++ added)%list
      /\ mutations added = (flat_map closing ks ++ tail)%list
      /\ (tail = [] \/ lone_update tail /\ exists e, fst (m env) = Thrown e).

(** From [env] to [env'], [n] lines were written to the console. *)
Definition written {World : Type} (env env' : Env World) (n : Z) : Prop :=
  exists lines,
    console env' = (console env ++ lines)%list
    /\ Z.of_nat (List.length lines) = n.

(** The reference of a sub-issue, as the loop computes it. *)
Definition reference_of (subIssue : SubIssue)
  : option string * option string * Z :=
  (subOwner_of subIssue, subRepo_of subIssue, number subIssue).

(** The hierarchy of the store is well founded: whatever its world, the
    sub-issues it lists for an issue have a smaller rank than the issue. *)
Definition rank_decreases {World : Type} (octokit : Octokit World)
  (rank : option string * option string * Z -> nat) : Prop :=
  forall owner repo issue_number w data w',
    issues_listSubIssues octokit owner repo issue_number 100 w
    = (inr data, w') ->
    Forall
      (fun subIssue =>
         (rank (reference_of subIssue) < rank (owner, repo, issue_number))%nat)
      data.

End Laws.

Import Js Regex Resolver Store Propagator Fixtures Spec.

(* ================================================================== *)
(** * Strings and matching *)

Lemma append_assoc (a b c : string) : (a ++ b) ++ c = a ++ (b ++ c).
Proof. induction a as [|x a IH]; simpl; [reflexivity | now rewrite IH]. Qed.

Lemma strip_prefix_append (p s : string) : strip_prefix p (p ++ s) = Some s.
Proof.
  induction p as [|a p IH]; simpl; [reflexivity|].
  now rewrite Ascii.eqb_refl.
Qed.

Lemma strip_prefix_inv (p s s' : string) :
  strip_prefix p s = Some s' -> s = p ++ s'.
Proof.
  revert s; induction p as [|a p IH]; intros s H; simpl in *.
  - now inversion H.
  - destruct s as [|b s]; [discriminate|].
    destruct (Ascii.eqb_spec a b) as [->|]; [|discriminate].
    now rewrite (IH _ H).
Qed.

Lemma strip_prefix_none_append (p x t : string) :
  strip_prefix p x = None -> (String.length p <= String.length x)%nat ->
  strip_prefix p (x ++ t) = None.
Proof.
  revert x; induction p as [|a p IH]; intros x H L; simpl in *.
  - discriminate.
  - destruct x as [|b x]; simpl in *; [lia|].
    destruct (Ascii.eqb a b); [apply IH; [assumption | lia] | reflexivity].
Qed.

Lemma length_append (a b : string) :
  String.length (a ++ b) = (String.length a + String.length b)%nat.
Proof. induction a; simpl; [reflexivity | now rewrite IHa]. Qed.

(** A group takes the whole run when the rest of the pattern matches after
    it. *)
Lemma take_run (cc : charclass) (k : string -> option (list string))
  (g rest : string) (caps : list string) :
  run_of cc g = true -> stops cc rest = true -> k rest = Some caps ->
  take cc k (g ++ rest) = Some (g, caps).
Proof.
  intros Hg Hstop Hk.
  assert (Hnone : take cc k rest = None).
  { destruct rest as [|a r]; simpl in *; [reflexivity|].
    now destruct (in_class cc a). }
  induction g as [|a g IH]; [discriminate|].
  simpl in Hg |- *. apply andb_prop in Hg as [Ha Hall]. rewrite Ha.
  destruct g as [|b g].
  - simpl. now rewrite Hnone, Hk.
  - now rewrite IH.
Qed.

(** What a group took is a run of its class, and the rest of the pattern
    matched after it. *)
Lemma take_inv (cc : charclass) (k : string -> option (list string))
  (s g : string) (caps : list string) :
  take cc k s = Some (g, caps) ->
  exists rest, s = g ++ rest /\ run_of cc g = true /\ k rest = Some caps.
Proof.
  revert g; induction s as [|a s IH]; intros g H; simpl in H; [discriminate|].
  destruct (in_class cc a) eqn:Ha; [|discriminate].
  destruct (take cc k s) as [[g' caps']|] eqn:Ht.
  - inversion H; subst. destruct (IH _ eq_refl) as (rest & -> & Hr & Hk).
    exists rest. repeat split; [|assumption]. simpl. rewrite Ha.
    destruct g'; [discriminate | exact Hr].
  - destruct (k s) as [caps'|] eqn:Hk; [|discriminate].
    inversion H; subst. exists s. repeat split; [|assumption].
    simpl. now rewrite Ha.
Qed.

Lemma search_inv (te : bool) (p : list atom) (s : string) (caps : list string) :
  search te p s = Some caps ->
  exists pre s', s = pre ++ s' /\ match_here te p s' = Some caps.
Proof.
  induction s as [|a s IH]; simpl; intros H.
  - destruct (match_here te p "") eqn:E; [|discriminate].
    inversion H; subst. now exists "", "".
  - destruct (match_here te p (String a s)) eqn:E.
    + inversion H; subst. now exists "", (String a s).
    + destruct (IH H) as (pre & s' & -> & Hm).
      now exists (String a pre), s'.
Qed.

Lemma search_here (te : bool) (p : list atom) (s : string) (caps : list string) :
  match_here te p s = Some caps -> search te p s = Some caps.
Proof. intros H. destruct s; simpl; now rewrite H. Qed.

Lemma append_empty_r (s : string) : s ++ "" = s.
Proof. induction s; simpl; [reflexivity | now rewrite IHs]. Qed.

Lemma take_run_end (cc : charclass) (k : string -> option (list string))
  (g : string) (caps : list string) :
  run_of cc g = true -> k "" = Some caps -> take cc k g = Some (g, caps).
Proof.
  intros Hg Hk. rewrite <- (append_empty_r g) at 1.
  now apply take_run.
Qed.

(** ** [parseInt] on a run of digits *)

Lemma digit_in_decimal (a : ascii) :
  is_digit a = true -> digit_in 10 a = Some (code a - 48).
Proof.
  unfold is_digit, digit_in. intros H. rewrite H.
  apply andb_prop in H as [H1 H2].
  apply Z.leb_le in H1. apply Z.leb_le in H2.
  destruct (Z.ltb_spec (code a - 48) 10); [reflexivity | lia].
Qed.

Lemma read_digits_decimal (s : string) (acc : Z) :
  all_chars is_digit s = true ->
  read_digits 10 (Some acc) s
  = Some (acc * 10 ^ Z.of_nat (String.length s) + decimal_value s).
Proof.
  revert acc; induction s as [|a s IH]; intros acc H; simpl in H.
  - simpl. f_equal. lia.
  - apply andb_prop in H as [Ha Hs].
    cbn [read_digits]. rewrite (digit_in_decimal a Ha), (IH _ Hs).
    f_equal. cbn [decimal_value String.length].
    rewrite Nat2Z.inj_succ, Z.pow_succ_r by lia. ring.
Qed.

Lemma digit_is_no_space (a : ascii) : is_digit a = true -> is_space a = false.
Proof.
  unfold is_digit, is_space. intros H.
  apply andb_prop in H as [H1 H2].
  apply Z.leb_le in H1. apply Z.leb_le in H2.
  destruct (Z.eqb_spec (code a) 32); [lia|].
  destruct (Z.leb_spec 9 (code a)), (Z.leb_spec (code a) 13);
    simpl; try reflexivity; lia.
Qed.

Lemma digit_is_not (a c : ascii) :
  is_digit a = true -> is_digit c = false -> Ascii.eqb a c = false.
Proof.
  intros Ha Hc. destruct (Ascii.eqb_spec a c); [congruence | reflexivity].
Qed.

Lemma parseInt_digits (digits : string) :
  run_of Digit digits = true ->
  parseInt digits = to_Number (decimal_value digits).
Proof.
  destruct digits as [|a r]; [discriminate|].
  cbn [run_of all_chars in_class]. intros H.
  apply andb_prop in H as [Ha Hr].
  unfold parseInt. cbn [trim_start]. rewrite (digit_is_no_space a Ha).
  rewrite (digit_is_not a "-" Ha eq_refl), (digit_is_not a "+" Ha eq_refl).
  assert (Hradix :
    match String a r with
    | String a0 (String b r0) =>
        if Ascii.eqb a0 "0" && (Ascii.eqb b "x" || Ascii.eqb b "X")
        then (16, r0) else (10, String a r)
    | _ => (10, String a r)
    end = (10, String a r)).
  { destruct r as [|b r']; [reflexivity|].
    simpl in Hr. apply andb_prop in Hr as [Hb _].
    rewrite (digit_is_not b "x" Hb eq_refl), (digit_is_not b "X" Hb eq_refl).
    now rewrite andb_false_r. }
  rewrite Hradix. cbn [read_digits]. rewrite (digit_in_decimal a Ha).
  rewrite (read_digits_decimal r _ Hr). cbn [decimal_value].
  f_equal. lia.
Qed.

(** ** The two patterns *)

Lemma match_here_lit (te : bool) (text : string) (p : list atom) (s : string) :
  match_here te (Lit text :: p) (text ++ s) = match_here te p s.
Proof. cbn [match_here]. now rewrite strip_prefix_append. Qed.

Lemma match_here_group (te : bool) (cc : charclass) (p : list atom)
  (g rest : string) (caps : list string) :
  run_of cc g = true -> stops cc rest = true ->
  match_here te p rest = Some caps ->
  match_here te (Group cc :: p) (g ++ rest) = Some (g :: caps).
Proof.
  intros Hg Hs Hk. cbn [match_here].
  now rewrite (take_run cc _ g rest caps).
Qed.

Lemma match_here_group_end (te : bool) (cc : charclass) (g : string) :
  run_of cc g = true -> match_here te [Group cc] g = Some [g].
Proof.
  intros Hg. cbn [match_here].
  rewrite (take_run_end cc _ g []); [reflexivity | assumption |].
  now destruct te.
Qed.

Lemma short_match_complete (ns name digits : string) :
  run_of (NoneOf "/") ns = true -> run_of (NoneOf "#") name = true ->
  run_of Digit digits = true ->
  str_match (ns ++ "/" ++ name ++ "#" ++ digits) shortPattern
  = Some [ns; name; digits].
Proof.
  intros Hns Hname Hd.
  unfold str_match, shortPattern. cbn [from_start atoms to_end].
  apply match_here_group; [assumption | reflexivity |].
  rewrite match_here_lit.
  apply match_here_group; [assumption | reflexivity |].
  rewrite match_here_lit.
  now apply match_here_group_end.
Qed.

Lemma short_match_sound (s : string) (caps : list string) :
  str_match s shortPattern = Some caps ->
  exists ns name digits,
    caps = [ns; name; digits]
    /\ s = ns ++ "/" ++ name ++ "#" ++ digits
    /\ run_of (NoneOf "/") ns = true
    /\ run_of (NoneOf "#") name = true
    /\ run_of Digit digits = true.
Proof.
  unfold str_match, shortPattern. cbn [from_start atoms to_end match_here].
  intros H.
  destruct (take (NoneOf "/") _ s) as [[ns caps1]|] eqn:T1; [|discriminate].
  inversion H; subst caps; clear H.
  apply take_inv in T1 as (r1 & -> & Hns & K1).
  destruct (strip_prefix "/" r1) as [r1'|] eqn:P1; [|discriminate].
  apply strip_prefix_inv in P1 as ->.
  destruct (take (NoneOf "#") _ r1') as [[name caps2]|] eqn:T2; [|discriminate].
  inversion K1; subst caps1; clear K1.
  apply take_inv in T2 as (r2 & -> & Hname & K2).
  destruct (strip_prefix "#" r2) as [r2'|] eqn:P2; [|discriminate].
  apply strip_prefix_inv in P2 as ->.
  destruct (take Digit _ r2') as [[digits caps3]|] eqn:T3; [|discriminate].
  inversion K2; subst caps2; clear K2.
  apply take_inv in T3 as (r3 & -> & Hd & K3).
  destruct r3; [|discriminate]. inversion K3; subst caps3.
  exists ns, name, digits. rewrite append_empty_r. now repeat split.
Qed.

Lemma url_match_here (ns name digits rest : string) :
  run_of (NoneOf "/") ns = true -> run_of (NoneOf "/") name = true ->
  run_of Digit digits = true -> stops Digit rest = true ->
  match_here false (atoms urlPattern)
    ("github.com/" ++ ns ++ "/" ++ name ++ "/issues/" ++ digits ++ rest)
  = Some [ns; name; digits].
Proof.
  intros Hns Hname Hd Hrest.
  unfold urlPattern. cbn [atoms].
  rewrite match_here_lit.
  apply match_here_group; [assumption | reflexivity |].
  rewrite match_here_lit.
  apply match_here_group; [assumption | reflexivity |].
  rewrite match_here_lit.
  now apply match_here_group.
Qed.

Lemma url_match_sound (s : string) (caps : list string) :
  str_match s urlPattern = Some caps -> address_form s.
Proof.
  unfold str_match, urlPattern. cbn [from_start atoms to_end].
  intros H. apply search_inv in H as (pre & s' & -> & H).
  cbn [match_here] in H.
  destruct (strip_prefix "github.com/" s') as [r0|] eqn:P0; [|discriminate].
  apply strip_prefix_inv in P0 as ->.
  destruct (take (NoneOf "/") _ r0) as [[ns caps1]|] eqn:T1; [|discriminate].
  apply take_inv in T1 as (r1 & -> & Hns & K1).
  destruct (strip_prefix "/" r1) as [r1'|] eqn:P1; [|discriminate].
  apply strip_prefix_inv in P1 as ->.
  destruct (take (NoneOf "/") _ r1') as [[name caps2]|] eqn:T2; [|discriminate].
  apply take_inv in T2 as (r2 & -> & Hname & K2).
  destruct (strip_prefix "/issues/" r2) as [r2'|] eqn:P2; [|discriminate].
  apply strip_prefix_inv in P2 as ->.
  destruct (take Digit _ r2') as [[digits caps3]|] eqn:T3; [|discriminate].
  apply take_inv in T3 as (r3 & -> & Hd & K3).
  exists pre, ns, name, digits, r3. now repeat split.
Qed.

(** The compact pattern matches exactly the strings of the compact
    form. *)
Lemma compact_form_iff (s : string) :
  compact_form s <-> str_match s shortPattern <> None.
Proof.
  split.
  - intros (ns & name & digits & -> & Hns & Hname & Hd).
    now rewrite short_match_complete.
  - destruct (str_match s shortPattern) as [caps|] eqn:E; [|congruence].
    intros _. apply short_match_sound in E
      as (ns & name & digits & _ & -> & Hns & Hname & Hd).
    now exists ns, name, digits.
Qed.

Lemma search_some (te : bool) (p : list atom) (pre s : string)
  (caps : list string) :
  match_here te p s = Some caps -> search te p (pre ++ s) <> None.
Proof.
  intros H. induction pre as [|a pre IH].
  - simpl. now rewrite (search_here _ _ _ _ H).
  - change (String a pre ++ s) with (String a (pre ++ s)). cbn [search].
    now destruct (match_here te p (String a (pre ++ s))).
Qed.

Lemma all_chars_append (f : ascii -> bool) (x y : string) :
  all_chars f (x ++ y) = all_chars f x && all_chars f y.
Proof.
  induction x as [|a x IH]; simpl; [reflexivity|].
  now rewrite IH, andb_assoc.
Qed.

(** The digits at the start of a text, up to the first character that is
    not one. *)
Lemma longest_digits (d rest : string) :
  run_of Digit d = true ->
  exists d' rest',
    d ++ rest = d' ++ rest' /\ run_of Digit d' = true
    /\ stops Digit rest' = true.
Proof.
  revert d; induction rest as [|a r IH]; intros d Hd.
  - now exists d, "".
  - destruct (is_digit a) eqn:Ha.
    + destruct (IH (d ++ String a "")) as (d' & rest' & E & Hd' & Hs).
      * destruct d as [|b d]; [discriminate|].
        cbn [run_of append] in Hd |- *.
        change (String b (d ++ String a ""))
          with (String b d ++ String a "").
        rewrite all_chars_append, Hd. simpl. now rewrite Ha.
      * exists d', rest'. rewrite <- E, append_assoc. now repeat split.
    + exists d, (String a r). repeat split; [assumption|].
      simpl. now rewrite Ha.
Qed.

(** The address pattern matches exactly the strings that hold the address
    form. *)
Lemma address_form_iff (s : string) :
  address_form s <-> str_match s urlPattern <> None.
Proof.
  split.
  - intros (pre & ns & name & digits & rest & -> & Hns & Hname & Hd).
    destruct (longest_digits digits rest Hd) as (d' & rest' & E & Hd' & Hs).
    rewrite E. unfold str_match. cbn [from_start to_end urlPattern].
    apply (search_some false _ pre _ [ns; name; d']).
    now apply url_match_here.
  - destruct (str_match s urlPattern) as [caps|] eqn:E; [|congruence].
    intros _. now apply url_match_sound in E.
Qed.

(* ================================================================== *)
(** * Numbers read from digits *)

Lemma to_Number_exact (n : Z) : Z.abs n < 2 ^ 53 -> to_Number n = Int n.
Proof.
  intros H. unfold to_Number.
  destruct (Z.ltb_spec (Z.abs n) (2 ^ 53)); [reflexivity | lia].
Qed.

Lemma digit_code (a : ascii) : is_digit a = true -> 0 <= code a - 48 <= 9.
Proof. unfold is_digit. intros H. apply andb_prop in H as [L U]. lia. Qed.

Lemma decimal_value_nonneg (digits : string) :
  all_chars is_digit digits = true -> 0 <= decimal_value digits.
Proof.
  induction digits as [|a digits IH]; cbn [all_chars decimal_value];
    [lia|].
  intros H. apply andb_prop in H as [Ha Hd].
  pose proof (digit_code a Ha). specialize (IH Hd).
  assert (0 <= 10 ^ Z.of_nat (String.length digits)) by (apply Z.pow_nonneg; lia).
  nia.
Qed.

Lemma run_of_digits (digits : string) :
  run_of Digit digits = true -> all_chars is_digit digits = true.
Proof. destruct digits; [discriminate | intros H; exact H]. Qed.

(** The number read from digits that write less than [2^53] is the number
    they write. *)
Lemma exact_below_2_53 (digits : string) :
  run_of Digit digits = true ->
  decimal_value digits < 2 ^ 53 ->
  to_Number (decimal_value digits) = Int (decimal_value digits).
Proof.
  intros Hd Hv. apply to_Number_exact.
  pose proof (decimal_value_nonneg digits (run_of_digits digits Hd)). lia.
Qed.

(* ================================================================== *)
(** * The place where the address pattern matches *)

Lemma search_skip (te : bool) (p : list atom) (pre tail : string) :
  no_match_in te p pre tail = true ->
  search te p (pre ++ tail) = search te p tail.
Proof.
  induction pre as [|a pre IH]; intros H; [reflexivity|].
  cbn [no_match_in] in H.
  change (String a pre ++ tail) with (String a (pre ++ tail)).
  cbn [search].
  destruct (match_here te p (String a (pre ++ tail))); [discriminate|].
  now apply IH.
Qed.

Lemma search_position (te : bool) (p : list atom) (s : string)
  (caps : list string) :
  search te p s = Some caps ->
  exists pre tail,
    s = pre ++ tail /\ match_here te p tail = Some caps
    /\ no_match_in te p pre tail = true.
Proof.
  induction s as [|a s IH]; cbn [search]; intros H.
  - destruct (match_here te p "") eqn:E; [|discriminate].
    inversion H; subst. now exists "", "".
  - destruct (match_here te p (String a s)) eqn:E.
    + inversion H; subst. now exists "", (String a s).
    + destruct (IH H) as (pre & tail & -> & Hm & Hn).
      exists (String a pre), tail. repeat split; [assumption|].
      cbn [no_match_in]. now rewrite E.
Qed.

Lemma append_cancel (g x y : string) : g ++ x = g ++ y -> x = y.
Proof.
  induction g as [|a g IH]; cbn [append]; intros H; [exact H|].
  inversion H. now apply IH.
Qed.

(** A group followed by a pattern that always matches takes the whole
    run. *)
Lemma take_stops (cc : charclass) (k : string -> option (list string))
  (s g : string) (caps : list string) :
  (forall t, k t <> None) ->
  take cc k s = Some (g, caps) ->
  exists rest, s = g ++ rest /\ stops cc rest = true.
Proof.
  intros Hk. revert g; induction s as [|a s IH]; intros g H;
    cbn [take] in H; [discriminate|].
  destruct (in_class cc a) eqn:Ha; [|discriminate].
  destruct (take cc k s) as [[g' caps']|] eqn:Ht.
  - inversion H; subst. destruct (IH _ eq_refl) as (rest & -> & Hs).
    now exists rest.
  - destruct (k s) as [caps'|] eqn:Ek; [|discriminate].
    inversion H; subst. exists s. split; [reflexivity|].
    destruct s as [|b s']; [reflexivity|]. cbn [stops].
    destruct (in_class cc b) eqn:Hb; [|reflexivity].
    exfalso. cbn [take] in Ht. rewrite Hb in Ht.
    destruct (take cc k s') as [[g'' c'']|]; [discriminate|].
    destruct (k s') eqn:Ek'; [discriminate|]. now apply (Hk s').
Qed.

(** What the address pattern matches at the start of a text. *)
Lemma url_match_here_inv (t : string) (caps : list string) :
  match_here false (atoms urlPattern) t = Some caps ->
  exists ns name digits rest,
    caps = [ns; name; digits]
    /\ t = address "" ns name digits rest
    /\ run_of (NoneOf "/") ns = true
    /\ run_of (NoneOf "/") name = true
    /\ run_of Digit digits = true
    /\ stops Digit rest = true.
Proof.
  unfold urlPattern. cbn [atoms match_here]. intros H.
  destruct (strip_prefix "github.com/" t) as [r0|] eqn:P0; [|discriminate].
  apply strip_prefix_inv in P0 as ->.
  destruct (take (NoneOf "/") _ r0) as [[ns caps1]|] eqn:T1; [|discriminate].
  inversion H; subst caps; clear H.
  apply take_inv in T1 as (r1 & -> & Hns & K1).
  destruct (strip_prefix "/" r1) as [r1'|] eqn:P1; [|discriminate].
  apply strip_prefix_inv in P1 as ->.
  destruct (take (NoneOf "/") _ r1') as [[name caps2]|] eqn:T2; [|discriminate].
  inversion K1; subst caps1; clear K1.
  apply take_inv in T2 as (r2 & -> & Hname & K2).
  destruct (strip_prefix "/issues/" r2) as [r2'|] eqn:P2; [|discriminate].
  apply strip_prefix_inv in P2 as ->.
  destruct (take Digit _ r2') as [[digits caps3]|] eqn:T3; [|discriminate].
  inversion K2; subst caps2; clear K2.
  pose proof T3 as T3'.
  apply take_inv in T3 as (r3 & -> & Hd & K3).
  apply take_stops in T3' as (r3' & E & Hs); [|discriminate].
  apply append_cancel in E. subst r3'.
  inversion K3; subst caps3.
  exists ns, name, digits, r3. now repeat split.
Qed.

(** The address pattern matches wherever the address form starts. *)
Lemma url_match_here_some (ns name digits rest : string) :
  run_of (NoneOf "/") ns = true -> run_of (NoneOf "/") name = true ->
  run_of Digit digits = true ->
  match_here false (atoms urlPattern) (address "" ns name digits rest)
  <> None.
Proof.
  intros Hns Hname Hd M.
  destruct (longest_digits digits rest Hd) as (d' & rest' & E & Hd' & Hs).
  pose proof (url_match_here ns name d' rest' Hns Hname Hd' Hs) as U.
  rewrite <- E in U. unfold address in M.
  change ("" ++ "github.com/" ++ ns ++ "/" ++ name ++ "/issues/" ++ digits
          ++ rest)
    with ("github.com/" ++ ns ++ "/" ++ name ++ "/issues/" ++ digits ++ rest)
    in M.
  rewrite U in M. discriminate M.
Qed.

Lemma first_address_tail (a : ascii) (pre t : string) :
  first_address (String a pre) (String a t) -> first_address pre t.
Proof.
  intros F pre' ns' name' digits' rest' E Hns Hname Hd.
  specialize (F (String a pre') ns' name' digits' rest').
  cbn [String.length] in F. apply le_S_n. apply F; try assumption.
  unfold address in *. cbn [append]. now rewrite E.
Qed.

Lemma first_address_no_match (pre tail : string) :
  first_address pre (pre ++ tail) ->
  no_match_in false (atoms urlPattern) pre tail = true.
Proof.
  induction pre as [|a pre IH]; intros F; [reflexivity|].
  cbn [no_match_in].
  destruct (match_here false (atoms urlPattern) (String a (pre ++ tail)))
    as [caps|] eqn:E.
  - exfalso. apply url_match_here_inv in E
      as (ns & name & digits & rest & _ & E & Hns & Hname & Hd & _).
    specialize (F "" ns name digits rest E Hns Hname Hd).
    cbn [String.length] in F. lia.
  - apply IH. now apply (first_address_tail a).
Qed.

Lemma no_match_first_address (pre tail : string) :
  no_match_in false (atoms urlPattern) pre tail = true ->
  first_address pre (pre ++ tail).
Proof.
  induction pre as [|a pre IH]; intros N pre' ns' name' digits' rest' E
    Hns Hname Hd; cbn [String.length]; [lia|].
  cbn [no_match_in] in N.
  destruct (match_here false (atoms urlPattern) (String a (pre ++ tail)))
    as [caps|] eqn:M; [discriminate|].
  destruct pre' as [|b pre'].
  - exfalso. change (String a pre ++ tail) with (String a (pre ++ tail)) in E.
    rewrite E in M. now apply (url_match_here_some ns' name' digits' rest').
  - cbn [String.length]. apply le_n_S.
    apply (IH N pre' ns' name' digits' rest'); try assumption.
    unfold address in *. cbn [append] in E. now inversion E.
Qed.

(* ================================================================== *)
(** * The reference resolver *)

(** C6, as the code has it.  A compact reference [ns/name#digits] --
    [ns] a non-empty run without slash (a hash in it changes nothing),
    [name] a non-empty run without hash, which may hold slashes, [digits]
    a non-empty run of decimal digits, zero included -- resolves to the
    owner [ns], the repository [name] and the Number nearest to the number
    written by the digits; this is that number itself, as a number and not
    as a string, whenever it is below [2^53].  A string that has neither
    the compact form nor the address form resolves to [None]; the function
    is total, so it never throws. *)
Theorem parseIssueInput_compact_or_null (ns name digits s : string) :
  (run_of (NoneOf "/") ns = true ->
   run_of (NoneOf "#") name = true ->
   run_of Digit digits = true ->
   parseIssueInput (ns ++ "/" ++ name ++ "#" ++ digits)
   = Some {| owner := ns; repo := name;
             issue_number := to_Number (decimal_value digits) |}
   /\ (decimal_value digits < 2 ^ 53 ->
       to_Number (decimal_value digits) = Int (decimal_value digits)))
  /\ (~ compact_form s -> ~ address_form s -> parseIssueInput s = None).
Proof.
  split.
  - intros Hns Hname Hd. split; [|now apply exact_below_2_53].
    unfold parseIssueInput.
    rewrite short_match_complete by assumption.
    unfold group; cbn [Nat.pred nth].
    now rewrite parseInt_digits.
  - intros Hc Ha. unfold parseIssueInput.
    destruct (str_match s shortPattern) eqn:E1.
    { exfalso. apply Hc, compact_form_iff. congruence. }
    destruct (str_match s urlPattern) eqn:E2; [|reflexivity].
    exfalso. apply Ha, address_form_iff. congruence.
Qed.

Lemma parseIssueInput_compact_or_null_witness :
  (parseIssueInput "owner/repo#0"
   = Some {| owner := "owner"; repo := "repo"; issue_number := Int 0 |}
   /\ to_Number 9007199254740991 = Int 9007199254740991)
  /\ parseIssueInput "owner#123" = None.
Proof.
  split.
  - split.
    + exact (proj1 (proj1 (parseIssueInput_compact_or_null "owner" "repo"
                             "0" "")
                      eq_refl eq_refl eq_refl)).
    + exact (proj2 (proj1 (parseIssueInput_compact_or_null "owner" "repo"
                             "9007199254740991" "")
                      eq_refl eq_refl eq_refl) eq_refl).
  - apply (proj2 (parseIssueInput_compact_or_null "" "" "" "owner#123")).
    + intros H. apply compact_form_iff in H. now apply H.
    + intros H. apply address_form_iff in H. now apply H.
Defined.

(** C6 as stated fails: the number resolved is not always the number
    written.  Beyond [2^53] it is the nearest Number, and digits that
    write [1.8e308] or more give [Infinity]. *)
Lemma compact_reference_beyond_2_53 :
  parseIssueInput "owner/repo#9007199254740993"
  = Some {| owner := "owner"; repo := "repo";
            issue_number := Int 9007199254740992 |}
  /\ parseIssueInput ("owner/repo#" ++ repeat "9" 400)
     = Some {| owner := "owner"; repo := "repo";
               issue_number := Infinity false |}.
Proof. split; vm_compute; reflexivity. Qed.

(** The converse of the second half: only those strings resolve to
    [None]. *)
Lemma parseIssueInput_null_inv (s : string) :
  parseIssueInput s = None -> ~ compact_form s /\ ~ address_form s.
Proof.
  unfold parseIssueInput. intros H.
  destruct (str_match s shortPattern) eqn:E1; [discriminate|].
  destruct (str_match s urlPattern) eqn:E2; [discriminate|].
  split; intros F.
  - now apply compact_form_iff in F.
  - now apply address_form_iff in F.
Qed.

(** C7, as the code has it.  The address pattern needs the host text
    [github.com/] before the path [<ns>/<name>/issues/<digits>].  At the
    first place where a string holds this form -- after any text [pre]:
    nothing, [http://], [https://] or anything else -- with [ns] and
    [name] non-empty runs without slash and [digits] the whole run of
    digits, and when the string is not itself a compact reference (that
    form is tried first), the reference resolved is [ns], [name] and the
    Number nearest to the number written by [digits], which is that number
    itself below [2^53].  Every string that holds the form and is no
    compact reference is resolved so, from its first such place. *)
Theorem parseIssueInput_address (pre ns name digits rest s : string) :
  (run_of (NoneOf "/") ns = true ->
   run_of (NoneOf "/") name = true ->
   run_of Digit digits = true ->
   stops Digit rest = true ->
   first_address pre (address pre ns name digits rest) ->
   ~ compact_form (address pre ns name digits rest) ->
   parseIssueInput (address pre ns name digits rest)
   = Some {| owner := ns; repo := name;
             issue_number := to_Number (decimal_value digits) |}
   /\ (decimal_value digits < 2 ^ 53 ->
       to_Number (decimal_value digits) = Int (decimal_value digits)))
  /\ (address_form s -> ~ compact_form s ->
      exists pre' ns' name' digits' rest',
        s = address pre' ns' name' digits' rest'
        /\ run_of (NoneOf "/") ns' = true
        /\ run_of (NoneOf "/") name' = true
        /\ run_of Digit digits' = true
        /\ stops Digit rest' = true
        /\ first_address pre' s
        /\ parseIssueInput s
           = Some {| owner := ns'; repo := name';
                     issue_number := to_Number (decimal_value digits') |}).
Proof.
  split.
  - intros Hns Hname Hd Hrest Hfirst Hc.
    split; [|now apply exact_below_2_53].
    unfold parseIssueInput.
    destruct (str_match (address pre ns name digits rest) shortPattern) eqn:E1.
    { exfalso. apply Hc, compact_form_iff. congruence. }
    unfold str_match. cbn [from_start to_end urlPattern].
    change [Lit "github.com/"; Group (NoneOf "/"); Lit "/";
            Group (NoneOf "/"); Lit "/issues/"; Group Digit]
      with (atoms urlPattern).
    change (address pre ns name digits rest)
      with (pre ++ "github.com/" ++ ns ++ "/" ++ name ++ "/issues/"
            ++ digits ++ rest) in Hfirst |- *.
    rewrite (search_skip _ _ _ _ (first_address_no_match _ _ Hfirst)).
    rewrite (search_here _ _ _ _
               (url_match_here ns name digits rest Hns Hname Hd Hrest)).
    unfold group; cbn [Nat.pred nth]. now rewrite parseInt_digits.
  - intros Ha Hc. unfold parseIssueInput.
    destruct (str_match s shortPattern) eqn:E1.
    { exfalso. apply Hc, compact_form_iff. congruence. }
    apply address_form_iff in Ha.
    destruct (str_match s urlPattern) as [caps|] eqn:E2; [|contradiction].
    unfold str_match in E2. cbn [from_start to_end urlPattern] in E2.
    change [Lit "github.com/"; Group (NoneOf "/"); Lit "/";
            Group (NoneOf "/"); Lit "/issues/"; Group Digit]
      with (atoms urlPattern) in E2.
    apply search_position in E2 as (pre' & tail & -> & Hm & Hn).
    apply url_match_here_inv in Hm
      as (ns' & name' & digits' & rest' & -> & -> & Hns & Hname & Hd & Hs).
    exists pre', ns', name', digits', rest'.
    repeat split; try assumption.
    + now apply no_match_first_address.
    + unfold group; cbn [Nat.pred nth]. now rewrite parseInt_digits.
Qed.

Lemma parseIssueInput_address_witness :
  parseIssueInput "https://github.com/owner/repo/issues/42"
  = Some {| owner := "owner"; repo := "repo"; issue_number := Int 42 |}
  /\ parseIssueInput "http://github.com/owner/repo/issues/42"
     = parseIssueInput "https://github.com/owner/repo/issues/42"
  /\ parseIssueInput "github.com/owner/repo/issues/42"
     = parseIssueInput "https://github.com/owner/repo/issues/42"
  /\ parseIssueInput "see github.com/ or github.com/owner/repo/issues/42"
     = parseIssueInput "https://github.com/owner/repo/issues/42".
Proof.
  assert (H : forall pre,
             no_match_in false (atoms urlPattern) pre
               "github.com/owner/repo/issues/42" = true ->
             str_match (address pre "owner" "repo" "42" "") shortPattern = None ->
             parseIssueInput (address pre "owner" "repo" "42" "")
             = Some {| owner := "owner"; repo := "repo";
                       issue_number := Int 42 |}).
  { intros pre Hn Hs.
    apply (proj1 (parseIssueInput_address pre "owner" "repo" "42" "" "")
             eq_refl eq_refl eq_refl eq_refl).
    - exact (no_match_first_address pre _ Hn).
    - intros F. now apply compact_form_iff in F. }
  pose proof (H "https://" eq_refl eq_refl) as H1.
  pose proof (H "http://" eq_refl eq_refl) as H2.
  pose proof (H "" eq_refl eq_refl) as H3.
  pose proof (H "see github.com/ or " eq_refl eq_refl) as H4.
  split; [exact H1|]. split; [exact (eq_trans H2 (eq_sym H1))|]. split.
  - exact (eq_trans H3 (eq_sym H1)).
  - exact (eq_trans H4 (eq_sym H1)).
Defined.

(** The compact pattern is tried first: an address followed by [#digits]
    is read as a compact reference. *)
Example compact_form_comes_first :
  parseIssueInput "github.com/owner/repo/issues/5#1"
  = Some {| owner := "github.com"; repo := "owner/repo/issues/5";
            issue_number := Int 1 |}.
Proof. reflexivity. Qed.

(** C7 as stated fails: the path [/<ns>/<name>/issues/<id>] (or [items])
    after another host is not resolved. *)
Lemma parseIssueInput_other_host :
  parseIssueInput "https://example.com/owner/repo/issues/42" = None
  /\ parseIssueInput "https://example.com/owner/repo/items/42" = None.
Proof. split; reflexivity. Qed.

(* ================================================================== *)
(** * The monad and the requests *)

Section Effects.
Context {World : Type}.
Variable octokit : Octokit World.

Lemma bind_returned {A B : Type} (m : M World A) (k : A -> M World B)
  (env env' : Env World) (a : A) :
  m env = (Returned a, env') -> bind m k env = k a env'.
Proof. intros H. unfold bind. now rewrite H. Qed.

Lemma bind_thrown {A B : Type} (m : M World A) (k : A -> M World B)
  (env env' : Env World) (e : JsError) :
  m env = (Thrown e, env') -> bind m k env = (Thrown e, env').
Proof. intros H. unfold bind. now rewrite H. Qed.


Lemma when_log (b : bool) (line : string) (env : Env World) :
  when b (console_log line) env = (Returned tt, logged b [line] env).
Proof. now destruct b. Qed.

Lemma log_either (b : bool) (l1 l2 : string) (env : Env World) :
  (if b then console_log l1 else console_log l2) env
  = (Returned tt, logged true [if b then l1 else l2] env).
Proof. now destruct b. Qed.

Lemma world_logged (b : bool) (lines : list string) (env : Env World) :
  world (logged b lines env) = world env.
Proof. now destruct b. Qed.

Lemma requests_logged (b : bool) (lines : list string) (env : Env World) :
  requests (logged b lines env) = requests env.
Proof. now destruct b. Qed.

Lemma getIssue_resolved (owner repo : option string) (issue_number : Z)
  (env : Env World) (issue : Issue) (w : World) :
  issues_get octokit owner repo issue_number (world env) = (inr issue, w) ->
  getIssue octokit owner repo issue_number env
  = (Returned issue, sent env (IssuesGet owner repo issue_number) w).
Proof. intros H. unfold getIssue, try_catch, send. now rewrite H. Qed.

Lemma getIssue_not_found (owner repo : option string) (issue_number : Z)
  (env : Env World) (e : JsError) (w : World) :
  issues_get octokit owner repo issue_number (world env) = (inl e, w) ->
  status_is e 404 = true ->
  getIssue octokit owner repo issue_number env
  = (Thrown (new_Error (not_found_message owner repo issue_number)),
     sent env (IssuesGet owner repo issue_number) w).
Proof. intros H S. unfold getIssue, try_catch, send. now rewrite H, S. Qed.

Lemma getIssue_rejected (owner repo : option string) (issue_number : Z)
  (env : Env World) (e : JsError) (w : World) :
  issues_get octokit owner repo issue_number (world env) = (inl e, w) ->
  status_is e 404 = false ->
  getIssue octokit owner repo issue_number env
  = (Thrown e, sent env (IssuesGet owner repo issue_number) w).
Proof. intros H S. unfold getIssue, try_catch, send. now rewrite H, S. Qed.

Lemma getSubIssues_resolved (owner repo : option string) (issue_number : Z)
  (env : Env World) (data : list SubIssue) (w : World) :
  issues_listSubIssues octokit owner repo issue_number 100 (world env)
  = (inr data, w) ->
  getSubIssues octokit owner repo issue_number env
  = (Returned data,
     sent env (IssuesListSubIssues owner repo issue_number 100) w).
Proof. intros H. unfold getSubIssues, try_catch, send. now rewrite H. Qed.

Lemma getSubIssues_not_found (owner repo : option string) (issue_number : Z)
  (env : Env World) (e : JsError) (w : World) :
  issues_listSubIssues octokit owner repo issue_number 100 (world env)
  = (inl e, w) ->
  status_is e 404 = true ->
  getSubIssues octokit owner repo issue_number env
  = (Returned [],
     sent env (IssuesListSubIssues owner repo issue_number 100) w).
Proof. intros H S. unfold getSubIssues, try_catch, send. now rewrite H, S. Qed.

Lemma getSubIssues_rejected (owner repo : option string) (issue_number : Z)
  (env : Env World) (e : JsError) (w : World) :
  issues_listSubIssues octokit owner repo issue_number 100 (world env)
  = (inl e, w) ->
  status_is e 404 = false ->
  getSubIssues octokit owner repo issue_number env
  = (Thrown e, sent env (IssuesListSubIssues owner repo issue_number 100) w).
Proof. intros H S. unfold getSubIssues, try_catch, send. now rewrite H, S. Qed.

Lemma closeIssue_resolved (owner repo : option string) (issue_number : Z)
  (reason : string) (env : Env World) (w1 w2 : World) :
  issues_update octokit owner repo issue_number "closed" "completed"
    (world env) = (inr tt, w1) ->
  issues_createComment octokit owner repo issue_number
    (closing_comment reason) w1 = (inr tt, w2) ->
  closeIssue octokit owner repo issue_number reason env
  = (Returned tt,
     sent
       (sent env (IssuesUpdate owner repo issue_number "closed" "completed") w1)
       (IssuesCreateComment owner repo issue_number (closing_comment reason))
       w2).
Proof.
  intros H1 H2. unfold closeIssue, bind, send. rewrite H1.
  cbn [world]. now rewrite H2.
Qed.



Lemma status_is_404 (e : JsError) :
  status_is e 404 = true <-> status e = Some 404.
Proof.
  unfold status_is. destruct (status e) as [z|].
  - rewrite Z.eqb_eq. split; congruence.
  - split; discriminate.
Qed.

Lemma status_is_not_404 (e : JsError) :
  status_is e 404 = false <-> status e <> Some 404.
Proof.
  rewrite <- status_is_404. now destruct (status_is e 404).
Qed.

Lemma world_fetched (env : Env World) (owner repo : option string)
  (issue_number : Z) (depth : nat) (verbose : bool) (issue : Issue)
  (s : Summary) (w : World) :
  world (fetched env owner repo issue_number depth verbose issue s w) = w.
Proof. unfold fetched. now rewrite !world_logged. Qed.

Lemma requests_fetched (env : Env World) (owner repo : option string)
  (issue_number : Z) (depth : nat) (verbose : bool) (issue : Issue)
  (s : Summary) (w : World) :
  requests (fetched env owner repo issue_number depth verbose issue s w)
  = (requests env ++ [IssuesGet owner repo issue_number])%list.
Proof. unfold fetched. now rewrite !requests_logged. Qed.

Lemma mutations_after_fetch {A : Type} (x : Outcome A * Env World)
  (out : Outcome A) (w : World) (reqs : list Request)
  (owner repo : option string) (issue_number : Z) :
  finishes x out w (reqs ++ [IssuesGet owner repo issue_number]) ->
  mutations (requests (snd x)) = mutations reqs.
Proof.
  intros (_ & _ & ->). unfold mutations. rewrite filter_app.
  apply app_nil_r.
Qed.

(** ** The first steps of a call *)

(** A closed issue: one request, no visit. *)
Lemma run_closed (fuel : nat) (owner repo : option string) (issue_number : Z)
  (depth : nat) (dryRun verbose : bool) (env : Env World) (issue : Issue)
  (w : World) :
  issues_get octokit owner repo issue_number (world env) = (inr issue, w) ->
  state issue = "closed" ->
  finishes
    (processIssueRecursively octokit (S fuel) owner repo issue_number depth
       dryRun verbose env)
    (Returned {| processed := 0; closed := 0 |})
    w (requests env ++ [IssuesGet owner repo issue_number]).
Proof.
  intros Hget Hclosed. cbn [processIssueRecursively].
  rewrite (bind_returned _ _ _ _ _ (getIssue_resolved _ _ _ _ _ _ Hget)).
  rewrite (bind_returned _ _ _ _ _ (when_log _ _ _)).
  rewrite Hclosed. cbn [String.eqb Ascii.eqb Bool.eqb].
  rewrite (bind_returned _ _ _ _ _ (when_log _ _ _)).
  unfold finishes, ret. cbn [fst snd].
  now rewrite !world_logged, !requests_logged.
Qed.

(** An open issue without sub-issues: one request, no visit. *)
Lemma run_leaf (fuel : nat) (owner repo : option string) (issue_number : Z)
  (depth : nat) (dryRun verbose : bool) (env : Env World) (issue : Issue)
  (w : World) :
  issues_get octokit owner repo issue_number (world env) = (inr issue, w) ->
  state issue <> "closed" ->
  (sub_issues_summary issue = None
   \/ exists s, sub_issues_summary issue = Some s /\ total s = 0) ->
  finishes
    (processIssueRecursively octokit (S fuel) owner repo issue_number depth
       dryRun verbose env)
    (Returned {| processed := 1; closed := 0 |})
    w (requests env ++ [IssuesGet owner repo issue_number]).
Proof.
  intros Hget Hopen Hsum. cbn [processIssueRecursively].
  rewrite (bind_returned _ _ _ _ _ (getIssue_resolved _ _ _ _ _ _ Hget)).
  rewrite (bind_returned _ _ _ _ _ (when_log _ _ _)).
  apply String.eqb_neq in Hopen. rewrite Hopen.
  destruct Hsum as [-> | (s & -> & ->)]; cbn [Z.eqb];
    rewrite (bind_returned _ _ _ _ _ (when_log _ _ _));
    unfold finishes, ret; cbn [fst snd];
    now rewrite !world_logged, !requests_logged.
Qed.

(** ** Runs that differ in the console only *)

Lemma agree_refl (e : Env World) : agree e e.
Proof. now split. Qed.

Lemma agree_trans (e1 e2 e3 : Env World) :
  agree e1 e2 -> agree e2 e3 -> agree e1 e3.
Proof. intros [? ?] [? ?]. split; congruence. Qed.

Lemma agree_sym (e1 e2 : Env World) : agree e1 e2 -> agree e2 e1.
Proof. intros [? ?]. now split. Qed.

Lemma silent_log (line : string) : silent (World := World) (console_log line).
Proof. intros e. eexists. split; [reflexivity | now split]. Qed.

Lemma silent_ret : silent (World := World) (ret tt).
Proof. intros e. exists e. split; [reflexivity | apply agree_refl]. Qed.

Lemma silent_when (b : bool) (m : M World unit) : silent m -> silent (when b m).
Proof. intros H. destruct b; [exact H | apply silent_ret]. Qed.

Lemma silent_if (b : bool) (m1 m2 : M World unit) :
  silent m1 -> silent m2 -> silent (if b then m1 else m2).
Proof. now destruct b. Qed.

Lemma quiet_silent (m1 m2 : M World unit) :
  silent m1 -> silent m2 -> quiet_equiv m1 m2.
Proof.
  intros H1 H2 e1 e2 He.
  destruct (H1 e1) as (e1' & -> & A1), (H2 e2) as (e2' & -> & A2).
  split; [reflexivity|]. cbn [snd].
  apply (agree_trans _ e1); [now apply agree_sym|].
  now apply (agree_trans _ e2).
Qed.

Lemma quiet_ret {A : Type} (a : A) : quiet_equiv (World := World) (ret a) (ret a).
Proof. intros e1 e2 He. now split. Qed.

Lemma quiet_throw {A : Type} (e : JsError) :
  quiet_equiv (World := World) (A := A) (throw e) (throw e).
Proof. intros e1 e2 He. now split. Qed.

Lemma quiet_out_of_fuel {A : Type} :
  quiet_equiv (World := World) (A := A) out_of_fuel out_of_fuel.
Proof. intros e1 e2 He. now split. Qed.

Lemma quiet_bind {A B : Type} (m1 m2 : M World A) (k1 k2 : A -> M World B) :
  quiet_equiv m1 m2 -> (forall a, quiet_equiv (k1 a) (k2 a)) ->
  quiet_equiv (bind m1 k1) (bind m2 k2).
Proof.
  intros Hm Hk e1 e2 He. unfold bind.
  destruct (Hm e1 e2 He) as [Ho Ha].
  destruct (m1 e1) as [o1 e1'], (m2 e2) as [o2 e2'].
  cbn [fst snd] in Ho, Ha. subst o2.
  destruct o1; [now apply Hk | now split | now split].
Qed.

Lemma quiet_try_catch {A : Type} (m1 m2 : M World A)
  (h1 h2 : JsError -> M World A) :
  quiet_equiv m1 m2 -> (forall e, quiet_equiv (h1 e) (h2 e)) ->
  quiet_equiv (try_catch m1 h1) (try_catch m2 h2).
Proof.
  intros Hm Hh e1 e2 He. unfold try_catch.
  destruct (Hm e1 e2 He) as [Ho Ha].
  destruct (m1 e1) as [o1 e1'], (m2 e2) as [o2 e2'].
  cbn [fst snd] in Ho, Ha. subst o2.
  destruct o1; [now split | now apply Hh | now split].
Qed.

Lemma quiet_send {A : Type} (r : Request)
  (answer : World -> Response A * World) :
  quiet_equiv (send r answer) (send r answer).
Proof.
  intros e1 e2 [Hw Hr]. unfold send. rewrite Hw.
  destruct (answer (world e2)) as [resp w'].
  split; [reflexivity|]. split; cbn [snd world requests]; congruence.
Qed.

Lemma quiet_for_of {A S : Type} (items : list A)
  (b1 b2 : A -> S -> M World S) :
  (forall x acc, quiet_equiv (b1 x acc) (b2 x acc)) ->
  forall acc, quiet_equiv (for_of items acc b1) (for_of items acc b2).
Proof.
  intros Hb. induction items as [|x items IH]; intros acc; cbn [for_of].
  - apply quiet_ret.
  - apply quiet_bind; [apply Hb | exact IH].
Qed.

Lemma quiet_getIssue (owner repo : option string) (issue_number : Z) :
  quiet_equiv (getIssue octokit owner repo issue_number)
    (getIssue octokit owner repo issue_number).
Proof.
  apply quiet_try_catch; [apply quiet_send|].
  intros e. destruct (status_is e 404); apply quiet_throw.
Qed.

Lemma quiet_getSubIssues (owner repo : option string) (issue_number : Z) :
  quiet_equiv (getSubIssues octokit owner repo issue_number)
    (getSubIssues octokit owner repo issue_number).
Proof.
  apply quiet_try_catch; [apply quiet_send|].
  intros e. destruct (status_is e 404); [apply quiet_ret | apply quiet_throw].
Qed.

Lemma quiet_closeIssue (owner repo : option string) (issue_number : Z)
  (reason : string) :
  quiet_equiv (closeIssue octokit owner repo issue_number reason)
    (closeIssue octokit owner repo issue_number reason).
Proof.
  apply quiet_bind; [apply quiet_send | intros _; apply quiet_send].
Qed.

Create HintDb quiet.
#[local] Hint Resolve silent_log silent_ret silent_when silent_if : quiet.
#[local] Hint Resolve quiet_ret quiet_throw quiet_out_of_fuel quiet_getIssue
  quiet_getSubIssues quiet_closeIssue quiet_send : quiet.

Ltac quiet_step :=
  first
    [ apply quiet_bind; [solve [auto with quiet] | intros ? ]
    | apply quiet_bind; [apply quiet_silent; solve [auto with quiet] | intros _ ]
    | solve [auto with quiet] ].

(** The verbose flag changes the console only. *)
Lemma quiet_processIssueRecursively (fuel : nat) :
  forall (owner repo : option string) (issue_number : Z) (depth : nat)
         (dryRun v1 v2 : bool),
    quiet_equiv
      (processIssueRecursively octokit fuel owner repo issue_number depth
         dryRun v1)
      (processIssueRecursively octokit fuel owner repo issue_number depth
         dryRun v2).
Proof.
  induction fuel as [|fuel IH]; intros owner repo issue_number depth dryRun v1 v2.
  - apply quiet_out_of_fuel.
  - cbn [processIssueRecursively].
    quiet_step. quiet_step.
    destruct (String.eqb (state a) "closed").
    { quiet_step. quiet_step. }
    destruct (sub_issues_summary a) as [s|].
    2:{ quiet_step. quiet_step. }
    destruct (total s =? 0).
    { quiet_step. quiet_step. }
    quiet_step. quiet_step.
    apply quiet_bind.
    { apply quiet_for_of. intros x acc. unfold visit_subIssue.
      apply quiet_bind; [apply IH | intros res; apply quiet_ret]. }
    intros [tp tc]. quiet_step.
    destruct (is_complete (sub_issues_summary a1)).
    + destruct dryRun.
      * quiet_step. quiet_step.
      * quiet_step. quiet_step. quiet_step.
    + quiet_step. quiet_step.
Qed.

(** ** More fuel *)

Lemma extends_refl {A : Type} (m : M World A) : extends m m.
Proof. now intros env _. Qed.

Lemma extends_bind {A B : Type} (m1 m2 : M World A) (k1 k2 : A -> M World B) :
  extends m1 m2 -> (forall a, extends (k1 a) (k2 a)) ->
  extends (bind m1 k1) (bind m2 k2).
Proof.
  intros Hm Hk env. unfold bind. pose proof (Hm env) as H.
  destruct (m1 env) as [[a|e|] env'] eqn:E; cbn [fst] in *.
  - intros F. rewrite H by discriminate. now apply Hk.
  - intros _. now rewrite H by discriminate.
  - intros F. now contradiction F.
Qed.

Lemma extends_for_of {A S : Type} (items : list A)
  (b1 b2 : A -> S -> M World S) :
  (forall x acc, extends (b1 x acc) (b2 x acc)) ->
  forall acc, extends (for_of items acc b1) (for_of items acc b2).
Proof.
  intros Hb. induction items as [|x items IH]; intros acc; cbn [for_of].
  - apply extends_refl.
  - apply extends_bind; [apply Hb | exact IH].
Qed.

(** A call that has fuel enough does the same with more fuel: the fuel is
    no part of what a run does. *)
Lemma processIssueRecursively_more_fuel (fuel : nat) :
  forall (owner repo : option string) (issue_number : Z) (depth : nat)
         (dryRun verbose : bool),
    extends
      (processIssueRecursively octokit fuel owner repo issue_number depth
         dryRun verbose)
      (processIssueRecursively octokit (S fuel) owner repo issue_number depth
         dryRun verbose).
Proof.
  induction fuel as [|fuel IH];
    intros owner repo issue_number depth dryRun verbose.
  - intros env F. now contradiction F.
  - remember (S fuel) as fuel' eqn:Efuel.
    cbn [processIssueRecursively]. subst fuel'.
    cbn [processIssueRecursively].
    apply extends_bind; [apply extends_refl | intros issue].
    apply extends_bind; [apply extends_refl | intros _].
    destruct (String.eqb (state issue) "closed"); [apply extends_refl|].
    destruct (sub_issues_summary issue) as [s|]; [|apply extends_refl].
    destruct (total s =? 0); [apply extends_refl|].
    apply extends_bind; [apply extends_refl | intros _].
    apply extends_bind; [apply extends_refl | intros subIssues].
    apply extends_bind; [|intros totals; apply extends_refl].
    apply extends_for_of. intros x acc. unfold visit_subIssue.
    apply extends_bind; [apply IH | intros res; apply extends_refl].
Qed.

End Effects.


(* ================================================================== *)
(** * A call on an open issue that has sub-issues *)

Section Parent.
Context {World : Type}.
Variable octokit : Octokit World.
Variables (fuel : nat) (owner repo : option string) (issue_number : Z).
Variables (depth : nat) (dryRun verbose : bool) (env : Env World).
Variables (issue : Issue) (s : Summary) (w1 : World).

Hypothesis Hget :
  issues_get octokit owner repo issue_number (world env) = (inr issue, w1).
Hypothesis Hopen : state issue <> "closed".
Hypothesis Hsum : sub_issues_summary issue = Some s.
Hypothesis Htotal : total s <> 0.

Let run : Outcome Result * Env World :=
  processIssueRecursively octokit (S fuel) owner repo issue_number depth
    dryRun verbose env.

Let visit : SubIssue -> Z * Z -> M World (Z * Z) :=
  visit_subIssue (processIssueRecursively octokit fuel) depth dryRun verbose.

Let before_listing : Env World :=
  fetched env owner repo issue_number depth verbose issue s w1.

Ltac enter :=
  unfold run, visit, before_listing, fetched in *;
  cbn [processIssueRecursively];
  rewrite (bind_returned _ _ _ _ _ (getIssue_resolved octokit _ _ _ _ _ _ Hget));
  rewrite (bind_returned _ _ _ _ _ (when_log _ _ _));
  rewrite (proj2 (String.eqb_neq _ _) Hopen), Hsum;
  rewrite (proj2 (Z.eqb_neq _ _) Htotal);
  rewrite (bind_returned _ _ _ _ _ (when_log _ _ _)).

Tactic Notation "returned" uconstr(H) :=
  rewrite (bind_returned _ _ _ _ _ H); cbv beta iota.

Lemma run_listing_thrown (e : JsError) (e2 : Env World) :
  getSubIssues octokit owner repo issue_number before_listing = (Thrown e, e2) ->
  run = (Thrown e, e2).
Proof. intros H. enter. now rewrite (bind_thrown _ _ _ _ _ H). Qed.

Section Listed.
Variables (subIssues : list SubIssue) (e2 : Env World).
Hypothesis Hlist :
  getSubIssues octokit owner repo issue_number before_listing
  = (Returned subIssues, e2).

Lemma run_visit_thrown (e : JsError) (e3 : Env World) :
  for_of subIssues (1, 0) visit e2 = (Thrown e, e3) -> run = (Thrown e, e3).
Proof.
  intros H. enter. returned Hlist. now rewrite (bind_thrown _ _ _ _ _ H).
Qed.


Section Visited.
Variables (p c : Z) (e3 : Env World).
Hypothesis Hvisit : for_of subIssues (1, 0) visit e2 = (Returned (p, c), e3).

Lemma run_refetch_thrown (e : JsError) (e4 : Env World) :
  getIssue octokit owner repo issue_number e3 = (Thrown e, e4) ->
  run = (Thrown e, e4).
Proof.
  intros H. enter. returned Hlist. returned Hvisit.
  now rewrite (bind_thrown _ _ _ _ _ H).
Qed.

Section Refetched.
Variables (updated : Issue) (w4 : World).
Hypothesis Hagain :
  issues_get octokit owner repo issue_number (world e3) = (inr updated, w4).

Lemma run_keep_open :
  is_complete (sub_issues_summary updated) = false ->
  finishes run (Returned {| processed := p; closed := c |}) w4
    (requests e3 ++ [IssuesGet owner repo issue_number]).
Proof.
  intros Hc. enter. returned Hlist. returned Hvisit.
  returned (getIssue_resolved octokit _ _ _ _ _ _ Hagain).
  rewrite Hc. returned (when_log _ _ _).
  unfold finishes, ret. cbn [fst snd].
  now rewrite world_logged, requests_logged.
Qed.

Lemma run_would_close :
  is_complete (sub_issues_summary updated) = true -> dryRun = true ->
  finishes run (Returned {| processed := p; closed := c + 1 |}) w4
    (requests e3 ++ [IssuesGet owner repo issue_number]).
Proof.
  intros Hc Hd. enter. returned Hlist. returned Hvisit.
  returned (getIssue_resolved octokit _ _ _ _ _ _ Hagain).
  rewrite Hc, Hd. returned (log_either _ _ _ _).
  unfold finishes, ret. cbn [fst snd].
  now rewrite world_logged, requests_logged.
Qed.

Lemma run_close (w5 w6 : World) :
  is_complete (sub_issues_summary updated) = true -> dryRun = false ->
  issues_update octokit owner repo issue_number "closed" "completed" w4
  = (inr tt, w5) ->
  issues_createComment octokit owner repo issue_number
    (closing_comment "All sub-issues are now complete") w5 = (inr tt, w6) ->
  finishes run (Returned {| processed := p; closed := c + 1 |}) w6
    (requests e3
     ++ [IssuesGet owner repo issue_number;
         IssuesUpdate owner repo issue_number "closed" "completed";
         IssuesCreateComment owner repo issue_number
           (closing_comment "All sub-issues are now complete")]).
Proof.
  intros Hc Hd Hu Hn. enter. returned Hlist. returned Hvisit.
  returned (getIssue_resolved octokit _ _ _ _ _ _ Hagain).
  rewrite Hc, Hd. returned (log_either _ _ _ _).
  rewrite (bind_returned _ _ _ _ _
             (closeIssue_resolved octokit _ _ _ _
                (logged true _ (sent e3 _ w4)) w5 w6 Hu Hn)).
  unfold finishes, ret, sent. cbn [fst snd world requests].
  rewrite requests_logged. cbn [requests].
  now rewrite <- !app_assoc.
Qed.



End Refetched.


End Visited.
End Listed.
End Parent.

(* ================================================================== *)
(** * The repository of a sub-issue *)

Lemma split_nonempty (sep : ascii) (s : string) : split sep s <> [].
Proof.
  destruct s as [|a s]; simpl; [discriminate|].
  destruct (Ascii.eqb a sep); [discriminate|].
  destruct (split sep s); discriminate.
Qed.

Lemma split_append (sep : ascii) (a b : string) :
  split sep (a ++ String sep b) = (split sep a ++ split sep b)%list.
Proof.
  induction a as [|c a IH]; simpl.
  - now rewrite Ascii.eqb_refl.
  - destruct (Ascii.eqb c sep); [now rewrite IH|].
    rewrite IH. pose proof (split_nonempty sep a) as N.
    destruct (split sep a); [contradiction | reflexivity].
Qed.

Lemma split_plain (sep : ascii) (x : string) :
  all_chars (in_class (NoneOf sep)) x = true -> split sep x = [x].
Proof.
  induction x as [|c x IH]; simpl; [reflexivity|].
  intros H. apply andb_prop in H as [Hc Hx].
  apply negb_true_iff in Hc. now rewrite Hc, IH.
Qed.

Lemma slice_last_but_one {A : Type} (l : list A) (x y : A) :
  slice (-2) (-1) (l ++ [x; y]) = [x].
Proof.
  unfold slice, clamp_index. rewrite length_app. cbn [List.length Z.ltb Z.compare].
  rewrite Nat2Z.inj_add. cbn [Z.of_nat Pos.of_succ_nat Pos.succ].
  replace (Z.max (Z.of_nat (List.length l) + 2 + -2) 0)
    with (Z.of_nat (List.length l)) by lia.
  replace (Z.max (Z.of_nat (List.length l) + 2 + -1) 0
           - Z.of_nat (List.length l)) with 1 by lia.
  rewrite Nat2Z.id, skipn_app, skipn_all, Nat.sub_diag. reflexivity.
Qed.

Lemma pop_last {A : Type} (l : list A) (x y : A) : pop (l ++ [x; y]) = Some y.
Proof.
  unfold pop. rewrite length_app. cbn [List.length].
  replace (Nat.pred (List.length l + 2)) with (List.length l + 1)%nat by lia.
  rewrite nth_error_app2 by lia.
  now replace (List.length l + 1 - List.length l)%nat with 1%nat by lia.
Qed.

(** The owner and the repository of a sub-issue are the last two segments
    of the [repository_url] of its own record. *)
Lemma sub_repository (subIssue : SubIssue) (owner repo : string) :
  lives_in subIssue owner repo ->
  subOwner_of subIssue = Some owner /\ subRepo_of subIssue = Some repo.
Proof.
  intros (base & E & Ho & Hr). unfold subOwner_of, subRepo_of. rewrite E.
  change (base ++ "/" ++ owner ++ "/" ++ repo)
    with (base ++ String "/" (owner ++ String "/" repo)).
  rewrite !split_append, (split_plain _ _ Ho), (split_plain _ _ Hr).
  change ([owner] ++ [repo])%list with [owner; repo].
  split.
  - now rewrite (slice_last_but_one (split "/" base) owner repo).
  - now rewrite (pop_last (split "/" base) owner repo).
Qed.

(* ================================================================== *)
(** * The loop over the sub-issues *)

Section Loop.
Context {World : Type}.
Variable octokit : Octokit World.

Lemma for_of_app {A S : Type} (xs ys : list A) (acc : S)
  (body : A -> S -> M World S) (env : Env World) :
  for_of (xs ++ ys) acc body env
  = bind (for_of xs acc body) (fun acc' => for_of ys acc' body) env.
Proof.
  revert acc env; induction xs as [|x xs IH]; intros acc env.
  - reflexivity.
  - cbn [for_of app]. unfold bind.
    destruct (body x acc env) as [[acc'| |] env']; try reflexivity.
    now rewrite IH.
Qed.

(** A sub-issue whose call throws stops the loop: the sub-issues after it
    are not visited. *)
Lemma for_of_thrown {A S : Type} (before after : list A) (x : A) (acc acc' : S)
  (body : A -> S -> M World S) (env e1 e2 : Env World) (e : JsError) :
  for_of before acc body env = (Returned acc', e1) ->
  body x acc' e1 = (Thrown e, e2) ->
  for_of (before ++ x :: after) acc body env = (Thrown e, e2).
Proof.
  intros Hb Hx. rewrite for_of_app, (bind_returned _ _ _ _ _ Hb).
  cbn [for_of]. now rewrite (bind_thrown _ _ _ _ _ Hx).
Qed.

(** Visiting a sub-issue that is closed: one request, and the totals do
    not change. *)
Lemma visit_closed (fuel depth : nat) (dryRun verbose : bool)
  (subIssue : SubIssue) (owner repo : option string) (totals : Z * Z)
  (env : Env World) (issue : Issue) (w : World) :
  subOwner_of subIssue = owner -> subRepo_of subIssue = repo ->
  issues_get octokit owner repo (number subIssue) (world env) = (inr issue, w) ->
  state issue = "closed" ->
  exists env',
    visit_subIssue (processIssueRecursively octokit (S fuel)) depth dryRun
      verbose subIssue totals env = (Returned totals, env')
    /\ world env' = w
    /\ requests env'
       = (requests env ++ [IssuesGet owner repo (number subIssue)])%list.
Proof.
  intros Ho Hr Hget Hclosed. unfold visit_subIssue. rewrite Ho, Hr.
  destruct (run_closed octokit fuel owner repo (number subIssue) (depth + 1)
              dryRun verbose env issue w Hget Hclosed) as (Hout & Hw & Hreq).
  destruct (processIssueRecursively octokit (S fuel) owner repo
              (number subIssue) (depth + 1) dryRun verbose env)
    as [out env'] eqn:E.
  cbn [fst snd] in *. subst out. exists env'.
  rewrite (bind_returned _ _ _ _ _ E). unfold ret.
  cbn [processed closed]. rewrite !Z.add_0_r.
  now destruct totals.
Qed.

(** Visiting a sub-issue that is an open leaf: one request, and one more
    issue processed. *)
Lemma visit_leaf (fuel depth : nat) (dryRun verbose : bool)
  (subIssue : SubIssue) (owner repo : option string) (totals : Z * Z)
  (env : Env World) (issue : Issue) (w : World) :
  subOwner_of subIssue = owner -> subRepo_of subIssue = repo ->
  issues_get octokit owner repo (number subIssue) (world env) = (inr issue, w) ->
  state issue <> "closed" ->
  sub_issues_summary issue = None ->
  exists env',
    visit_subIssue (processIssueRecursively octokit (S fuel)) depth dryRun
      verbose subIssue totals env = (Returned (fst totals + 1, snd totals), env')
    /\ world env' = w
    /\ requests env'
       = (requests env ++ [IssuesGet owner repo (number subIssue)])%list.
Proof.
  intros Ho Hr Hget Hopen Hnone. unfold visit_subIssue. rewrite Ho, Hr.
  destruct (run_leaf octokit fuel owner repo (number subIssue) (depth + 1)
              dryRun verbose env issue w Hget Hopen (or_introl Hnone))
    as (Hout & Hw & Hreq).
  destruct (processIssueRecursively octokit (S fuel) owner repo
              (number subIssue) (depth + 1) dryRun verbose env)
    as [out env'] eqn:E.
  cbn [fst snd] in *. subst out. exists env'.
  rewrite (bind_returned _ _ _ _ _ E). unfold ret.
  cbn [processed closed]. now rewrite Z.add_0_r.
Qed.

End Loop.

(* ================================================================== *)
(** * The completion propagator *)

Section Propagation.
Context {World : Type}.
Variable octokit : Octokit World.

(** C1.  An open issue whose summary has [total > 0]: once its sub-issues
    are listed and visited, the call fetches the issue again and decides
    from the summary read then, whatever the first summary was.  When that
    summary is at 100 percent, the call counts one more closed issue than
    the visit did, in a dry run and in a live run alike; a dry run sends
    nothing after the fetch, a live run sends the update and then the
    comment, once each.  Otherwise the call sends nothing after the fetch
    and counts the closed issues of the visit only. *)
Theorem closure_follows_second_read
  (fuel : nat) (owner repo : option string) (issue_number : Z) (depth : nat)
  (dryRun verbose : bool) (env : Env World) (issue : Issue) (s : Summary)
  (w1 : World) (subIssues : list SubIssue) (e2 : Env World) (p c : Z)
  (e3 : Env World) (updated : Issue) (w4 : World) :
  issues_get octokit owner repo issue_number (world env) = (inr issue, w1) ->
  state issue <> "closed" ->
  sub_issues_summary issue = Some s ->
  0 < total s ->
  getSubIssues octokit owner repo issue_number
    (fetched env owner repo issue_number depth verbose issue s w1)
  = (Returned subIssues, e2) ->
  for_of subIssues (1, 0)
    (visit_subIssue (processIssueRecursively octokit fuel) depth dryRun verbose)
    e2 = (Returned (p, c), e3) ->
  issues_get octokit owner repo issue_number (world e3) = (inr updated, w4) ->
  (is_complete (sub_issues_summary updated) = true -> dryRun = true ->
   finishes
     (processIssueRecursively octokit (S fuel) owner repo issue_number depth
        dryRun verbose env)
     (Returned {| processed := p; closed := c + 1 |}) w4
     (requests e3 ++ [IssuesGet owner repo issue_number]))
  /\ (is_complete (sub_issues_summary updated) = true -> dryRun = false ->
      forall w5 w6,
        issues_update octokit owner repo issue_number "closed" "completed" w4
        = (inr tt, w5) ->
        issues_createComment octokit owner repo issue_number
          (closing_comment "All sub-issues are now complete") w5
        = (inr tt, w6) ->
        finishes
          (processIssueRecursively octokit (S fuel) owner repo issue_number
             depth dryRun verbose env)
          (Returned {| processed := p; closed := c + 1 |}) w6
          (requests e3
           ++ [IssuesGet owner repo issue_number;
               IssuesUpdate owner repo issue_number "closed" "completed";
               IssuesCreateComment owner repo issue_number
                 (closing_comment "All sub-issues are now complete")]))
  /\ (is_complete (sub_issues_summary updated) = false ->
      finishes
        (processIssueRecursively octokit (S fuel) owner repo issue_number
           depth dryRun verbose env)
        (Returned {| processed := p; closed := c |}) w4
        (requests e3 ++ [IssuesGet owner repo issue_number])).
Proof.
  intros Hget Hopen Hsum Hpos Hlist Hvisit Hagain.
  assert (Htotal : total s <> 0) by lia.
  split; [|split].
  - intros Hc Hd.
    now apply (run_would_close octokit fuel owner repo issue_number depth
                 dryRun verbose env issue s w1 Hget Hopen Hsum Htotal
                 subIssues e2 Hlist p c e3 Hvisit updated w4).
  - intros Hc Hd w5 w6 Hu Hn.
    now apply (run_close octokit fuel owner repo issue_number depth
                 dryRun verbose env issue s w1 Hget Hopen Hsum Htotal
                 subIssues e2 Hlist p c e3 Hvisit updated w4 Hagain w5 w6).
  - intros Hc.
    now apply (run_keep_open octokit fuel owner repo issue_number depth
                 dryRun verbose env issue s w1 Hget Hopen Hsum Htotal
                 subIssues e2 Hlist p c e3 Hvisit updated w4).
Qed.

(** C3.  When the issue fetched is closed, the call returns
    [{processed: 0, closed: 0}] and has sent the fetch of that issue and
    nothing else: no listing, no fetch of a sub-issue, no update, no
    comment.  So it is on a store in which every issue is closed, for any
    depth and any fuel but zero: the result is [{processed: 0, closed: 0}]
    and no update or comment is added to the requests. *)
Theorem closed_issue_is_skipped
  (fuel : nat) (owner repo : option string) (issue_number : Z) (depth : nat)
  (dryRun verbose : bool) (env : Env World) :
  (forall issue w,
     issues_get octokit owner repo issue_number (world env) = (inr issue, w) ->
     state issue = "closed" ->
     finishes
       (processIssueRecursively octokit (S fuel) owner repo issue_number depth
          dryRun verbose env)
       (Returned {| processed := 0; closed := 0 |}) w
       (requests env ++ [IssuesGet owner repo issue_number]))
  /\ ((forall o r n w,
         exists issue w',
           issues_get octokit o r n w = (inr issue, w')
           /\ state issue = "closed") ->
      (exists w',
         finishes
           (processIssueRecursively octokit (S fuel) owner repo issue_number
              depth dryRun verbose env)
           (Returned {| processed := 0; closed := 0 |}) w'
           (requests env ++ [IssuesGet owner repo issue_number]))
      /\ mutations
           (requests
              (snd (processIssueRecursively octokit (S fuel) owner repo
                      issue_number depth dryRun verbose env)))
         = mutations (requests env)).
Proof.
  split.
  - intros issue w Hget Hclosed. now apply (run_closed octokit) with issue.
  - intros Hall.
    destruct (Hall owner repo issue_number (world env))
      as (issue & w' & Hget & Hclosed).
    pose proof (run_closed octokit fuel owner repo issue_number depth dryRun
                  verbose env issue w' Hget Hclosed) as Hrun.
    split; [now exists w' | exact (mutations_after_fetch _ _ _ _ _ _ _ Hrun)].
Qed.

(** C4.  When the issue fetched is open and has no summary, or a summary
    whose [total] is 0, the call returns [{processed: 1, closed: 0}] and
    has sent the fetch of that issue and nothing else: no listing, no call
    on a sub-issue, no update, no comment. *)
Theorem open_leaf_is_counted
  (fuel : nat) (owner repo : option string) (issue_number : Z) (depth : nat)
  (dryRun verbose : bool) (env : Env World) (issue : Issue) (w : World) :
  issues_get octokit owner repo issue_number (world env) = (inr issue, w) ->
  state issue <> "closed" ->
  (sub_issues_summary issue = None
   \/ exists s, sub_issues_summary issue = Some s /\ total s = 0) ->
  finishes
    (processIssueRecursively octokit (S fuel) owner repo issue_number depth
       dryRun verbose env)
    (Returned {| processed := 1; closed := 0 |}) w
    (requests env ++ [IssuesGet owner repo issue_number])
  /\ mutations
       (requests
          (snd (processIssueRecursively octokit (S fuel) owner repo
                  issue_number depth dryRun verbose env)))
     = mutations (requests env).
Proof.
  intros Hget Hopen Hsum.
  pose proof (run_leaf octokit fuel owner repo issue_number depth dryRun
                verbose env issue w Hget Hopen Hsum) as Hrun.
  split; [exact Hrun | exact (mutations_after_fetch _ _ _ _ _ _ _ Hrun)].
Qed.

(** C9.  Two runs from the same environment with the same arguments but
    the verbose flag have the same outcome (the same result, or the same
    thrown value), leave the store in the same world and have sent the
    same requests in the same order. *)
Theorem verbose_changes_console_only
  (fuel : nat) (owner repo : option string) (issue_number : Z) (depth : nat)
  (dryRun : bool) (env : Env World) :
  same_effects
    (processIssueRecursively octokit fuel owner repo issue_number depth dryRun
       true env)
    (processIssueRecursively octokit fuel owner repo issue_number depth dryRun
       false env).
Proof. apply quiet_processIssueRecursively, agree_refl. Qed.

End Propagation.

Lemma closure_follows_second_read_witness :
  finishes
    (processIssueRecursively one_closed_child 2 (Some "owner") (Some "repo") 1
       0 false false (start tt))
    (Returned {| processed := 1; closed := 1 |}) tt
    [IssuesGet (Some "owner") (Some "repo") 1;
     IssuesListSubIssues (Some "owner") (Some "repo") 1 100;
     IssuesGet (Some "owner") (Some "repo") 2;
     IssuesGet (Some "owner") (Some "repo") 1;
     IssuesUpdate (Some "owner") (Some "repo") 1 "closed" "completed";
     IssuesCreateComment (Some "owner") (Some "repo") 1
       (closing_comment "All sub-issues are now complete")].
Proof.
  edestruct (closure_follows_second_read one_closed_child 1 (Some "owner")
               (Some "repo") 1 0 false false (start tt)) as (_ & H & _).
  - reflexivity.
  - discriminate.
  - reflexivity.
  - reflexivity.
  - reflexivity.
  - reflexivity.
  - reflexivity.
  - exact (H eq_refl eq_refl tt tt eq_refl eq_refl).
Defined.

Lemma closed_issue_is_skipped_witness :
  finishes
    (processIssueRecursively one_closed_child 1 (Some "owner") (Some "repo") 2
       3 false true (start tt))
    (Returned {| processed := 0; closed := 0 |}) tt
    [IssuesGet (Some "owner") (Some "repo") 2]
  /\ mutations
       (requests
          (snd (processIssueRecursively everything_closed 1 (Some "owner")
                  (Some "repo") 1 7 false false (start tt))))
     = [].
Proof.
  split.
  - exact (proj1 (closed_issue_is_skipped one_closed_child 0 (Some "owner")
                    (Some "repo") 2 3 false true (start tt))
             closed_leaf tt eq_refl eq_refl).
  - apply (proj2 (closed_issue_is_skipped everything_closed 0 (Some "owner")
                    (Some "repo") 1 7 false false (start tt))).
    intros o r n []. now exists closed_leaf, tt.
Defined.

Lemma open_leaf_is_counted_witness :
  finishes
    (processIssueRecursively second_child_missing 1 (Some "owner")
       (Some "repo") 4 0 false false (start tt))
    (Returned {| processed := 1; closed := 0 |}) tt
    [IssuesGet (Some "owner") (Some "repo") 4].
Proof.
  apply (open_leaf_is_counted second_child_missing 0 (Some "owner")
           (Some "repo") 4 0 false false (start tt) open_leaf tt).
  - reflexivity.
  - discriminate.
  - now left.
Defined.

Section Traversal.
Context {World : Type}.
Variable octokit : Octokit World.

Lemma run_fetch_thrown (fuel : nat) (owner repo : option string)
  (issue_number : Z) (depth : nat) (dryRun verbose : bool)
  (env e1 : Env World) (e : JsError) :
  getIssue octokit owner repo issue_number env = (Thrown e, e1) ->
  processIssueRecursively octokit (S fuel) owner repo issue_number depth
    dryRun verbose env = (Thrown e, e1).
Proof.
  intros H. cbn [processIssueRecursively].
  now rewrite (bind_thrown _ _ _ _ _ H).
Qed.

Lemma visit_thrown
  (self : option string -> option string -> Z -> nat -> bool -> bool ->
          M World Result)
  (depth : nat) (dryRun verbose : bool) (subIssue : SubIssue) (totals : Z * Z)
  (env e1 : Env World) (e : JsError) :
  self (subOwner_of subIssue) (subRepo_of subIssue) (number subIssue)
    (depth + 1)%nat dryRun verbose env = (Thrown e, e1) ->
  visit_subIssue self depth dryRun verbose subIssue totals env = (Thrown e, e1).
Proof.
  intros H. unfold visit_subIssue. now rewrite (bind_thrown _ _ _ _ _ H).
Qed.

(** C5.  The failures of the two reads.  A fetch that the store rejects
    with status 404 makes [getIssue] throw a new error whose message names
    the number, the owner and the repository, after that one request; any
    other rejection is thrown as it is.  A listing rejected with status
    404 is an empty list of sub-issues; any other rejection is thrown as
    it is.  Nothing catches what a call throws: a failed fetch, listing
    or second fetch ends the call with the same thrown value and no
    further request, and when the call on a sub-issue throws, the call on
    its parent throws the same value at once, without visiting the
    sub-issues after it. *)
Theorem store_failures
  (fuel : nat) (owner repo : option string) (issue_number : Z) (depth : nat)
  (dryRun verbose : bool) (env : Env World) :
  (forall e w,
     issues_get octokit owner repo issue_number (world env) = (inl e, w) ->
     status e = Some 404 ->
     getIssue octokit owner repo issue_number env
     = (Thrown (new_Error (not_found_message owner repo issue_number)),
        sent env (IssuesGet owner repo issue_number) w))
  /\ (forall e w,
        issues_get octokit owner repo issue_number (world env) = (inl e, w) ->
        status e <> Some 404 ->
        getIssue octokit owner repo issue_number env
        = (Thrown e, sent env (IssuesGet owner repo issue_number) w))
  /\ (forall e w,
        issues_listSubIssues octokit owner repo issue_number 100 (world env)
        = (inl e, w) ->
        status e = Some 404 ->
        getSubIssues octokit owner repo issue_number env
        = (Returned [],
           sent env (IssuesListSubIssues owner repo issue_number 100) w))
  /\ (forall e w,
        issues_listSubIssues octokit owner repo issue_number 100 (world env)
        = (inl e, w) ->
        status e <> Some 404 ->
        getSubIssues octokit owner repo issue_number env
        = (Thrown e,
           sent env (IssuesListSubIssues owner repo issue_number 100) w))
  /\ (forall e e1,
        getIssue octokit owner repo issue_number env = (Thrown e, e1) ->
        processIssueRecursively octokit (S fuel) owner repo issue_number depth
          dryRun verbose env = (Thrown e, e1))
  /\ (forall issue s w1,
        issues_get octokit owner repo issue_number (world env)
        = (inr issue, w1) ->
        state issue <> "closed" ->
        sub_issues_summary issue = Some s ->
        total s <> 0 ->
        (forall e e2,
           getSubIssues octokit owner repo issue_number
             (fetched env owner repo issue_number depth verbose issue s w1)
           = (Thrown e, e2) ->
           processIssueRecursively octokit (S fuel) owner repo issue_number
             depth dryRun verbose env = (Thrown e, e2))
        /\ (forall before subIssue after e2 totals e3 e e4,
              getSubIssues octokit owner repo issue_number
                (fetched env owner repo issue_number depth verbose issue s w1)
              = (Returned (before ++ subIssue :: after)%list, e2) ->
              for_of before (1, 0)
                (visit_subIssue (processIssueRecursively octokit fuel) depth
                   dryRun verbose) e2 = (Returned totals, e3) ->
              processIssueRecursively octokit fuel (subOwner_of subIssue)
                (subRepo_of subIssue) (number subIssue) (depth + 1) dryRun
                verbose e3 = (Thrown e, e4) ->
              processIssueRecursively octokit (S fuel) owner repo issue_number
                depth dryRun verbose env = (Thrown e, e4))
        /\ (forall subIssues e2 totals e3 e e4,
              getSubIssues octokit owner repo issue_number
                (fetched env owner repo issue_number depth verbose issue s w1)
              = (Returned subIssues, e2) ->
              for_of subIssues (1, 0)
                (visit_subIssue (processIssueRecursively octokit fuel) depth
                   dryRun verbose) e2 = (Returned totals, e3) ->
              getIssue octokit owner repo issue_number e3 = (Thrown e, e4) ->
              processIssueRecursively octokit (S fuel) owner repo issue_number
                depth dryRun verbose env = (Thrown e, e4))).
Proof.
  split; [|split; [|split; [|split; [|split]]]].
  - intros e w H S. apply getIssue_not_found with e; [exact H|].
    now apply status_is_404.
  - intros e w H S. apply getIssue_rejected; [exact H|].
    now apply status_is_not_404.
  - intros e w H S. apply getSubIssues_not_found with e; [exact H|].
    now apply status_is_404.
  - intros e w H S. apply getSubIssues_rejected; [exact H|].
    now apply status_is_not_404.
  - intros e e1. apply run_fetch_thrown.
  - intros issue s w1 Hget Hopen Hsum Htotal. split; [|split].
    + intros e e2 Hlist.
      now apply (run_listing_thrown octokit) with issue s w1.
    + intros before subIssue after e2 totals e3 e e4 Hlist Hbefore Hchild.
      apply (run_visit_thrown octokit fuel owner repo issue_number depth
               dryRun verbose env issue s w1 Hget Hopen Hsum Htotal _ e2
               Hlist).
      apply (for_of_thrown before after subIssue (1, 0) totals _ e2 e3 e4 e
               Hbefore).
      now apply visit_thrown.
    + intros subIssues e2 [p c] e3 e e4 Hlist Hvisit Hagain.
      now apply (run_refetch_thrown octokit fuel owner repo issue_number
                   depth dryRun verbose env issue s w1 Hget Hopen Hsum Htotal
                   subIssues e2 Hlist p c e3 Hvisit).
Qed.

(** C2, as the code has it.  Live run on a root that is open with the
    summary 1/1 = 100%, whose listing holds one sub-issue, closed and
    without summary: the call returns [{processed: 1, closed: 1}] -- the
    closed sub-issue is fetched but not counted as processed -- and sends
    one update and one comment, both for the root, after the fetch of the
    root, the listing, the fetch of the sub-issue and the second fetch of
    the root. *)
Theorem root_with_one_closed_child
  (fuel : nat) (owner repo : option string) (issue_number : Z) (depth : nat)
  (verbose : bool) (env : Env World) (root : Issue) (w1 : World)
  (subIssue : SubIssue) (w2 : World) (child : Issue) (w3 : World)
  (root' : Issue) (w4 w5 w6 : World) :
  issues_get octokit owner repo issue_number (world env) = (inr root, w1) ->
  open_with root 1 1 100 ->
  issues_listSubIssues octokit owner repo issue_number 100 w1
  = (inr [subIssue], w2) ->
  issues_get octokit (subOwner_of subIssue) (subRepo_of subIssue)
    (number subIssue) w2 = (inr child, w3) ->
  state child = "closed" ->
  sub_issues_summary child = None ->
  issues_get octokit owner repo issue_number w3 = (inr root', w4) ->
  open_with root' 1 1 100 ->
  issues_update octokit owner repo issue_number "closed" "completed" w4
  = (inr tt, w5) ->
  issues_createComment octokit owner repo issue_number
    (closing_comment "All sub-issues are now complete") w5 = (inr tt, w6) ->
  finishes
    (processIssueRecursively octokit (S (S fuel)) owner repo issue_number
       depth false verbose env)
    (Returned {| processed := 1; closed := 1 |}) w6
    (requests env
     ++ [IssuesGet owner repo issue_number;
         IssuesListSubIssues owner repo issue_number 100;
         IssuesGet (subOwner_of subIssue) (subRepo_of subIssue)
           (number subIssue);
         IssuesGet owner repo issue_number;
         IssuesUpdate owner repo issue_number "closed" "completed";
         IssuesCreateComment owner repo issue_number
           (closing_comment "All sub-issues are now complete")]).
Proof.
  intros Hget [Hopen Hsum] Hlist Hchild Hclosed _ Hagain [_ Hsum'] Hu Hn.
  set (s := {| total := 1; completed := 1; percent_completed := 100 |}) in *.
  set (e1 := fetched env owner repo issue_number depth verbose root s w1).
  assert (Hlist' : getSubIssues octokit owner repo issue_number e1
                   = (Returned [subIssue],
                      sent e1 (IssuesListSubIssues owner repo issue_number 100)
                        w2)).
  { apply getSubIssues_resolved. unfold e1. now rewrite world_fetched. }
  destruct (visit_closed octokit fuel depth false verbose subIssue _ _
              (1, 0)
              (sent e1 (IssuesListSubIssues owner repo issue_number 100) w2)
              child w3 eq_refl eq_refl Hchild Hclosed)
    as (e3 & Hvisit & Hw3 & Hr3).
  assert (Hloop : for_of [subIssue] (1, 0)
                    (visit_subIssue (processIssueRecursively octokit (S fuel))
                       depth false verbose)
                    (sent e1 (IssuesListSubIssues owner repo issue_number 100)
                       w2)
                  = (Returned (1, 0), e3)).
  { cbn [for_of]. now rewrite (bind_returned _ _ _ _ _ Hvisit). }
  rewrite <- Hw3 in Hagain.
  pose proof (run_close octokit (S fuel) owner repo issue_number depth false
                verbose env root s w1 Hget Hopen Hsum ltac:(discriminate)
                [subIssue] _ Hlist' 1 0 e3 Hloop root' w4 Hagain w5 w6)
    as Hrun.
  rewrite Hsum' in Hrun. specialize (Hrun eq_refl eq_refl Hu Hn).
  rewrite Hr3 in Hrun. unfold sent in Hrun. cbn [requests] in Hrun.
  unfold e1 in Hrun. rewrite requests_fetched in Hrun.
  now rewrite <- !app_assoc in Hrun.
Qed.

End Traversal.

Section SubIssues.
Context {World : Type}.
Variable octokit : Octokit World.

(** C8, as the code has it.  The call on a sub-issue is made with the
    owner and the repository read from the record of that sub-issue; the
    owner and the repository of the parent are no argument of the visit.
    On a root that is open with the summary 2/2 = 100% and whose listing
    holds two sub-issues of the repository [owner']/[repo'], both closed,
    the two sub-issues are fetched from [owner']/[repo'] and the call
    returns [{processed: 1, closed: 1}]: closed sub-issues are not counted
    as processed.  A live run then sends the update and the comment for
    the root, a dry run does not. *)
Theorem sub_issues_are_fetched_from_their_repository
  (fuel : nat) (owner repo : option string) (issue_number : Z) (depth : nat)
  (dryRun verbose : bool) (env : Env World) (root : Issue) (w1 : World)
  (c1 c2 : SubIssue) (w2 : World) (owner' repo' : string)
  (i1 : Issue) (w3 : World) (i2 : Issue) (w4 : World) (root' : Issue)
  (w5 w6 w7 : World) :
  lives_in c1 owner' repo' ->
  lives_in c2 owner' repo' ->
  (forall (self : option string -> option string -> Z -> nat -> bool ->
                  bool -> M World Result) (totals : Z * Z) (e : Env World),
     visit_subIssue self depth dryRun verbose c1 totals e
     = bind
         (self (Some owner') (Some repo') (number c1) (depth + 1)%nat dryRun
            verbose)
         (fun result =>
            ret (fst totals + processed result, snd totals + closed result))
         e)
  /\ (issues_get octokit owner repo issue_number (world env) = (inr root, w1) ->
      open_with root 2 2 100 ->
      issues_listSubIssues octokit owner repo issue_number 100 w1
      = (inr [c1; c2], w2) ->
      issues_get octokit (Some owner') (Some repo') (number c1) w2
      = (inr i1, w3) ->
      state i1 = "closed" ->
      issues_get octokit (Some owner') (Some repo') (number c2) w3
      = (inr i2, w4) ->
      state i2 = "closed" ->
      issues_get octokit owner repo issue_number w4 = (inr root', w5) ->
      open_with root' 2 2 100 ->
      (dryRun = false ->
       issues_update octokit owner repo issue_number "closed" "completed" w5
       = (inr tt, w6)
       /\ issues_createComment octokit owner repo issue_number
            (closing_comment "All sub-issues are now complete") w6
          = (inr tt, w7)) ->
      finishes
        (processIssueRecursively octokit (S (S fuel)) owner repo issue_number
           depth dryRun verbose env)
        (Returned {| processed := 1; closed := 1 |})
        (if dryRun then w5 else w7)
        (requests env
         ++ [IssuesGet owner repo issue_number;
             IssuesListSubIssues owner repo issue_number 100;
             IssuesGet (Some owner') (Some repo') (number c1);
             IssuesGet (Some owner') (Some repo') (number c2);
             IssuesGet owner repo issue_number]
         ++ (if dryRun
             then []
             else [IssuesUpdate owner repo issue_number "closed" "completed";
                   IssuesCreateComment owner repo issue_number
                     (closing_comment "All sub-issues are now complete")]))).
Proof.
  intros L1 L2.
  destruct (sub_repository c1 owner' repo' L1) as [O1 R1].
  destruct (sub_repository c2 owner' repo' L2) as [O2 R2].
  split.
  { intros self totals e. unfold visit_subIssue. now rewrite O1, R1. }
  intros Hget [Hopen Hsum] Hlist H1 Hc1 H2 Hc2 Hagain [_ Hsum'] Hlive.
  set (s := {| total := 2; completed := 2; percent_completed := 100 |}) in *.
  set (e1 := fetched env owner repo issue_number depth verbose root s w1).
  set (e2 := sent e1 (IssuesListSubIssues owner repo issue_number 100) w2).
  assert (Hlist' : getSubIssues octokit owner repo issue_number e1
                   = (Returned [c1; c2], e2)).
  { apply getSubIssues_resolved. unfold e1. now rewrite world_fetched. }
  destruct (visit_closed octokit fuel depth dryRun verbose c1 _ _ (1, 0) e2
              i1 w3 O1 R1 H1 Hc1) as (e3 & Hv1 & Hw3 & Hr3).
  rewrite <- Hw3 in H2.
  destruct (visit_closed octokit fuel depth dryRun verbose c2 _ _ (1, 0) e3
              i2 w4 O2 R2 H2 Hc2) as (e4 & Hv2 & Hw4 & Hr4).
  assert (Hloop : for_of [c1; c2] (1, 0)
                    (visit_subIssue (processIssueRecursively octokit (S fuel))
                       depth dryRun verbose) e2
                  = (Returned (1, 0), e4)).
  { cbn [for_of]. rewrite (bind_returned _ _ _ _ _ Hv1).
    now rewrite (bind_returned _ _ _ _ _ Hv2). }
  rewrite <- Hw4 in Hagain.
  assert (Hreq : requests e4
                 = (requests env
                    ++ [IssuesGet owner repo issue_number;
                        IssuesListSubIssues owner repo issue_number 100;
                        IssuesGet (Some owner') (Some repo') (number c1);
                        IssuesGet (Some owner') (Some repo') (number c2)])%list).
  { rewrite Hr4, Hr3. unfold e2, sent. cbn [requests]. unfold e1.
    rewrite requests_fetched. now rewrite <- !app_assoc. }
  assert (Hcomplete : is_complete (sub_issues_summary root') = true)
    by now rewrite Hsum'.
  destruct dryRun.
  - pose proof (run_would_close octokit (S fuel) owner repo issue_number depth
                  true verbose env root s w1 Hget Hopen Hsum
                  ltac:(discriminate) [c1; c2] e2 Hlist' 1 0 e4 Hloop root' w5
                  Hagain Hcomplete eq_refl) as Hrun.
    rewrite Hreq, <- !app_assoc in Hrun. rewrite app_nil_r. exact Hrun.
  - destruct (Hlive eq_refl) as [Hu Hn].
    pose proof (run_close octokit (S fuel) owner repo issue_number depth
                  false verbose env root s w1 Hget Hopen Hsum
                  ltac:(discriminate) [c1; c2] e2 Hlist' 1 0 e4 Hloop root' w5
                  Hagain w6 w7 Hcomplete eq_refl Hu Hn) as Hrun.
    rewrite Hreq, <- !app_assoc in Hrun. exact Hrun.
Qed.


End SubIssues.

(* ================================================================== *)
(** * The statements on the example stores *)

Lemma root_with_one_closed_child_witness :
  finishes
    (processIssueRecursively one_closed_child 2 (Some "owner") (Some "repo") 1
       0 false true (start tt))
    (Returned {| processed := 1; closed := 1 |}) tt
    [IssuesGet (Some "owner") (Some "repo") 1;
     IssuesListSubIssues (Some "owner") (Some "repo") 1 100;
     IssuesGet (Some "owner") (Some "repo") 2;
     IssuesGet (Some "owner") (Some "repo") 1;
     IssuesUpdate (Some "owner") (Some "repo") 1 "closed" "completed";
     IssuesCreateComment (Some "owner") (Some "repo") 1
       (closing_comment "All sub-issues are now complete")].
Proof.
  apply (root_with_one_closed_child one_closed_child 0 (Some "owner")
           (Some "repo") 1 0 true (start tt) (open_parent 1 1 100) tt
           {| number := 2;
              repository_url := "https://api.github.com/repos/owner/repo" |}
           tt closed_leaf tt (open_parent 1 1 100) tt tt tt).
  - reflexivity.
  - split; [discriminate | reflexivity].
  - reflexivity.
  - reflexivity.
  - reflexivity.
  - reflexivity.
  - reflexivity.
  - split; [discriminate | reflexivity].
  - reflexivity.
  - reflexivity.
Defined.

(** C2 as stated fails: the root with one closed sub-issue yields
    [processed = 1], not 2. *)
Lemma one_closed_child_counts_one :
  fst (processIssueRecursively one_closed_child 2 (Some "owner") (Some "repo")
         1 0 false false (start tt))
  = Returned {| processed := 1; closed := 1 |}
  /\ fst (processIssueRecursively one_closed_child 2 (Some "owner")
            (Some "repo") 1 0 false false (start tt))
     <> Returned {| processed := 2; closed := 1 |}.
Proof. split; [reflexivity | discriminate]. Qed.

Lemma store_failures_witness :
  getIssue one_closed_child (Some "owner") (Some "repo") 7 (start tt)
  = (Thrown (new_Error "Issue #7 not found in owner/repo"),
     sent (start tt) (IssuesGet (Some "owner") (Some "repo") 7) tt)
  /\ getSubIssues one_closed_child (Some "owner") (Some "repo") 2 (start tt)
     = (Returned [],
        sent (start tt) (IssuesListSubIssues (Some "owner") (Some "repo") 2 100)
          tt)
  /\ finishes
       (processIssueRecursively listing_fails 2 (Some "owner") (Some "repo") 1
          0 false false (start tt))
       (Thrown server_error) tt
       [IssuesGet (Some "owner") (Some "repo") 1;
        IssuesListSubIssues (Some "owner") (Some "repo") 1 100]
  /\ finishes
       (processIssueRecursively second_child_missing 2 (Some "owner")
          (Some "repo") 1 0 false false (start tt))
       (Thrown (new_Error "Issue #3 not found in owner/repo")) tt
       [IssuesGet (Some "owner") (Some "repo") 1;
        IssuesListSubIssues (Some "owner") (Some "repo") 1 100;
        IssuesGet (Some "owner") (Some "repo") 2;
        IssuesGet (Some "owner") (Some "repo") 3].
Proof.
  split; [|split; [|split]].
  - exact (proj1 (store_failures one_closed_child 0 (Some "owner")
                    (Some "repo") 7 0 false false (start tt))
             not_found tt eq_refl eq_refl).
  - exact (proj1 (proj2 (proj2 (store_failures one_closed_child 0
                                  (Some "owner") (Some "repo") 2 0 false false
                                  (start tt))))
             not_found tt eq_refl eq_refl).
  - destruct (store_failures listing_fails 1 (Some "owner") (Some "repo") 1 0
                false false (start tt)) as (_ & _ & _ & _ & _ & H).
    destruct (H (open_parent 1 1 100)
                {| total := 1; completed := 1; percent_completed := 100 |} tt
                eq_refl ltac:(discriminate) eq_refl ltac:(discriminate))
      as (Hlist & _).
    erewrite Hlist;
      [| exact (proj1 (proj2 (proj2 (proj2
                  (store_failures listing_fails 0 (Some "owner") (Some "repo")
                     1 0 false false
                     (fetched (start tt) (Some "owner") (Some "repo") 1 0
                        false (open_parent 1 1 100)
                        {| total := 1; completed := 1;
                           percent_completed := 100 |} tt)))))
                  server_error tt eq_refl ltac:(discriminate))].
    now split.
  - destruct (store_failures second_child_missing 1 (Some "owner")
                (Some "repo") 1 0 false false (start tt))
      as (_ & _ & _ & _ & _ & H).
    destruct (H (open_parent 3 2 66)
                {| total := 3; completed := 2; percent_completed := 66 |} tt
                eq_refl ltac:(discriminate) eq_refl ltac:(discriminate))
      as (_ & Hchild & _).
    set (sub := fun k =>
                  {| number := k;
                     repository_url :=
                       "https://api.github.com/repos/owner/repo" |}).
    erewrite (Hchild [sub 2] (sub 3) [sub 4]); [| reflexivity..].
    now split.
Defined.

Lemma sub_issues_are_fetched_from_their_repository_witness :
  finishes
    (processIssueRecursively two_children_elsewhere 2 (Some "owner")
       (Some "repo") 1 0 true false (start tt))
    (Returned {| processed := 1; closed := 1 |}) tt
    [IssuesGet (Some "owner") (Some "repo") 1;
     IssuesListSubIssues (Some "owner") (Some "repo") 1 100;
     IssuesGet (Some "other-owner") (Some "other-repo") 41;
     IssuesGet (Some "other-owner") (Some "other-repo") 42;
     IssuesGet (Some "owner") (Some "repo") 1].
Proof.
  set (sub := fun k =>
                {| number := k;
                   repository_url :=
                     "https://api.github.com/repos/other-owner/other-repo" |}).
  assert (L : forall k, lives_in (sub k) "other-owner" "other-repo").
  { intros k. exists "https://api.github.com/repos". now repeat split. }
  apply (proj2 (sub_issues_are_fetched_from_their_repository
                  two_children_elsewhere 0 (Some "owner") (Some "repo") 1 0
                  true false (start tt) (open_parent 2 2 100) tt (sub 41)
                  (sub 42) tt "other-owner" "other-repo" closed_leaf tt
                  closed_leaf tt (open_parent 2 2 100) tt tt tt (L 41) (L 42)));
    try reflexivity.
  - split; [discriminate | reflexivity].
  - split; [discriminate | reflexivity].
  - discriminate.
Defined.

(** C8 as stated fails: the root with two closed sub-issues in another
    repository yields [processed = 1], not 3, in a live run and in a dry
    run. *)
Lemma two_closed_children_count_one :
  fst (processIssueRecursively two_children_elsewhere 2 (Some "owner")
         (Some "repo") 1 0 false false (start tt))
  = Returned {| processed := 1; closed := 1 |}
  /\ fst (processIssueRecursively two_children_elsewhere 2 (Some "owner")
            (Some "repo") 1 0 true false (start tt))
     = Returned {| processed := 1; closed := 1 |}
  /\ fst (processIssueRecursively two_children_elsewhere 2 (Some "owner")
            (Some "repo") 1 0 false false (start tt))
     <> Returned {| processed := 3; closed := 1 |}.
Proof. split; [reflexivity | split; [reflexivity | discriminate]]. Qed.


(* ================================================================== *)
(** * The command line *)

Import Cli Laws.

(** Induction on arguments read one or two at a time. *)
Lemma args_ind (P : list string -> Prop) :
  P [] -> (forall x, P [x]) ->
  (forall x y l, P l -> P (y :: l) -> P (x :: y :: l)) ->
  forall l, P l.
Proof.
  intros H0 H1 H2 l.
  assert (H : P l /\ forall x, P (x :: l)); [|apply H].
  induction l as [|y l [IHl IHx]]; split; auto.
Qed.

Lemma is_either_true (a b arg : string) :
  is_either a b arg = true -> arg = a \/ arg = b.
Proof.
  unfold is_either. intros H. apply orb_prop in H as [H|H];
    apply String.eqb_eq in H; auto.
Qed.

Lemma takes_value_false (arg : string) :
  takes_value arg = false ->
  is_either "--issue" "-i" arg = false /\ is_either "--token" "-t" arg = false.
Proof. unfold takes_value. apply orb_false_elim. Qed.

Lemma mentions_cons (names : list string) (arg : string) (args : list string) :
  mentions names (arg :: args) = false ->
  existsb (String.eqb arg) names = false /\ mentions names args = false.
Proof. unfold mentions. cbn [existsb]. apply orb_false_elim. Qed.

Lemma not_mentioned_2 (a b arg : string) :
  existsb (String.eqb arg) [a; b] = false -> is_either a b arg = false.
Proof. unfold is_either. cbn [existsb]. now rewrite orb_false_r. Qed.

Lemma not_mentioned_4 (a b c d arg : string) :
  existsb (String.eqb arg) [a; b; c; d] = false ->
  is_either a b arg = false /\ is_either c d arg = false.
Proof.
  unfold is_either. cbn [existsb]. rewrite orb_false_r.
  intros H. apply orb_false_elim in H as [-> H].
  apply orb_false_elim in H as [-> H]. now rewrite H.
Qed.

(** One step of the loop on an argument that takes no value. *)
Ltac other_flags x :=
  destruct (is_either "--dry-run" "-d" x);
  [|destruct (is_either "--live" "-l" x);
    [|destruct (is_either "--verbose" "-v" x);
      [|destruct (is_either "-y" "--yes" x)]]].

(** The loop over a first part that leaves no flag waiting for its value,
    then over a second part. *)
Lemma parseArgs_from_split (a b : list string) (parsed : CliArgs) :
  dangling a = false ->
  parseArgs_from (a ++ b) parsed = parseArgs_from b (parseArgs_from a parsed).
Proof.
  revert parsed. induction a as [|x|x y l IHl IHy] using args_ind;
    intros parsed D.
  - reflexivity.
  - cbn [dangling] in D. destruct (takes_value x) eqn:T; [discriminate|].
    apply takes_value_false in T as [Ti Tt].
    cbn [app parseArgs_from]. rewrite Ti, Tt. now other_flags x.
  - cbn [dangling] in D. cbn [app parseArgs_from].
    change (y :: l ++ b) with ((y :: l) ++ b).
    destruct (takes_value x) eqn:T.
    + unfold takes_value in T.
      destruct (is_either "--issue" "-i" x); [now apply IHl|].
      destruct (is_either "--token" "-t" x); [now apply IHl | discriminate].
    + apply takes_value_false in T as [Ti Tt]. rewrite Ti, Tt.
      other_flags x; now apply IHy.
Qed.

(** X1.  Reading arguments composes: when a first part does not end with a
    flag still waiting for its value, reading it followed by a second part
    is reading the second part from what the first part gave. *)
Theorem parseArgs_from_app (a b : list string) (parsed : CliArgs) :
  dangling a = false ->
  parseArgs_from (a ++ b) parsed = parseArgs_from b (parseArgs_from a parsed).
Proof. apply parseArgs_from_split. Qed.

Lemma parseArgs_from_app_witness :
  parseArgs (["-y"; "-i"; "-v"] ++ ["-i"])
  = parseArgs_from ["-i"] (parseArgs ["-y"; "-i"; "-v"]).
Proof.
  exact (parseArgs_from_app ["-y"; "-i"; "-v"] ["-i"] no_args eq_refl).
Defined.

(** One step of the loop. *)
Lemma parseArgs_from_cons (arg : string) (rest : list string)
  (parsed : CliArgs) :
  parseArgs_from (arg :: rest) parsed
  = if is_either "--issue" "-i" arg then
      match rest with
      | value :: rest' => parseArgs_from rest' (with_issue parsed (Str value))
      | [] => with_issue parsed Undefined
      end
    else if is_either "--token" "-t" arg then
      match rest with
      | value :: rest' => parseArgs_from rest' (with_token parsed (Str value))
      | [] => with_token parsed Undefined
      end
    else if is_either "--dry-run" "-d" arg then
      parseArgs_from rest (with_dryRun parsed true)
    else if is_either "--live" "-l" arg then
      parseArgs_from rest (with_dryRun parsed false)
    else if is_either "--verbose" "-v" arg then
      parseArgs_from rest (with_verbose parsed)
    else if is_either "-y" "--yes" arg then
      parseArgs_from rest (with_nonInteractive parsed)
    else parseArgs_from rest parsed.
Proof. reflexivity. Qed.

Ltac flag_cases x :=
  destruct (is_either "--issue" "-i" x) eqn:Fi;
  [|destruct (is_either "--token" "-t" x) eqn:Ft;
    [|destruct (is_either "--dry-run" "-d" x) eqn:Fd;
      [|destruct (is_either "--live" "-l" x) eqn:Fl;
        [|destruct (is_either "--verbose" "-v" x) eqn:Fv;
          [|destruct (is_either "-y" "--yes" x) eqn:Fy]]]]].

(** A field [f] that the steps for the flags [names] alone may change is
    kept when none of these flags occurs. *)
Ltac keeps_field args parsed unmention :=
  revert parsed; induction args as [|x|x y l IHl IHy] using args_ind;
  intros parsed M;
  [ reflexivity
  | apply mentions_cons in M as [M _]; unmention M;
    cbn [parseArgs_from]; flag_cases x; try discriminate; reflexivity
  | pose proof M as Mx; apply mentions_cons in Mx as [Mx Myl];
    pose proof Myl as Ml; apply mentions_cons in Ml as [_ Ml];
    unmention Mx; rewrite parseArgs_from_cons; flag_cases x;
    try discriminate;
    first [ rewrite (IHl _ Ml); reflexivity
          | rewrite (IHy _ Myl); reflexivity ] ].

Lemma keeps_issue (args : list string) (parsed : CliArgs) :
  mentions issue_flags args = false ->
  issue (parseArgs_from args parsed) = issue parsed.
Proof.
  keeps_field args parsed ltac:(fun M => apply not_mentioned_2 in M).
Qed.

Lemma keeps_token (args : list string) (parsed : CliArgs) :
  mentions token_flags args = false ->
  token (parseArgs_from args parsed) = token parsed.
Proof.
  keeps_field args parsed ltac:(fun M => apply not_mentioned_2 in M).
Qed.

Lemma keeps_dryRun (args : list string) (parsed : CliArgs) :
  mentions mode_flags args = false ->
  dryRun (parseArgs_from args parsed) = dryRun parsed.
Proof.
  keeps_field args parsed
    ltac:(fun M => apply not_mentioned_4 in M as [M ?]).
Qed.

Lemma keeps_verbose (args : list string) (parsed : CliArgs) :
  mentions verbose_flags args = false ->
  verbose (parseArgs_from args parsed) = verbose parsed.
Proof.
  keeps_field args parsed ltac:(fun M => apply not_mentioned_2 in M).
Qed.

Lemma keeps_nonInteractive (args : list string) (parsed : CliArgs) :
  mentions yes_flags args = false ->
  nonInteractive (parseArgs_from args parsed) = nonInteractive parsed.
Proof.
  keeps_field args parsed ltac:(fun M => apply not_mentioned_2 in M).
Qed.

(** X2.  A field keeps its value when none of its flags occurs among the
    arguments, whatever else they hold: unknown arguments and the flags of
    the other fields leave it alone.  So an empty command line, or one of
    unknown arguments only, gives [null], [null], [null], [false],
    [false]. *)
Theorem parseArgs_from_keeps (args : list string) (parsed : CliArgs) :
  (mentions issue_flags args = false ->
   issue (parseArgs_from args parsed) = issue parsed)
  /\ (mentions token_flags args = false ->
      token (parseArgs_from args parsed) = token parsed)
  /\ (mentions mode_flags args = false ->
      dryRun (parseArgs_from args parsed) = dryRun parsed)
  /\ (mentions verbose_flags args = false ->
      verbose (parseArgs_from args parsed) = verbose parsed)
  /\ (mentions yes_flags args = false ->
      nonInteractive (parseArgs_from args parsed) = nonInteractive parsed).
Proof.
  repeat split.
  - apply keeps_issue.
  - apply keeps_token.
  - apply keeps_dryRun.
  - apply keeps_verbose.
  - apply keeps_nonInteractive.
Qed.

Lemma parseArgs_from_keeps_witness :
  issue (parseArgs ["--unknown"; "-t"; "-v"; "-x"; "--live"]) = Null
  /\ verbose (parseArgs ["--unknown"; "--token"; "-x"; "--live"]) = false.
Proof.
  split.
  - exact (proj1 (parseArgs_from_keeps
                    ["--unknown"; "-t"; "-v"; "-x"; "--live"] no_args)
             eq_refl).
  - exact (proj1 (proj2 (proj2 (proj2
             (parseArgs_from_keeps ["--unknown"; "--token"; "-x"; "--live"]
                no_args)))) eq_refl).
Defined.

(** X3.  Between [--dry-run]/[-d] and [--live]/[-l], the last one read as
    a flag decides: after it, arguments that mention none of the four
    leave the mode as it set it. *)
Theorem last_mode_flag_wins (a b : list string) (flag : string) :
  dangling a = false ->
  mentions mode_flags b = false ->
  (is_either "--dry-run" "-d" flag = true ->
   dryRun (parseArgs (a ++ flag :: b)) = Some true)
  /\ (is_either "--live" "-l" flag = true ->
      dryRun (parseArgs (a ++ flag :: b)) = Some false).
Proof.
  intros D M. unfold parseArgs. rewrite (parseArgs_from_split a _ _ D).
  split; intros F; apply is_either_true in F as [-> | ->];
    rewrite parseArgs_from_cons; cbn [is_either String.eqb Ascii.eqb Bool.eqb orb];
    now rewrite keeps_dryRun.
Qed.

Lemma last_mode_flag_wins_witness :
  dryRun (parseArgs (["--dry-run"; "-i"; "-d"] ++ "--live" :: ["-v"]))
  = Some false.
Proof.
  exact (proj2 (last_mode_flag_wins ["--dry-run"; "-i"; "-d"] ["-v"] "--live"
                  eq_refl eq_refl) eq_refl).
Defined.

Lemma validateNonInteractiveMode_eq (GITHUB_TOKEN : option string)
  (cliArgs : CliArgs) :
  validateNonInteractiveMode GITHUB_TOKEN cliArgs
  = ((if negb (truthy (token cliArgs)) && negb (truthy_env GITHUB_TOKEN)
      then [missing_token] else [])
     ++ (if negb (truthy (issue cliArgs)) then [missing_issue] else []))%list.
Proof.
  unfold validateNonInteractiveMode.
  now destruct (negb (truthy (token cliArgs))
                && negb (truthy_env GITHUB_TOKEN)),
    (negb (truthy (issue cliArgs))).
Qed.

Lemma missing_issue_iff (GITHUB_TOKEN : option string) (cliArgs : CliArgs) :
  In missing_issue (validateNonInteractiveMode GITHUB_TOKEN cliArgs)
  <-> truthy (issue cliArgs) = false.
Proof.
  rewrite validateNonInteractiveMode_eq, in_app_iff.
  destruct (negb (truthy (token cliArgs)) && negb (truthy_env GITHUB_TOKEN)),
    (truthy (issue cliArgs)); cbn [negb In];
    intuition (try discriminate; auto).
Qed.

Lemma missing_token_iff (GITHUB_TOKEN : option string) (cliArgs : CliArgs) :
  In missing_token (validateNonInteractiveMode GITHUB_TOKEN cliArgs)
  <-> truthy (token cliArgs) = false /\ truthy_env GITHUB_TOKEN = false.
Proof.
  rewrite validateNonInteractiveMode_eq, in_app_iff.
  destruct (truthy (token cliArgs)), (truthy_env GITHUB_TOKEN),
    (truthy (issue cliArgs)); cbn [negb andb In];
    intuition (try discriminate; auto).
Qed.

(** X4.  The argument after [--issue]/[-i] read as a flag is the issue,
    whatever it is, and the one after [--token]/[-t] is the token: the last
    such pair decides, and what follows without mentioning the flag does
    not change it.  A value that is not empty is then not reported as
    missing. *)
Theorem value_flag_takes_next_argument
  (a b : list string) (flag value : string) (GITHUB_TOKEN : option string) :
  dangling a = false ->
  (is_either "--issue" "-i" flag = true ->
   mentions issue_flags b = false ->
   issue (parseArgs (a ++ flag :: value :: b)) = Str value
   /\ (value <> "" ->
       ~ In missing_issue
           (validateNonInteractiveMode GITHUB_TOKEN
              (parseArgs (a ++ flag :: value :: b)))))
  /\ (is_either "--token" "-t" flag = true ->
      mentions token_flags b = false ->
      token (parseArgs (a ++ flag :: value :: b)) = Str value
      /\ (value <> "" ->
          ~ In missing_token
              (validateNonInteractiveMode GITHUB_TOKEN
                 (parseArgs (a ++ flag :: value :: b))))).
Proof.
  intros D.
  assert (T : value <> "" -> truthy (Str value) = true).
  { destruct value; [contradiction | reflexivity]. }
  split; intros F M.
  - assert (E : issue (parseArgs (a ++ flag :: value :: b)) = Str value).
    { unfold parseArgs. rewrite (parseArgs_from_split a _ _ D).
      apply is_either_true in F as [-> | ->]; rewrite parseArgs_from_cons;
        cbn [is_either String.eqb Ascii.eqb Bool.eqb orb];
        now rewrite keeps_issue. }
    split; [exact E|]. intros V. rewrite missing_issue_iff, E, (T V).
    discriminate.
  - assert (E : token (parseArgs (a ++ flag :: value :: b)) = Str value).
    { unfold parseArgs. rewrite (parseArgs_from_split a _ _ D).
      apply is_either_true in F as [-> | ->]; rewrite parseArgs_from_cons;
        cbn [is_either String.eqb Ascii.eqb Bool.eqb orb];
        now rewrite keeps_token. }
    split; [exact E|]. intros V. rewrite missing_token_iff, E, (T V).
    intros []; discriminate.
Qed.

Lemma value_flag_takes_next_argument_witness :
  issue (parseArgs (["-y"] ++ "-i" :: "--verbose" :: ["-d"])) = Str "--verbose"
  /\ verbose (parseArgs (["-y"] ++ "-i" :: "--verbose" :: ["-d"])) = false.
Proof.
  split; [|reflexivity].
  exact (proj1 (proj1 (value_flag_takes_next_argument ["-y"] ["-d"] "-i"
                         "--verbose" None eq_refl) eq_refl eq_refl)).
Defined.

(** X5.  [--issue]/[-i] read as a flag at the very end sets the issue to
    [undefined], also when an issue was given before, and the issue is
    then reported as missing; likewise for [--token]/[-t], whose token is
    reported as missing unless the environment holds one. *)
Theorem value_flag_without_value
  (a : list string) (flag : string) (GITHUB_TOKEN : option string) :
  dangling a = false ->
  (is_either "--issue" "-i" flag = true ->
   issue (parseArgs (a ++ [flag])) = Undefined
   /\ In missing_issue
        (validateNonInteractiveMode GITHUB_TOKEN (parseArgs (a ++ [flag]))))
  /\ (is_either "--token" "-t" flag = true ->
      token (parseArgs (a ++ [flag])) = Undefined
      /\ (truthy_env GITHUB_TOKEN = false ->
          In missing_token
            (validateNonInteractiveMode GITHUB_TOKEN
               (parseArgs (a ++ [flag]))))).
Proof.
  intros D. split; intros F.
  - assert (E : issue (parseArgs (a ++ [flag])) = Undefined).
    { unfold parseArgs. rewrite (parseArgs_from_split a _ _ D).
      now apply is_either_true in F as [-> | ->]. }
    split; [exact E|]. now rewrite missing_issue_iff, E.
  - assert (E : token (parseArgs (a ++ [flag])) = Undefined).
    { unfold parseArgs. rewrite (parseArgs_from_split a _ _ D).
      now apply is_either_true in F as [-> | ->]. }
    split; [exact E|]. intros G. now rewrite missing_token_iff, E.
Qed.

Lemma value_flag_without_value_witness :
  issue (parseArgs (["-i"; "owner/repo#1"; "-y"] ++ ["--issue"])) = Undefined
  /\ In missing_issue
       (validateNonInteractiveMode (Some "ghp_token")
          (parseArgs (["-i"; "owner/repo#1"; "-y"] ++ ["--issue"]))).
Proof.
  exact (proj1 (value_flag_without_value ["-i"; "owner/repo#1"; "-y"]
                  "--issue" (Some "ghp_token") eq_refl) eq_refl).
Defined.

(** X6.  Nothing on the command line takes a flag back: once [verbose] or
    [nonInteractive] is true it stays true, and once the mode is chosen it
    does not return to [null]. *)
Theorem parseArgs_from_never_resets (args : list string) (parsed : CliArgs) :
  (verbose parsed = true -> verbose (parseArgs_from args parsed) = true)
  /\ (nonInteractive parsed = true ->
      nonInteractive (parseArgs_from args parsed) = true)
  /\ (dryRun parsed <> None -> dryRun (parseArgs_from args parsed) <> None).
Proof.
  revert parsed. induction args as [|x|x y l IHl IHy] using args_ind;
    intros parsed.
  - now repeat split.
  - cbn [parseArgs_from]. flag_cases x; repeat split; auto; discriminate.
  - rewrite parseArgs_from_cons.
    flag_cases x; repeat split; intros H;
      first [ apply IHl; exact H | apply IHy; exact H
            | apply IHy; reflexivity | apply IHy; discriminate ].
Qed.

Lemma parseArgs_from_never_resets_witness :
  verbose (parseArgs_from ["-x"; "-i"; "-v"; "--live"] (parseArgs ["-v"]))
  = true.
Proof.
  exact (proj1 (parseArgs_from_never_resets ["-x"; "-i"; "-v"; "--live"]
                  (parseArgs ["-v"])) eq_refl).
Defined.

(** X7.  Nothing is reported missing exactly when the issue is a string
    that is not empty and a token that is not empty comes from the command
    line or from the environment; [null], [undefined] and the empty string
    all count as missing.  The token, when missing, is reported before the
    issue. *)
Theorem validateNonInteractiveMode_spec
  (GITHUB_TOKEN : option string) (cliArgs : CliArgs) :
  (validateNonInteractiveMode GITHUB_TOKEN cliArgs = []
   <-> (truthy (token cliArgs) = true \/ truthy_env GITHUB_TOKEN = true)
       /\ truthy (issue cliArgs) = true)
  /\ (In missing_token (validateNonInteractiveMode GITHUB_TOKEN cliArgs)
      <-> truthy (token cliArgs) = false /\ truthy_env GITHUB_TOKEN = false)
  /\ (In missing_issue (validateNonInteractiveMode GITHUB_TOKEN cliArgs)
      <-> truthy (issue cliArgs) = false)
  /\ (truthy (token cliArgs) = false -> truthy_env GITHUB_TOKEN = false ->
      truthy (issue cliArgs) = false ->
      validateNonInteractiveMode GITHUB_TOKEN cliArgs
      = [missing_token; missing_issue]).
Proof.
  split; [|split; [apply missing_token_iff | split;
                     [apply missing_issue_iff|]]].
  - unfold validateNonInteractiveMode.
    destruct (truthy (token cliArgs)), (truthy_env GITHUB_TOKEN),
      (truthy (issue cliArgs)); cbn [negb andb app]; split;
      try discriminate; try (intros [[|] ?]; discriminate); auto.
  - intros T E I. unfold validateNonInteractiveMode. now rewrite T, E, I.
Qed.

Lemma validateNonInteractiveMode_spec_witness :
  validateNonInteractiveMode (Some "") (parseArgs ["-y"; "-t"; ""; "-i"])
  = [missing_token; missing_issue].
Proof.
  exact (proj2 (proj2 (proj2
           (validateNonInteractiveMode_spec (Some "")
              (parseArgs ["-y"; "-t"; ""; "-i"])))) eq_refl eq_refl eq_refl).
Defined.

(** X8.  [getToken] and the validation read the environment alike.  When
    no token is reported missing although the command line gave none, the
    token of the environment is returned without any prompt; when the
    environment has no token, or an empty one, the prompt is shown and
    decides. *)
Theorem getToken_agrees_with_validation {World : Type}
  (GITHUB_TOKEN : option string) (cliArgs : CliArgs)
  (password : string -> string -> M World string) (env : Env World) :
  (truthy (token cliArgs) = false ->
   ~ In missing_token (validateNonInteractiveMode GITHUB_TOKEN cliArgs) ->
   exists tok,
     GITHUB_TOKEN = Some tok /\ tok <> ""
     /\ getToken GITHUB_TOKEN password env
        = (Returned tok,
           logged true ["✓ Using GITHUB_TOKEN from environment"] env))
  /\ (truthy_env GITHUB_TOKEN = false ->
      getToken GITHUB_TOKEN password env
      = password "Please enter your GitHub Personal Access Token:" "*"
          (logged true ["No GITHUB_TOKEN environment variable found."] env)).
Proof.
  split.
  - intros T N. rewrite missing_token_iff in N.
    destruct GITHUB_TOKEN as [[|c t]|].
    + exfalso. now apply N.
    + exists (String c t). now repeat split.
    + exfalso. now apply N.
  - intros E. destruct GITHUB_TOKEN as [[|c t]|]; try discriminate E;
      reflexivity.
Qed.

Lemma getToken_agrees_with_validation_witness :
  exists tok,
    Some "ghp_env" = Some tok /\ tok <> ""
    /\ getToken (Some "ghp_env") (fun _ _ => throw not_found) (start tt)
       = (Returned tok,
          logged true ["✓ Using GITHUB_TOKEN from environment"] (start tt)).
Proof.
  apply (proj1 (getToken_agrees_with_validation (Some "ghp_env")
                  (parseArgs ["-y"; "-i"; "owner/repo#1"])
                  (fun _ _ => throw not_found) (start tt))).
  - reflexivity.
  - intros H. apply missing_token_iff in H as [_ H]. discriminate H.
Defined.

(* ================================================================== *)
(** * What a traversal sends *)

Section Sends.
Context {World : Type}.
Variable octokit : Octokit World.
Variable ok : Request -> Prop.

Lemma sends_only_ret {A : Type} (a : A) : sends_only (World := World) ok (ret a).
Proof. intros env. exists []. now rewrite app_nil_r. Qed.

Lemma sends_only_throw {A : Type} (e : JsError) :
  sends_only (World := World) (A := A) ok (throw e).
Proof. intros env. exists []. now rewrite app_nil_r. Qed.

Lemma sends_only_out_of_fuel {A : Type} :
  sends_only (World := World) (A := A) ok out_of_fuel.
Proof. intros env. exists []. now rewrite app_nil_r. Qed.

Lemma sends_only_silent (m : M World unit) : silent m -> sends_only ok m.
Proof.
  intros H env. destruct (H env) as (e' & -> & A). destruct A as [_ Hr].
  exists []. cbn [snd]. now rewrite app_nil_r.
Qed.

Lemma sends_only_send {A : Type} (r : Request)
  (answer : World -> Response A * World) :
  ok r -> sends_only ok (send r answer).
Proof.
  intros H env. unfold send. destruct (answer (world env)) as [resp w].
  exists [r]. cbn [snd requests]. split; [reflexivity | now constructor].
Qed.

Lemma sends_only_bind {A B : Type} (m : M World A) (k : A -> M World B) :
  sends_only ok m -> (forall a, sends_only ok (k a)) ->
  sends_only ok (bind m k).
Proof.
  intros Hm Hk env. unfold bind. destruct (Hm env) as (a1 & E1 & F1).
  destruct (m env) as [[a|e|] env1]; cbn [snd] in *; try now exists a1.
  destruct (Hk a env1) as (a2 & E2 & F2).
  exists (a1 ++ a2)%list. rewrite E2, E1, app_assoc. split; [reflexivity|].
  now apply Forall_app.
Qed.

Lemma sends_only_try_catch {A : Type} (m : M World A)
  (handler : JsError -> M World A) :
  sends_only ok m -> (forall e, sends_only ok (handler e)) ->
  sends_only ok (try_catch m handler).
Proof.
  intros Hm Hh env. unfold try_catch. destruct (Hm env) as (a1 & E1 & F1).
  destruct (m env) as [[a|e|] env1]; cbn [snd] in *; try now exists a1.
  destruct (Hh e env1) as (a2 & E2 & F2).
  exists (a1 ++ a2)%list. rewrite E2, E1, app_assoc. split; [reflexivity|].
  now apply Forall_app.
Qed.

Lemma sends_only_for_of {A S : Type} (items : list A)
  (body : A -> S -> M World S) :
  (forall x acc, sends_only ok (body x acc)) ->
  forall acc, sends_only ok (for_of items acc body).
Proof.
  intros Hb. induction items as [|x items IH]; intros acc; cbn [for_of].
  - apply sends_only_ret.
  - apply sends_only_bind; [apply Hb | exact IH].
Qed.

End Sends.

Section Allowed.
Context {World : Type}.
Variable octokit : Octokit World.

Lemma sends_only_getIssue (dryRun : bool) (owner repo : option string)
  (issue_number : Z) :
  sends_only (allowed dryRun) (getIssue octokit owner repo issue_number).
Proof.
  apply sends_only_try_catch; [now apply sends_only_send|].
  intros e. destruct (status_is e 404); apply sends_only_throw.
Qed.

Lemma sends_only_getSubIssues (dryRun : bool) (owner repo : option string)
  (issue_number : Z) :
  sends_only (allowed dryRun) (getSubIssues octokit owner repo issue_number).
Proof.
  apply sends_only_try_catch; [now apply sends_only_send|].
  intros e. destruct (status_is e 404);
    [apply sends_only_ret | apply sends_only_throw].
Qed.

Lemma sends_only_closeIssue (owner repo : option string) (issue_number : Z) :
  sends_only (allowed false)
    (closeIssue octokit owner repo issue_number
       "All sub-issues are now complete").
Proof.
  apply sends_only_bind; [|intros _]; now apply sends_only_send.
Qed.

Ltac sends_leaf :=
  first
    [ apply sends_only_ret
    | apply sends_only_getIssue
    | apply sends_only_getSubIssues
    | apply sends_only_closeIssue
    | apply sends_only_silent;
      solve [auto using silent_log, silent_ret, silent_when, silent_if] ].

Ltac sends_seq := apply sends_only_bind; [sends_leaf | intros _].

Lemma sends_only_processIssueRecursively (fuel : nat) :
  forall (owner repo : option string) (issue_number : Z) (depth : nat)
         (dryRun verbose : bool),
    sends_only (allowed dryRun)
      (processIssueRecursively octokit fuel owner repo issue_number depth
         dryRun verbose).
Proof.
  induction fuel as [|fuel IH];
    intros owner repo issue_number depth dryRun verbose.
  - apply sends_only_out_of_fuel.
  - cbn [processIssueRecursively].
    apply sends_only_bind; [sends_leaf | intros issue].
    sends_seq.
    destruct (String.eqb (state issue) "closed"); [sends_seq; sends_leaf|].
    destruct (sub_issues_summary issue) as [s|]; [|sends_seq; sends_leaf].
    destruct (total s =? 0); [sends_seq; sends_leaf|].
    sends_seq.
    apply sends_only_bind; [sends_leaf | intros subIssues].
    apply sends_only_bind.
    { apply sends_only_for_of. intros x acc. unfold visit_subIssue.
      apply sends_only_bind; [apply IH | intros res; sends_leaf]. }
    intros [totalProcessed totalClosed].
    apply sends_only_bind; [sends_leaf | intros updatedIssue].
    destruct (is_complete (sub_issues_summary updatedIssue));
      [|sends_seq; sends_leaf].
    destruct dryRun; sends_seq; [sends_leaf|].
    sends_seq. sends_leaf.
Qed.

(** X9.  Whatever the store answers and however the run ends, every
    request a traversal sends is a fetch, a listing with a page size of
    100, or -- in a live run only -- an update to the state [closed] with
    the reason [completed] or the comment that announces the closure; and
    requests are only added after those sent before. *)
Theorem requests_are_allowed
  (fuel : nat) (owner repo : option string) (issue_number : Z) (depth : nat)
  (dryRun verbose : bool) (env : Env World) :
  exists added,
    requests
      (snd (processIssueRecursively octokit fuel owner repo issue_number
              depth dryRun verbose env))
    = (requests env ++ added)%list
    /\ Forall (allowed dryRun) added.
Proof. apply sends_only_processIssueRecursively. Qed.

(** X10.  A dry run never sends an update or a comment: whatever the store
    answers, whether the run returns, throws or runs out of fuel, the
    updates and comments among the requests are those that were there
    before. *)
Theorem dry_run_never_mutates
  (fuel : nat) (owner repo : option string) (issue_number : Z) (depth : nat)
  (verbose : bool) (env : Env World) :
  mutations
    (requests
       (snd (processIssueRecursively octokit fuel owner repo issue_number
               depth true verbose env)))
  = mutations (requests env).
Proof.
  destruct (sends_only_processIssueRecursively fuel owner repo issue_number
              depth true verbose env) as (added & -> & F).
  unfold mutations. rewrite filter_app.
  replace (filter is_mutation added) with (@nil Request);
    [apply app_nil_r|].
  induction F as [|r added Hr F IH]; [reflexivity|].
  cbn [filter]. destruct r; cbn [is_mutation]; try exact IH;
    destruct Hr as [Hr _]; discriminate Hr.
Qed.

End Allowed.

(* ================================================================== *)
(** * The account of a traversal that returns *)

Lemma mutations_app (a b : list Request) :
  mutations (a ++ b) = (mutations a ++ mutations b)%list.
Proof. apply filter_app. Qed.

Lemma listings_app (a b : list Request) :
  listings (a ++ b) = listings a + listings b.
Proof.
  unfold listings. now rewrite filter_app, length_app, Nat2Z.inj_add.
Qed.

Lemma listings_cons (r : Request) (l : list Request) :
  listings (r :: l) = (if is_listing r then 1 else 0) + listings l.
Proof.
  unfold listings. cbn [filter]. destruct (is_listing r); [|lia].
  cbn [List.length]. lia.
Qed.

Section Tally.
Context {World : Type}.
Variable octokit : Octokit World.

Lemma bind_inv {A B : Type} (m : M World A) (k : A -> M World B)
  (env env' : Env World) (b : B) :
  bind m k env = (Returned b, env') ->
  exists a e1, m env = (Returned a, e1) /\ k a e1 = (Returned b, env').
Proof.
  unfold bind. destruct (m env) as [[a|e|] e1]; try discriminate.
  intros H. now exists a, e1.
Qed.

Lemma getIssue_inv (owner repo : option string) (issue_number : Z)
  (env e1 : Env World) (issue : Issue) :
  getIssue octokit owner repo issue_number env = (Returned issue, e1) ->
  exists w,
    issues_get octokit owner repo issue_number (world env) = (inr issue, w)
    /\ e1 = sent env (IssuesGet owner repo issue_number) w.
Proof.
  unfold getIssue, try_catch, send.
  destruct (issues_get octokit owner repo issue_number (world env))
    as [[e|d] w].
  - destruct (status_is e 404); discriminate.
  - intros H. inversion H. now exists w.
Qed.

Lemma getSubIssues_inv (owner repo : option string) (issue_number : Z)
  (env e1 : Env World) (data : list SubIssue) :
  getSubIssues octokit owner repo issue_number env = (Returned data, e1) ->
  exists resp w,
    issues_listSubIssues octokit owner repo issue_number 100 (world env)
    = (resp, w)
    /\ e1 = sent env (IssuesListSubIssues owner repo issue_number 100) w
    /\ (resp = inr data
        \/ data = [] /\ exists e, resp = inl e /\ status e = Some 404).
Proof.
  unfold getSubIssues, try_catch, send.
  destruct (issues_listSubIssues octokit owner repo issue_number 100
              (world env)) as [[e|d] w].
  - destruct (status_is e 404) eqn:S4; [|discriminate].
    intros H. inversion H. exists (inl e), w. repeat split.
    right. split; [reflexivity|]. exists e. split; [reflexivity|].
    now apply status_is_404.
  - intros H. inversion H. exists (inr data), w. repeat split. now left.
Qed.

Lemma closeIssue_inv (owner repo : option string) (issue_number : Z)
  (reason : string) (env e1 : Env World) (u : unit) :
  closeIssue octokit owner repo issue_number reason env = (Returned u, e1) ->
  exists w1 w2,
    e1 = sent
           (sent env
              (IssuesUpdate owner repo issue_number "closed" "completed") w1)
           (IssuesCreateComment owner repo issue_number
              (closing_comment reason)) w2.
Proof.
  unfold closeIssue, bind, send.
  destruct (issues_update octokit owner repo issue_number "closed"
              "completed" (world env)) as [[e|d] w1]; [discriminate|].
  cbn [world].
  destruct (issues_createComment octokit owner repo issue_number
              (closing_comment reason) w1) as [[e|d'] w2]; [discriminate|].
  intros H. inversion H. now exists w1, w2.
Qed.

Lemma tally_step (dryRun : bool) (e1 e2 e3 : Env World) (r1 r2 : Z * Z) :
  tally dryRun e1 r1 e2 -> tally dryRun e2 r2 e3 ->
  tally dryRun e1 (fst r1 + fst r2, snd r1 + snd r2) e3.
Proof.
  intros (a1 & k1 & E1 & M1 & N1 & B1 & P1) (a2 & k2 & E2 & M2 & N2 & B2 & P2).
  exists (a1 ++ a2)%list, (k1 ++ k2)%list. cbn [fst snd].
  rewrite E2, E1, app_assoc, mutations_app, M1, M2, flat_map_app, length_app,
    Nat2Z.inj_add, N1, N2, listings_app.
  repeat split; try lia. clear. destruct dryRun; lia.
Qed.

Section Visit.
Variable self :
  option string -> option string -> Z -> nat -> bool -> bool -> M World Result.
Variables (dryRun verbose : bool).
Hypothesis Hself :
  forall owner repo issue_number depth env res env',
    self owner repo issue_number depth dryRun verbose env = (Returned res, env') ->
    tally dryRun env (processed res, closed res) env'.

Lemma visit_tally (depth : nat) (items : list SubIssue) :
  forall (p0 c0 : Z) (env : Env World) (p c : Z) (env' : Env World),
    for_of items (p0, c0) (visit_subIssue self depth dryRun verbose) env
    = (Returned (p, c), env') ->
    tally dryRun env (p - p0, c - c0) env'.
Proof.
  induction items as [|x items IH]; intros p0 c0 env p c env' H.
  - cbn [for_of] in H. inversion H; subst.
    exists [], []. rewrite app_nil_r, !Z.sub_diag. cbn.
    repeat split; try lia. clear. destruct dryRun; lia.
  - cbn [for_of] in H. apply bind_inv in H as ([p1 c1] & e1 & Hx & Hrest).
    unfold visit_subIssue in Hx.
    apply bind_inv in Hx as (res & e1' & Hcall & Hret).
    inversion Hret; subst. apply Hself in Hcall. apply IH in Hrest.
    pose proof (tally_step _ _ _ _ _ _ Hcall Hrest) as T.
    cbn [fst snd] in T.
    now replace (p - p0) with (processed res + (p - (p0 + processed res)))
      by lia;
      replace (c - c0) with (closed res + (c - (c0 + closed res))) by lia.
Qed.

End Visit.

Lemma tally_sent (dryRun : bool) (env : Env World) (r : Request) (w : World) :
  is_mutation r = false ->
  tally dryRun env (listings [r], 0) (sent env r w).
Proof.
  intros H. exists [r], []. unfold mutations, listings.
  cbn [sent requests filter]. rewrite H.
  repeat split; try reflexivity; try lia;
    first [ destruct dryRun; reflexivity | destruct (is_listing r); cbn; lia ].
Qed.

Lemma tally_logged (dryRun b : bool) (lines : list string) (env e' : Env World)
  (r : Z * Z) :
  tally dryRun env r e' -> tally dryRun env r (logged b lines e').
Proof.
  intros (a & k & E & H). exists a, k. now rewrite requests_logged.
Qed.

Lemma tally_more_processed (dryRun : bool) (env e' : Env World)
  (p p' c : Z) :
  tally dryRun env (p, c) e' -> p <= p' -> tally dryRun env (p', c) e'.
Proof.
  intros (a & k & E & M & N & B & P) L. exists a, k. cbn [fst snd] in *.
  repeat split; try assumption; lia.
Qed.

Ltac account :=
  repeat first
    [ rewrite requests_logged
    | progress cbn [requests fst snd]
    | progress unfold sent ].

(** The account of a call that returns. *)
Lemma run_tally (fuel : nat) :
  forall (owner repo : option string) (issue_number : Z) (depth : nat)
         (dryRun verbose : bool) (env : Env World) (res : Result)
         (env' : Env World),
    processIssueRecursively octokit fuel owner repo issue_number depth dryRun
      verbose env = (Returned res, env') ->
    tally dryRun env (processed res, closed res) env'.
Proof.
  induction fuel as [|fuel IH];
    intros owner repo issue_number depth dryRun verbose env res env' H.
  { discriminate H. }
  cbn [processIssueRecursively] in H.
  apply bind_inv in H as (issue & e1 & Hget & H).
  apply getIssue_inv in Hget as (w1 & _ & ->).
  rewrite (bind_returned _ _ _ _ _ (when_log _ _ _)) in H.
  assert (Tget : forall (e : Env World) (w : World),
             tally dryRun e (0, 0) (sent e (IssuesGet owner repo issue_number) w)).
  { intros e w.
    exact (tally_sent dryRun e (IssuesGet owner repo issue_number) w eq_refl). }
  destruct (String.eqb (state issue) "closed").
  { rewrite (bind_returned _ _ _ _ _ (when_log _ _ _)) in H.
    inversion H; subst. cbn [processed closed].
    apply tally_logged, tally_logged, Tget. }
  assert (Leaf : forall b line,
             (when b (console_log line) ;;;
              ret {| processed := 1; closed := 0 |})%js
               (logged verbose
                  [line_issue (repeat "  " depth)
                     (issueRef_of owner repo issue_number) issue]
                  (sent env (IssuesGet owner repo issue_number) w1))
             = (Returned res, env') ->
             tally dryRun env (processed res, closed res) env').
  { intros b line H'. rewrite (bind_returned _ _ _ _ _ (when_log _ _ _)) in H'.
    inversion H'; subst. cbn [processed closed].
    apply tally_logged, tally_logged.
    apply tally_more_processed with 0; [apply Tget | lia]. }
  destruct (sub_issues_summary issue) as [s|]; [|now apply Leaf in H].
  destruct (total s =? 0); [now apply Leaf in H|]. clear Leaf.
  rewrite (bind_returned _ _ _ _ _ (when_log _ _ _)) in H.
  apply bind_inv in H as (subIssues & e2 & Hlist & H).
  apply getSubIssues_inv in Hlist as (resp & w2 & _ & -> & _).
  apply bind_inv in H as ([p c] & e3 & Hvisit & H).
  apply (visit_tally (processIssueRecursively octokit fuel) dryRun verbose
           (fun o r n d e res' e' => IH o r n d dryRun verbose e res' e'))
    in Hvisit.
  destruct Hvisit as (al & kl & El & Ml & Nl & Bl & Pl).
  cbn [fst snd] in Nl, Bl, Pl. rewrite Z.sub_0_r in Nl, Bl.
  assert (Ereq : requests e3
                 = (requests env
                    ++ [IssuesGet owner repo issue_number;
                        IssuesListSubIssues owner repo issue_number 100]
                    ++ al)%list).
  { rewrite El. unfold sent. cbn [requests]. rewrite !requests_logged.
    cbn [requests]. now rewrite <- !app_assoc. }
  clear El.
  apply bind_inv in H as (updated & e4 & Hagain & H).
  apply getIssue_inv in Hagain as (w4 & _ & ->).
  assert (Lfront : forall tail,
             listings
               ([IssuesGet owner repo issue_number;
                 IssuesListSubIssues owner repo issue_number 100]
                ++ al ++ IssuesGet owner repo issue_number :: tail)
             = 1 + listings al + listings tail).
  { intros tail.
    change (IssuesGet owner repo issue_number :: tail)
      with ([IssuesGet owner repo issue_number] ++ tail)%list.
    rewrite !listings_app, !listings_cons. cbn [is_listing].
    change (listings []) with 0. lia. }
  assert (Mfront : forall tail,
             mutations
               ([IssuesGet owner repo issue_number;
                 IssuesListSubIssues owner repo issue_number 100]
                ++ al ++ IssuesGet owner repo issue_number :: tail)
             = (flat_map closing kl ++ mutations tail)%list).
  { intros tail.
    change (IssuesGet owner repo issue_number :: tail)
      with ([IssuesGet owner repo issue_number] ++ tail)%list.
    now rewrite !mutations_app, Ml. }
  destruct (is_complete (sub_issues_summary updated)).
  2:{ rewrite (bind_returned _ _ _ _ _ (when_log _ _ _)) in H.
      inversion H; subst. cbn [processed closed].
      exists ([IssuesGet owner repo issue_number;
               IssuesListSubIssues owner repo issue_number 100]
              ++ al ++ [IssuesGet owner repo issue_number])%list, kl.
      account.
      rewrite Ereq, Lfront, Mfront, <- !app_assoc.
      change (mutations []) with (@nil Request).
      change (listings []) with 0.
      rewrite app_nil_r. repeat split; try assumption; try lia. }
  destruct dryRun.
  - rewrite (bind_returned _ _ _ _ _ (log_either _ _ _ _)) in H.
    inversion H; subst. cbn [processed closed].
    exists ([IssuesGet owner repo issue_number;
             IssuesListSubIssues owner repo issue_number 100]
            ++ al ++ [IssuesGet owner repo issue_number])%list, kl.
    account.
    rewrite Ereq, Lfront, Mfront, <- !app_assoc.
    change (mutations []) with (@nil Request).
    change (listings []) with 0.
    rewrite app_nil_r. repeat split; try assumption; try lia.
  - rewrite (bind_returned _ _ _ _ _ (log_either _ _ _ _)) in H.
    apply bind_inv in H as (u & e5 & Hclose & H).
    apply closeIssue_inv in Hclose as (w5 & w6 & ->).
    inversion H; subst. cbn [processed closed].
    exists ([IssuesGet owner repo issue_number;
             IssuesListSubIssues owner repo issue_number 100]
            ++ al
            ++ IssuesGet owner repo issue_number
               :: closing (owner, repo, issue_number))%list,
      (kl ++ [(owner, repo, issue_number)])%list.
    account.
    rewrite Ereq, Lfront, Mfront, <- !app_assoc, flat_map_app, length_app,
      Nat2Z.inj_add.
    cbn [closing flat_map app List.length]. rewrite !listings_cons.
    cbn [is_listing]. change (listings []) with 0.
    repeat split; try reflexivity; try lia.
Qed.

(** X11.  In a live run that returns, the updates and comments sent are,
    in order, the closing pairs -- the update to [closed]/[completed], then
    the comment -- of some issues, and [closed] is the number of these
    issues: every closure counted was sent, and nothing else was changed. *)
Theorem closures_are_counted
  (fuel : nat) (owner repo : option string) (issue_number : Z) (depth : nat)
  (verbose : bool) (env : Env World) (res : Result) (env' : Env World) :
  processIssueRecursively octokit fuel owner repo issue_number depth false
    verbose env = (Returned res, env') ->
  exists added ks,
    requests env' = (requests env ++ added)%list
    /\ mutations added = flat_map closing ks
    /\ Z.of_nat (List.length ks) = closed res.
Proof.
  intros H. apply run_tally in H as (added & ks & E & M & N & _).
  now exists added, ks.
Qed.

(** X12.  In a run that returns, live or dry, the closures counted are at
    most the listings sent, and these are at most the issues counted as
    processed; so [0 <= closed <= processed]. *)
Theorem counts_are_bounded
  (fuel : nat) (owner repo : option string) (issue_number : Z) (depth : nat)
  (dryRun verbose : bool) (env : Env World) (res : Result) (env' : Env World) :
  processIssueRecursively octokit fuel owner repo issue_number depth dryRun
    verbose env = (Returned res, env') ->
  exists added,
    requests env' = (requests env ++ added)%list
    /\ 0 <= closed res <= listings added
    /\ listings added <= processed res.
Proof.
  intros H. apply run_tally in H as (added & ks & E & _ & _ & B & P).
  now exists added.
Qed.

End Tally.

Lemma closures_are_counted_witness :
  exists added ks,
    requests
      (snd (processIssueRecursively three_levels 3 (Some "owner")
              (Some "repo") 1 0 false false (start tt)))
    = (requests (start tt) ++ added)%list
    /\ mutations added = flat_map closing ks
    /\ Z.of_nat (List.length ks) = 2.
Proof.
  apply (closures_are_counted three_levels 3 (Some "owner") (Some "repo") 1 0
           false (start tt) {| processed := 2; closed := 2 |}).
  reflexivity.
Defined.

Lemma counts_are_bounded_witness :
  exists added,
    requests
      (snd (processIssueRecursively three_levels 3 (Some "owner")
              (Some "repo") 1 0 true false (start tt)))
    = (requests (start tt) ++ added)%list
    /\ 0 <= 2 <= listings added
    /\ listings added <= 2.
Proof.
  apply (counts_are_bounded three_levels 3 (Some "owner") (Some "repo") 1 0
           true false (start tt) {| processed := 2; closed := 2 |}).
  reflexivity.
Defined.

(* ================================================================== *)
(** * Stores whose hierarchy is well founded, and one that is not *)

Section Ranked.
Context {World : Type}.
Variable octokit : Octokit World.

Lemma settles_bind {A B : Type} (m : M World A) (k : A -> M World B)
  (env : Env World) :
  fst (m env) <> OutOfFuel ->
  (forall a e1, m env = (Returned a, e1) -> fst (k a e1) <> OutOfFuel) ->
  fst (bind m k env) <> OutOfFuel.
Proof.
  unfold bind. destruct (m env) as [[a|e|] e1]; cbn [fst]; intros H K.
  - now apply K.
  - discriminate.
  - now contradiction H.
Qed.

Lemma settles_when (b : bool) (line : string) (env : Env World) :
  fst (when b (console_log line) env) <> OutOfFuel.
Proof. rewrite when_log. discriminate. Qed.

Lemma settles_either (b : bool) (l1 l2 : string) (env : Env World) :
  fst ((if b then console_log l1 else console_log l2) env) <> OutOfFuel.
Proof. rewrite log_either. discriminate. Qed.

Lemma settles_getIssue (owner repo : option string) (issue_number : Z)
  (env : Env World) :
  fst (getIssue octokit owner repo issue_number env) <> OutOfFuel.
Proof.
  unfold getIssue, try_catch, send.
  destruct (issues_get octokit owner repo issue_number (world env))
    as [[e|d] w]; [destruct (status_is e 404)|]; discriminate.
Qed.

Lemma settles_getSubIssues (owner repo : option string) (issue_number : Z)
  (env : Env World) :
  fst (getSubIssues octokit owner repo issue_number env) <> OutOfFuel.
Proof.
  unfold getSubIssues, try_catch, send.
  destruct (issues_listSubIssues octokit owner repo issue_number 100
              (world env)) as [[e|d] w]; [destruct (status_is e 404)|];
    discriminate.
Qed.

Lemma settles_closeIssue (owner repo : option string) (issue_number : Z)
  (reason : string) (env : Env World) :
  fst (closeIssue octokit owner repo issue_number reason env) <> OutOfFuel.
Proof.
  unfold closeIssue, bind, send.
  destruct (issues_update octokit owner repo issue_number "closed"
              "completed" (world env)) as [[e|d] w1]; [discriminate|].
  cbn [world].
  destruct (issues_createComment octokit owner repo issue_number
              (closing_comment reason) w1) as [[e|d'] w2]; discriminate.
Qed.

Lemma settles_for_of {A S : Type} (body : A -> S -> M World S)
  (items : list A) :
  (forall x, In x items ->
             forall acc env, fst (body x acc env) <> OutOfFuel) ->
  forall acc env, fst (for_of items acc body env) <> OutOfFuel.
Proof.
  induction items as [|x items IH]; intros H acc env.
  - discriminate.
  - cbn [for_of]. apply settles_bind.
    + apply H. now left.
    + intros acc' e1 _. apply IH. intros y Hy. apply H. now right.
Qed.

Lemma more_fuel_changes_nothing (fuel more : nat) (owner repo : option string)
  (issue_number : Z) (depth : nat) (dryRun verbose : bool) (env : Env World) :
  fst (processIssueRecursively octokit fuel owner repo issue_number depth
         dryRun verbose env) <> OutOfFuel ->
  processIssueRecursively octokit (fuel + more) owner repo issue_number depth
    dryRun verbose env
  = processIssueRecursively octokit fuel owner repo issue_number depth dryRun
      verbose env.
Proof.
  intros H. induction more as [|more IH].
  - now rewrite Nat.add_0_r.
  - rewrite Nat.add_succ_r.
    rewrite (processIssueRecursively_more_fuel octokit (fuel + more) owner
               repo issue_number depth dryRun verbose env);
      [exact IH | now rewrite IH].
Qed.

Variable rank : option string * option string * Z -> nat.
Hypothesis Hrank : rank_decreases octokit rank.

Lemma ranked_settles (fuel : nat) :
  forall (owner repo : option string) (issue_number : Z) (depth : nat)
         (dryRun verbose : bool) (env : Env World),
    (rank (owner, repo, issue_number) < fuel)%nat ->
    fst (processIssueRecursively octokit fuel owner repo issue_number depth
           dryRun verbose env) <> OutOfFuel.
Proof.
  induction fuel as [|fuel IH];
    intros owner repo issue_number depth dryRun verbose env Hfuel; [lia|].
  cbn [processIssueRecursively].
  apply settles_bind; [apply settles_getIssue|]. intros issue e1 _.
  apply settles_bind; [apply settles_when|]. intros _ e2 _.
  assert (Leaf : forall (b : bool) (line : string) (res : Result)
                        (e : Env World),
             fst ((when b (console_log line) ;;; ret res)%js e) <> OutOfFuel).
  { intros b line res e. apply settles_bind; [apply settles_when|].
    discriminate. }
  destruct (String.eqb (state issue) "closed"); [apply Leaf|].
  destruct (sub_issues_summary issue) as [s|]; [|apply Leaf].
  destruct (total s =? 0); [apply Leaf|].
  apply settles_bind; [apply settles_when|]. intros _ e3 _.
  apply settles_bind; [apply settles_getSubIssues|]. intros subIssues e4 Hlist.
  apply settles_bind.
  { apply settles_for_of. intros subIssue Hin acc e.
    unfold visit_subIssue. apply settles_bind; [|discriminate].
    apply IH.
    apply getSubIssues_inv in Hlist as (resp & w & Hl & _ & [-> | [-> _]]);
      [|contradiction Hin].
    apply Hrank in Hl. rewrite Forall_forall in Hl.
    specialize (Hl subIssue Hin). unfold reference_of in Hl. lia. }
  intros [totalProcessed totalClosed] e5 _.
  apply settles_bind; [apply settles_getIssue|]. intros updatedIssue e6 _.
  destruct (is_complete (sub_issues_summary updatedIssue)); [|apply Leaf].
  destruct dryRun.
  - apply settles_bind; [apply settles_either | discriminate].
  - apply settles_bind; [apply settles_either|]. intros _ e7 _.
    apply settles_bind; [apply settles_closeIssue | discriminate].
Qed.

(** X13.  On a store whose hierarchy is well founded -- the sub-issues it
    lists for an issue always have a smaller rank than the issue -- the
    traversal ends: with more fuel than the rank of the root, the call
    returns or throws, and what it does is the same with any more fuel. *)
Theorem well_founded_hierarchy_ends
  (fuel more : nat) (owner repo : option string) (issue_number : Z)
  (depth : nat) (dryRun verbose : bool) (env : Env World) :
  (rank (owner, repo, issue_number) < fuel)%nat ->
  fst (processIssueRecursively octokit fuel owner repo issue_number depth
         dryRun verbose env) <> OutOfFuel
  /\ processIssueRecursively octokit (fuel + more) owner repo issue_number
       depth dryRun verbose env
     = processIssueRecursively octokit fuel owner repo issue_number depth
         dryRun verbose env.
Proof.
  intros Hfuel.
  pose proof (ranked_settles fuel owner repo issue_number depth dryRun verbose
                env Hfuel) as H.
  split; [exact H | now apply more_fuel_changes_nothing].
Qed.

End Ranked.

Lemma well_founded_hierarchy_ends_witness :
  fst (processIssueRecursively three_levels 4 (Some "owner") (Some "repo") 1
         0 false true (start tt)) <> OutOfFuel
  /\ processIssueRecursively three_levels (4 + 3) (Some "owner")
       (Some "repo") 1 0 false true (start tt)
     = processIssueRecursively three_levels 4 (Some "owner") (Some "repo") 1
         0 false true (start tt).
Proof.
  apply (well_founded_hierarchy_ends three_levels
           (fun k => Z.to_nat (4 - snd k)) ).
  - intros o r n [] data [] H. unfold three_levels, fixed_store in H.
    cbn [issues_listSubIssues] in H.
    destruct (is_repo "owner" "repo" o r && ((n =? 1) || (n =? 2))) eqn:E;
      [|discriminate H].
    apply andb_true_iff in E as [_ E]. apply orb_true_iff in E.
    inversion H; subst. constructor; [|constructor].
    unfold reference_of. cbn [number snd]. lia.
  - cbn [snd]. lia.
Defined.

Section Cycle.
Context {World : Type}.
Variable octokit : Octokit World.

(** X14.  Cycles are not detected.  When the store always answers that an
    issue is open with a summary whose [total] is not 0, and always lists
    it first among its own sub-issues, the call on this issue neither
    returns nor throws, however deep the recursion may go. *)
Theorem own_sub_issue_never_returns
  (owner repo : option string) (issue_number : Z) :
  (forall w, exists issue subIssueSummary w',
      issues_get octokit owner repo issue_number w = (inr issue, w')
      /\ String.eqb (state issue) "closed" = false
      /\ sub_issues_summary issue = Some subIssueSummary
      /\ (total subIssueSummary =? 0) = false) ->
  (forall w, exists subIssue rest w',
      issues_listSubIssues octokit owner repo issue_number 100 w
      = (inr (subIssue :: rest), w')
      /\ reference_of subIssue = (owner, repo, issue_number)) ->
  forall (fuel depth : nat) (dryRun verbose : bool) (env : Env World),
    fst (processIssueRecursively octokit fuel owner repo issue_number depth
           dryRun verbose env) = OutOfFuel.
Proof.
  intros Hget Hlist fuel.
  induction fuel as [|fuel IH]; intros depth dryRun verbose env;
    [reflexivity|].
  cbn [processIssueRecursively].
  destruct (Hget (world env)) as (issue & s & w1 & Hg & Hstate & Hsum & Htotal).
  rewrite (bind_returned _ _ _ _ _
             (getIssue_resolved octokit _ _ _ _ _ _ Hg)).
  rewrite (bind_returned _ _ _ _ _ (when_log _ _ _)).
  rewrite Hstate, Hsum, Htotal.
  rewrite (bind_returned _ _ _ _ _ (when_log _ _ _)).
  match goal with
  | |- fst (bind _ _ ?e) = _ =>
      destruct (Hlist (world e)) as (subIssue & rest & w2 & Hl & Href);
      rewrite (bind_returned _ _ _ _ _
                 (getSubIssues_resolved octokit _ _ _ e _ _ Hl))
  end.
  cbn [for_of]. unfold visit_subIssue.
  unfold reference_of in Href. inversion Href as [[Ho Hr Hn]].
  rewrite Ho, Hr, Hn.
  match goal with
  | |- fst (bind (bind (bind ?m _) _) _ ?e) = _ =>
      specialize (IH (depth + 1)%nat dryRun verbose e);
      unfold bind; destruct (m e) as [[a|err|] e'];
      cbn [fst] in IH; try discriminate IH; reflexivity
  end.
Qed.

End Cycle.

Lemma own_sub_issue_never_returns_witness :
  fst (processIssueRecursively own_sub_issue 1000 (Some "owner")
         (Some "repo") 1 0 true false (start tt)) = OutOfFuel.
Proof.
  refine (own_sub_issue_never_returns own_sub_issue (Some "owner")
            (Some "repo") 1 _ _ 1000%nat 0%nat true false (start tt)).
  - intros w. exists (open_parent 1 0 0),
      {| total := 1; completed := 0; percent_completed := 0 |}, w.
    repeat split; reflexivity.
  - intros w.
    exists {| number := 1;
              repository_url := "https://api.github.com/repos/owner/repo" |},
      [], w.
    split; reflexivity.
Defined.

(* ================================================================== *)
(** * The console of a quiet run *)

Section Quiet.
Context {World : Type}.
Variable octokit : Octokit World.

Lemma written_step (e1 e2 e3 : Env World) (a b : Z) :
  written e1 e2 a -> written e2 e3 b -> written e1 e3 (a + b).
Proof.
  intros (l1 & E1 & N1) (l2 & E2 & N2). exists (l1 ++ l2)%list.
  rewrite E2, E1, app_assoc, length_app, Nat2Z.inj_add. split; [reflexivity|lia].
Qed.

Lemma written_nothing (env e' : Env World) :
  console e' = console env -> written env e' 0.
Proof. intros E. exists []. now rewrite app_nil_r. Qed.

Section Visit.
Variable self :
  option string -> option string -> Z -> nat -> bool -> bool -> M World Result.
Variable dryRun : bool.
Hypothesis Hself :
  forall owner repo issue_number depth env res env',
    self owner repo issue_number depth dryRun false env = (Returned res, env') ->
    written env env' (closed res).

Lemma visit_written (depth : nat) (items : list SubIssue) :
  forall (p0 c0 : Z) (env : Env World) (p c : Z) (env' : Env World),
    for_of items (p0, c0) (visit_subIssue self depth dryRun false) env
    = (Returned (p, c), env') ->
    written env env' (c - c0).
Proof.
  induction items as [|x items IH]; intros p0 c0 env p c env' H.
  - cbn [for_of] in H. inversion H; subst. rewrite Z.sub_diag.
    now apply written_nothing.
  - cbn [for_of] in H. apply bind_inv in H as ([p1 c1] & e1 & Hx & Hrest).
    unfold visit_subIssue in Hx.
    apply bind_inv in Hx as (res & e1' & Hcall & Hret).
    inversion Hret; subst. apply Hself in Hcall. apply IH in Hrest.
    cbn [fst snd] in Hrest.
    replace (c - c0) with (closed res + (c - (c0 + closed res))) by lia.
    now apply written_step with e1.
Qed.

End Visit.

(** The lines of a quiet call that returns. *)
Lemma run_written (fuel : nat) :
  forall (owner repo : option string) (issue_number : Z) (depth : nat)
         (dryRun : bool) (env : Env World) (res : Result) (env' : Env World),
    processIssueRecursively octokit fuel owner repo issue_number depth dryRun
      false env = (Returned res, env') ->
    written env env' (closed res).
Proof.
  induction fuel as [|fuel IH];
    intros owner repo issue_number depth dryRun env res env' H.
  { discriminate H. }
  cbn [processIssueRecursively] in H.
  apply bind_inv in H as (issue & e1 & Hget & H).
  apply getIssue_inv in Hget as (w1 & _ & ->).
  cbn [when] in H. unfold bind at 1 in H. cbn [ret] in H.
  assert (Leaf : forall (res0 : Result),
             closed res0 = 0 ->
             (ret tt ;;; ret res0)%js
               (sent env (IssuesGet owner repo issue_number) w1)
             = (Returned res, env') ->
             written env env' (closed res)).
  { intros res0 H0 H'. inversion H'; subst. rewrite H0.
    now apply written_nothing. }
  destruct (String.eqb (state issue) "closed");
    [now apply Leaf in H|].
  destruct (sub_issues_summary issue) as [s|]; [|now apply Leaf in H].
  destruct (total s =? 0); [now apply Leaf in H|]. clear Leaf.
  unfold bind at 1 in H. cbn [ret] in H.
  apply bind_inv in H as (subIssues & e2 & Hlist & H).
  apply getSubIssues_inv in Hlist as (resp & w2 & _ & -> & _).
  apply bind_inv in H as ([p c] & e3 & Hvisit & H).
  apply (visit_written (processIssueRecursively octokit fuel) dryRun
           (fun o r n d e res' e' => IH o r n d dryRun e res' e'))
    in Hvisit.
  destruct Hvisit as (ll & El & Nl). rewrite Z.sub_0_r in Nl.
  cbn [sent console] in El.
  apply bind_inv in H as (updated & e4 & Hagain & H).
  apply getIssue_inv in Hagain as (w4 & _ & ->).
  destruct (is_complete (sub_issues_summary updated)).
  2:{ inversion H; subst. cbn [closed]. exists ll. now split. }
  destruct dryRun.
  - apply bind_inv in H as (u & e5 & Hlog & H).
    unfold console_log in Hlog. inversion Hlog; subst.
    inversion H; subst. cbn [closed sent console].
    exists (ll ++ [line_would_be_closed
                     (issueRef_of owner repo issue_number) issue])%list.
    rewrite El, <- app_assoc, length_app, Nat2Z.inj_add.
    split; [reflexivity | cbn; lia].
  - apply bind_inv in H as (u & e5 & Hlog & H).
    unfold console_log in Hlog. inversion Hlog; subst.
    apply bind_inv in H as (u' & e6 & Hclose & H).
    apply closeIssue_inv in Hclose as (w5 & w6 & ->).
    inversion H; subst. cbn [closed sent console].
    exists (ll ++ [line_closed
                     (issueRef_of owner repo issue_number) issue])%list.
    rewrite El, <- app_assoc, length_app, Nat2Z.inj_add.
    split; [reflexivity | cbn; lia].
Qed.

(** X15.  A quiet run that returns, live or dry, has written to the
    console exactly as many lines as it counts closures: one for each issue
    closed, or that would be closed, and none for the others. *)
Theorem quiet_run_writes_one_line_per_closure
  (fuel : nat) (owner repo : option string) (issue_number : Z) (depth : nat)
  (dryRun : bool) (env : Env World) (res : Result) (env' : Env World) :
  processIssueRecursively octokit fuel owner repo issue_number depth dryRun
    false env = (Returned res, env') ->
  exists lines,
    console env' = (console env ++ lines)%list
    /\ Z.of_nat (List.length lines) = closed res.
Proof. intros H. exact (run_written _ _ _ _ _ _ _ _ _ H). Qed.

End Quiet.

Lemma quiet_run_writes_one_line_per_closure_witness :
  exists lines,
    console
      (snd (processIssueRecursively three_levels 3 (Some "owner")
              (Some "repo") 1 0 true false (start tt)))
    = (console (start tt) ++ lines)%list
    /\ Z.of_nat (List.length lines) = 2.
Proof.
  apply (quiet_run_writes_one_line_per_closure three_levels 3 (Some "owner")
           (Some "repo") 1 0 true (start tt)
           {| processed := 2; closed := 2 |}).
  reflexivity.
Defined.

(* ================================================================== *)
(** * Updates and comments go in pairs *)

Section Pairs.
Context {World : Type}.
Variable octokit : Octokit World.

Lemma in_pairs_reads {A : Type} (m : M World A) :
  sends_only (fun r => is_mutation r = false) m -> in_pairs m.
Proof.
  intros H env. destruct (H env) as (added & E & F).
  exists added, [], []. split; [exact E|]. split; [|now left].
  cbn [flat_map app]. unfold mutations. clear E.
  induction F as [|r added Hr F IH]; [reflexivity|].
  cbn [filter]. now rewrite Hr.
Qed.

Lemma in_pairs_bind {A B : Type} (m : M World A) (k : A -> M World B) :
  in_pairs m -> (forall a, in_pairs (k a)) -> in_pairs (bind m k).
Proof.
  intros Hm Hk env. unfold bind.
  destruct (Hm env) as (a1 & k1 & t1 & E1 & M1 & T1).
  destruct (m env) as [[a|e|] env1]; cbn [fst snd] in *.
  2:{ exists a1, k1, t1. split; [exact E1|]. split; [exact M1|].
      destruct T1 as [T1 | [L _]]; [now left | right].
      split; [exact L | now exists e]. }
  2:{ exists a1, k1, t1. split; [exact E1|]. split; [exact M1|].
      destruct T1 as [T1 | [_ [e He]]]; [now left | discriminate He]. }
  destruct T1 as [-> | [_ [e He]]]; [|discriminate He].
  rewrite app_nil_r in M1.
  destruct (Hk a env1) as (a2 & k2 & t2 & E2 & M2 & T2).
  exists (a1 ++ a2)%list, (k1 ++ k2)%list, t2.
  rewrite E2, E1, app_assoc, mutations_app, M1, M2, flat_map_app, app_assoc.
  split; [reflexivity|]. split; [reflexivity | exact T2].
Qed.

Lemma in_pairs_for_of {A S : Type} (items : list A)
  (body : A -> S -> M World S) :
  (forall x acc, in_pairs (body x acc)) ->
  forall acc, in_pairs (for_of items acc body).
Proof.
  intros Hb. induction items as [|x items IH]; intros acc; cbn [for_of].
  - apply in_pairs_reads, sends_only_ret.
  - apply in_pairs_bind; [apply Hb | exact IH].
Qed.

Lemma in_pairs_getIssue (owner repo : option string) (issue_number : Z) :
  in_pairs (getIssue octokit owner repo issue_number).
Proof.
  apply in_pairs_reads.
  apply sends_only_try_catch; [now apply sends_only_send|].
  intros e. destruct (status_is e 404); apply sends_only_throw.
Qed.

Lemma in_pairs_getSubIssues (owner repo : option string) (issue_number : Z) :
  in_pairs (getSubIssues octokit owner repo issue_number).
Proof.
  apply in_pairs_reads.
  apply sends_only_try_catch; [now apply sends_only_send|].
  intros e. destruct (status_is e 404);
    [apply sends_only_ret | apply sends_only_throw].
Qed.

Lemma in_pairs_closeIssue (owner repo : option string) (issue_number : Z) :
  in_pairs
    (closeIssue octokit owner repo issue_number
       "All sub-issues are now complete").
Proof.
  intros env. unfold closeIssue, bind, send.
  destruct (issues_update octokit owner repo issue_number "closed"
              "completed" (world env)) as [[e|d] w1].
  - exists [IssuesUpdate owner repo issue_number "closed" "completed"], [],
      [IssuesUpdate owner repo issue_number "closed" "completed"].
    cbn [fst snd requests]. repeat split. right. split.
    + now exists owner, repo, issue_number.
    + now exists e.
  - cbn [world].
    destruct (issues_createComment octokit owner repo issue_number
                (closing_comment "All sub-issues are now complete") w1)
      as [resp w2].
    exists (closing (owner, repo, issue_number)),
      [(owner, repo, issue_number)], [].
    cbn [fst snd requests]. rewrite <- app_assoc.
    repeat split. now left.
Qed.

Lemma in_pairs_silent (m : M World unit) : silent m -> in_pairs m.
Proof. intros H. now apply in_pairs_reads, sends_only_silent. Qed.

Ltac pairs_leaf :=
  first
    [ apply in_pairs_reads, sends_only_ret
    | apply in_pairs_getIssue
    | apply in_pairs_getSubIssues
    | apply in_pairs_closeIssue
    | apply in_pairs_silent;
      solve [auto using silent_log, silent_ret, silent_when, silent_if] ].

Ltac pairs_seq := apply in_pairs_bind; [pairs_leaf | intros _].

Lemma in_pairs_processIssueRecursively (fuel : nat) :
  forall (owner repo : option string) (issue_number : Z) (depth : nat)
         (dryRun verbose : bool),
    in_pairs
      (processIssueRecursively octokit fuel owner repo issue_number depth
         dryRun verbose).
Proof.
  induction fuel as [|fuel IH];
    intros owner repo issue_number depth dryRun verbose.
  - apply in_pairs_reads, sends_only_out_of_fuel.
  - cbn [processIssueRecursively].
    apply in_pairs_bind; [pairs_leaf | intros issue].
    pairs_seq.
    destruct (String.eqb (state issue) "closed"); [pairs_seq; pairs_leaf|].
    destruct (sub_issues_summary issue) as [s|]; [|pairs_seq; pairs_leaf].
    destruct (total s =? 0); [pairs_seq; pairs_leaf|].
    pairs_seq.
    apply in_pairs_bind; [pairs_leaf | intros subIssues].
    apply in_pairs_bind.
    { apply in_pairs_for_of. intros x acc. unfold visit_subIssue.
      apply in_pairs_bind; [apply IH | intros res; pairs_leaf]. }
    intros [totalProcessed totalClosed].
    apply in_pairs_bind; [pairs_leaf | intros updatedIssue].
    destruct (is_complete (sub_issues_summary updatedIssue));
      [|pairs_seq; pairs_leaf].
    destruct dryRun; pairs_seq; [pairs_leaf|].
    pairs_seq. pairs_leaf.
Qed.

(** X16.  However a traversal ends, the updates and comments it has sent
    are closing pairs -- the update of an issue, then the comment on the
    same issue -- one after the other; a comment is never sent without the
    update before it.  Only a traversal that throws can end on an update
    without its comment: the issue is then closed, or not, without the
    comment, and nothing is undone. *)
Theorem updates_and_comments_go_in_pairs
  (fuel : nat) (owner repo : option string) (issue_number : Z) (depth : nat)
  (dryRun verbose : bool) (env : Env World) :
  exists added ks tail,
    requests
      (snd (processIssueRecursively octokit fuel owner repo issue_number
              depth dryRun verbose env))
    = (requests env ++ added)%list
    /\ mutations added = (flat_map closing ks ++ tail)%list
    /\ (tail = []
        \/ lone_update tail
           /\ exists e,
               fst (processIssueRecursively octokit fuel owner repo
                      issue_number depth dryRun verbose env) = Thrown e).
Proof. apply in_pairs_processIssueRecursively. Qed.

End Pairs.

(* ================================================================== *)
(** * What the resolver returns *)

Lemma url_match_captures (s : string) (caps : list string) :
  str_match s urlPattern = Some caps ->
  exists ns name digits,
    caps = [ns; name; digits]
    /\ run_of (NoneOf "/") ns = true
    /\ run_of (NoneOf "/") name = true
    /\ run_of Digit digits = true.
Proof.
  unfold str_match, urlPattern. cbn [from_start atoms to_end].
  intros H. apply search_inv in H as (pre & s' & -> & H).
  cbn [match_here] in H.
  destruct (strip_prefix "github.com/" s') as [r0|] eqn:P0; [|discriminate].
  destruct (take (NoneOf "/") _ r0) as [[ns caps1]|] eqn:T1; [|discriminate].
  inversion H; subst caps; clear H.
  apply take_inv in T1 as (r1 & -> & Hns & K1).
  destruct (strip_prefix "/" r1) as [r1'|] eqn:P1; [|discriminate].
  destruct (take (NoneOf "/") _ r1') as [[name caps2]|] eqn:T2; [|discriminate].
  inversion K1; subst caps1; clear K1.
  apply take_inv in T2 as (r2 & -> & Hname & K2).
  destruct (strip_prefix "/issues/" r2) as [r2'|] eqn:P2; [|discriminate].
  destruct (take Digit _ r2') as [[digits caps3]|] eqn:T3; [|discriminate].
  inversion K2; subst caps2; clear K2.
  apply take_inv in T3 as (r3 & -> & Hd & K3).
  inversion K3; subst caps3.
  now exists ns, name, digits.
Qed.

(** The Number nearest to a number that is not negative is not negative,
    and no [NaN]. *)
Lemma to_Number_nonneg (n : Z) :
  0 <= n ->
  match to_Number n with
  | Int m => 0 <= m
  | Infinity negative => negative = false
  | NaN => False
  end.
Proof.
  intros Hn. unfold to_Number.
  destruct (Z.abs n <? 2 ^ 53); [exact Hn|].
  cbv zeta.
  match goal with
  | |- context [Z.shiftl (if ?b then ?q + 1 else ?q) ?e] =>
      assert (Hv : 0 <= Z.shiftl (if b then q + 1 else q) e);
      [ apply Z.shiftl_nonneg;
        assert (0 <= q) by (apply Z.shiftr_nonneg; lia);
        destruct b; lia
      | destruct (2 ^ 1024 <=? Z.shiftl (if b then q + 1 else q) e) ]
  end.
  - now apply Z.ltb_ge.
  - apply Z.mul_nonneg_nonneg; [|exact Hv]. now apply Z.sgn_nonneg.
Qed.

(** X17.  What the resolver returns is well formed.  The owner is a
    non-empty text without slash, the repository is not empty, and the
    number is the Number nearest to the one written by a non-empty run of
    digits: never [NaN], never negative, and an integer unless the digits
    write so much that it is [Infinity].  The repository holds no hash
    when the input has the compact form, and no slash when the address
    pattern was used. *)
Theorem parseIssueInput_is_well_formed (s : string) (ref : IssueRef) :
  parseIssueInput s = Some ref ->
  run_of (NoneOf "/") (owner ref) = true
  /\ repo ref <> ""
  /\ (exists digits,
        run_of Digit digits = true
        /\ issue_number ref = to_Number (decimal_value digits))
  /\ match issue_number ref with
     | Int n => 0 <= n
     | Infinity negative => negative = false
     | NaN => False
     end
  /\ (compact_form s /\ run_of (NoneOf "#") (repo ref) = true
      \/ ~ compact_form s /\ address_form s
         /\ run_of (NoneOf "/") (repo ref) = true).
Proof.
  assert (N : forall digits,
             run_of Digit digits = true ->
             match to_Number (decimal_value digits) with
             | Int n => 0 <= n
             | Infinity negative => negative = false
             | NaN => False
             end).
  { intros digits Hd.
    now apply to_Number_nonneg, decimal_value_nonneg, run_of_digits. }
  unfold parseIssueInput.
  destruct (str_match s shortPattern) as [shortMatch|] eqn:E1.
  - intros H. inversion H; subst ref; clear H. cbn [owner repo issue_number].
    assert (C : compact_form s) by (apply compact_form_iff; congruence).
    apply short_match_sound in E1
      as (ns & name & digits & -> & _ & Hns & Hname & Hd).
    unfold group; cbn [Nat.pred nth]. rewrite (parseInt_digits _ Hd).
    split; [assumption|]. split; [intros ->; discriminate Hname|].
    split; [now exists digits|]. split; [now apply N | now left].
  - destruct (str_match s urlPattern) as [urlMatch|] eqn:E2; [|discriminate].
    intros H. inversion H; subst ref; clear H. cbn [owner repo issue_number].
    assert (A : address_form s) by (apply address_form_iff; congruence).
    assert (C : ~ compact_form s).
    { intros C. apply compact_form_iff in C. now apply C. }
    apply url_match_captures in E2
      as (ns & name & digits & -> & Hns & Hname & Hd).
    unfold group; cbn [Nat.pred nth]. rewrite (parseInt_digits _ Hd).
    split; [assumption|]. split; [intros ->; discriminate Hname|].
    split; [now exists digits|]. split; [now apply N | now right].
Qed.

Lemma parseIssueInput_is_well_formed_witness :
  run_of (NoneOf "/") "owner" = true
  /\ "repo" <> ""
  /\ (exists digits,
        run_of Digit digits = true
        /\ Int 42 = to_Number (decimal_value digits))
  /\ 0 <= 42
  /\ (compact_form "https://github.com/owner/repo/issues/42"
      /\ run_of (NoneOf "#") "repo" = true
      \/ ~ compact_form "https://github.com/owner/repo/issues/42"
         /\ address_form "https://github.com/owner/repo/issues/42"
         /\ run_of (NoneOf "/") "repo" = true).
Proof.
  exact (parseIssueInput_is_well_formed
           "https://github.com/owner/repo/issues/42"
           {| owner := "owner"; repo := "repo"; issue_number := Int 42 |}
           eq_refl).
Defined.

(* ================================================================== *)
(** * The reference printed for an issue resolves to the issue *)

Lemma uint_digits (d : Decimal.uint) :
  all_chars is_digit (NilEmpty.string_of_uint d) = true.
Proof. induction d; cbn [NilEmpty.string_of_uint all_chars]; auto. Qed.

Lemma read_uint (d : Decimal.uint) :
  forall acc,
    read_digits 10 (Some acc) (NilEmpty.string_of_uint d)
    = Some (uint_value acc d).
Proof.
  induction d; intros acc;
    cbn [NilEmpty.string_of_uint read_digits uint_value];
    [reflexivity | ..];
    match goal with
    | |- context [digit_in 10 ?a] =>
        change (digit_in 10 a) with (Some (code a - 48))
    end; cbv beta iota; rewrite IHd; reflexivity.
Qed.

Lemma decimal_value_uint (d : Decimal.uint) :
  decimal_value (NilEmpty.string_of_uint d) = uint_value 0 d.
Proof.
  pose proof (read_digits_decimal _ 0 (uint_digits d)) as H.
  rewrite read_uint in H. inversion H as [E]. lia.
Qed.

Lemma uint_value_pos (d : Decimal.uint) :
  forall acc, uint_value (Z.pos acc) d = Z.pos (Pos.of_uint_acc d acc).
Proof.
  induction d; intros acc; cbn [uint_value Pos.of_uint_acc];
    [reflexivity | ..];
    match goal with
    | |- uint_value ?z _ = Z.pos (Pos.of_uint_acc _ ?q) =>
        replace z with (Z.pos q) by lia
    end; apply IHd.
Qed.

Lemma uint_value_0 (d : Decimal.uint) :
  uint_value 0 d = Z.of_N (Pos.of_uint d).
Proof.
  induction d; cbn [uint_value Pos.of_uint]; try exact IHd;
    try reflexivity; cbn [Z.mul Z.add Z.of_N]; apply uint_value_pos.
Qed.

(** A number that is not negative and below [2^53] prints as its decimal
    digits. *)
Lemma of_number_digits (n : Z) :
  0 <= n < 2 ^ 53 ->
  run_of Digit (of_number n) = true /\ decimal_value (of_number n) = n.
Proof.
  intros Hn. unfold of_number.
  destruct (Z.ltb_spec (Z.abs n) (2 ^ 53)) as [_|B]; [|lia].
  unfold digits_of.
  pose proof (DecimalZ.of_to n) as R.
  destruct (Z.to_int n) as [d|d] eqn:E.
  - cbn [NilZero.string_of_int]. cbn [Z.of_int] in R. unfold Z.of_uint in R.
    destruct d; cbn [NilZero.string_of_uint].
    + split; [reflexivity | exact R].
    + split; [apply (uint_digits (Decimal.D0 d))|].
      now rewrite decimal_value_uint, uint_value_0.
    + split; [apply (uint_digits (Decimal.D1 d))|].
      now rewrite decimal_value_uint, uint_value_0.
    + split; [apply (uint_digits (Decimal.D2 d))|].
      now rewrite decimal_value_uint, uint_value_0.
    + split; [apply (uint_digits (Decimal.D3 d))|].
      now rewrite decimal_value_uint, uint_value_0.
    + split; [apply (uint_digits (Decimal.D4 d))|].
      now rewrite decimal_value_uint, uint_value_0.
    + split; [apply (uint_digits (Decimal.D5 d))|].
      now rewrite decimal_value_uint, uint_value_0.
    + split; [apply (uint_digits (Decimal.D6 d))|].
      now rewrite decimal_value_uint, uint_value_0.
    + split; [apply (uint_digits (Decimal.D7 d))|].
      now rewrite decimal_value_uint, uint_value_0.
    + split; [apply (uint_digits (Decimal.D8 d))|].
      now rewrite decimal_value_uint, uint_value_0.
    + split; [apply (uint_digits (Decimal.D9 d))|].
      now rewrite decimal_value_uint, uint_value_0.
  - destruct n; try discriminate E. lia.
Qed.

(** X18.  The reference that the traversal prints for an issue,
    [`${owner}/${repo}#${issue_number}`], is read back by the resolver as
    this issue: same owner, same repository, same number.  The owner must
    be a non-empty text without slash, the repository a non-empty text
    without hash, and the number an integer from 0 to below [2^53], the
    range in which a Number prints all its digits and digits are read
    without rounding. *)
Theorem issueRef_resolves_to_the_issue (o r : string) (n : Z) :
  run_of (NoneOf "/") o = true ->
  run_of (NoneOf "#") r = true ->
  0 <= n < 2 ^ 53 ->
  parseIssueInput (issueRef_of (Some o) (Some r) n)
  = Some {| owner := o; repo := r; issue_number := Int n |}.
Proof.
  intros Ho Hr Hn. destruct (of_number_digits n Hn) as [Hd Hv].
  unfold issueRef_of, parseIssueInput. cbn [of_optional].
  rewrite (short_match_complete o r (of_number n) Ho Hr Hd).
  unfold group; cbn [Nat.pred nth].
  rewrite (parseInt_digits _ Hd), Hv. f_equal. f_equal.
  apply to_Number_exact. lia.
Qed.

Lemma issueRef_resolves_to_the_issue_witness :
  parseIssueInput (issueRef_of (Some "owner") (Some "repo") 1234)
  = Some {| owner := "owner"; repo := "repo"; issue_number := Int 1234 |}.
Proof.
  apply (issueRef_resolves_to_the_issue "owner" "repo" 1234);
    [reflexivity | reflexivity | split; [lia | reflexivity]].
Defined.

(** Beyond: a Number from [1e21] on prints with an exponent, and what is
    printed is no reference. *)
Example issueRef_with_exponent :
  issueRef_of (Some "owner") (Some "repo") (10 ^ 21) = "owner/repo#1e+21"
  /\ parseIssueInput (issueRef_of (Some "owner") (Some "repo") (10 ^ 21))
     = None.
Proof. split; vm_compute; reflexivity. Qed.

(* ================================================================== *)
(** * The owner and the repository read from any [repository_url] *)

Lemma split_length (sep : ascii) (s : string) :
  (List.length (split sep s) = 1)%nat
  <-> all_chars (in_class (NoneOf sep)) s = true.
Proof.
  induction s as [|a s IH]; cbn [split all_chars in_class].
  - now split.
  - pose proof (split_nonempty sep s) as N.
    destruct (Ascii.eqb a sep); cbn [negb andb].
    + split; [|discriminate]. cbn [List.length]. intros H.
      destruct (split sep s); [contradiction | discriminate H].
    + destruct (split sep s) as [|h t]; [contradiction|].
      exact IH.
Qed.

Lemma pop_nonempty {A : Type} (l : list A) : l <> [] -> pop l <> None.
Proof.
  intros N. unfold pop. apply nth_error_Some.
  destruct l; [contradiction | cbn [List.length Nat.pred]; lia].
Qed.

Lemma slice_last_but_one_none {A : Type} (l : list A) :
  l <> [] ->
  (first (slice (-2) (-1) l) = None <-> (List.length l = 1)%nat).
Proof.
  intros N. unfold first, slice, clamp_index.
  change (-2 <? 0) with true. change (-1 <? 0) with true. cbv iota.
  assert (L : (0 < List.length l)%nat)
    by (destruct l; [contradiction | cbn [List.length]; lia]).
  split.
  - intros H. apply nth_error_None in H.
    rewrite length_firstn, length_skipn in H. lia.
  - intros E. rewrite E. reflexivity.
Qed.

(** X19.  Whatever the [repository_url] of a sub-issue is, the repository
    read from it is a string, never [undefined]; the owner read from it is
    [undefined] exactly when the text holds no slash, and the call on the
    sub-issue is then made without an owner. *)
Theorem sub_issue_without_slash (subIssue : SubIssue) :
  subRepo_of subIssue <> None
  /\ (subOwner_of subIssue = None
      <-> all_chars (in_class (NoneOf "/")) (repository_url subIssue) = true).
Proof.
  unfold subRepo_of, subOwner_of.
  pose proof (split_nonempty "/" (repository_url subIssue)) as N.
  split.
  - now apply pop_nonempty.
  - rewrite (slice_last_but_one_none _ N). apply split_length.
Qed.
